(** * ghostwriter: the Markdown editing engines of [MarkdownEditor.cpp]

    A shallow embedding of the key handling of [src/MarkdownEditor.cpp]:
    [keyPressEvent], [handleCarriageReturn], [handleBackspaceKey],
    [indentText], [unindentText], [insertPairedCharacters] and
    [handleEndPairCharacterTyped], and of the actions of its menus:
    [insertFormattingMarkup], [insertComment], [insertPrefixForBlocks],
    [createNumberedList], [removeBlockquote] and [toggleTaskComplete], over
    a model of the Qt classes they drive ([QString], [QRegExp], [QHash],
    [QTextDocument], [QTextCursor]). *)

From Stdlib Require Import Ascii String.
From Stdlib Require Import ZArith List Bool Lia.
From Stdlib Require DecimalZ.
Import ListNotations.
Local Open Scope Z_scope.

(* ================================================================== *)
(** ** QChar and QString *)

(** A [QChar] is one UTF-16 code unit; a [QString] is a sequence of them. *)
Definition QChar := Z.
Definition QString := list QChar.

Definition QLatin1Char (a : ascii) : QChar := Z.of_N (N_of_ascii a).

Definition QLatin1String (s : string) : QString :=
  map QLatin1Char (list_ascii_of_string s).

(** The default-constructed [QChar()], the null character. *)
Definition QChar_null : QChar := 0.

(** The characters written with an escape in the source: the double quote,
    the line feed and the tabulation. *)
Definition DoubleQuote : QChar := 0x22.
Definition LineFeed : QChar := 0x0A.
Definition Tab : QChar := 0x09.

Definition size (s : QString) : Z := Z.of_nat (length s).

(** Unicode general categories, as far as [QChar::isSpace], [QChar::isDigit]
    and the classes [\s] and [\d] of [QRegExp] look at them. *)
Inductive Category :=
| Other_Control
| Separator_Space
| Separator_Line
| Separator_Paragraph
| Number_DecimalDigit
| Category_Other.

Definition Category_eqb (a b : Category) : bool :=
  match a, b with
  | Other_Control, Other_Control
  | Separator_Space, Separator_Space
  | Separator_Line, Separator_Line
  | Separator_Paragraph, Separator_Paragraph
  | Number_DecimalDigit, Number_DecimalDigit
  | Category_Other, Category_Other => true
  | _, _ => false
  end.

(** The code units of category Zs. *)
Definition spaceSeparators : list QChar :=
  [0x20; 0xA0; 0x1680; 0x2000; 0x2001; 0x2002; 0x2003; 0x2004; 0x2005;
   0x2006; 0x2007; 0x2008; 0x2009; 0x200A; 0x202F; 0x205F; 0x3000].

(** The digit zero of every run of ten decimal digits (category Nd) of the
    Basic Multilingual Plane. *)
Definition decimalDigitZeros : list QChar :=
  [0x30; 0x660; 0x6F0; 0x7C0; 0x966; 0x9E6; 0xA66; 0xAE6; 0xB66; 0xBE6;
   0xC66; 0xCE6; 0xD66; 0xDE6; 0xE50; 0xED0; 0xF20; 0x1040; 0x1090;
   0x17E0; 0x1810; 0x1946; 0x19D0; 0x1A80; 0x1A90; 0x1B50; 0x1BB0;
   0x1C40; 0x1C50; 0xA620; 0xA8D0; 0xA900; 0xA9D0; 0xA9F0; 0xAA50;
   0xABF0; 0xFF10].

Definition category (c : QChar) : Category :=
  if (c <=? 0x1F) || ((0x7F <=? c) && (c <=? 0x9F)) then Other_Control
  else if existsb (Z.eqb c) spaceSeparators then Separator_Space
  else if c =? 0x2028 then Separator_Line
  else if c =? 0x2029 then Separator_Paragraph
  else if existsb (fun z => (z <=? c) && (c <=? z + 9)) decimalDigitZeros
       then Number_DecimalDigit
  else Category_Other.

Definition isSeparator (k : Category) : bool :=
  match k with
  | Separator_Space | Separator_Line | Separator_Paragraph => true
  | _ => false
  end.

(** [QChar::isSpace], also the class [\s] of [QRegExp]. *)
Definition isSpace (c : QChar) : bool :=
  (c =? 0x20) || ((0x09 <=? c) && (c <=? 0x0D))
  || ((127 <? c) && ((c =? 0x85) || (c =? 0xA0) || isSeparator (category c))).

(** [QChar::isDigit], also the class [\d] of [QRegExp]. *)
Definition isDigit (c : QChar) : bool :=
  Category_eqb (category c) Number_DecimalDigit.

(** The class [[0-9]]. *)
Definition isAsciiDigit (c : QChar) : bool := (0x30 <=? c) && (c <=? 0x39).

(** The class [[.)]]. *)
Definition isNumberPunct (c : QChar) : bool :=
  (c =? QLatin1Char ".") || (c =? QLatin1Char ")").

(** The class [[+*-]]. *)
Definition isBulletChar (c : QChar) : bool :=
  (c =? QLatin1Char "+") || (c =? QLatin1Char "*") || (c =? QLatin1Char "-").

(** The longest prefix whose characters satisfy [p], and what follows it. *)
Fixpoint takeWhile (p : QChar -> bool) (s : QString) : QString :=
  match s with
  | c :: r => if p c then c :: takeWhile p r else []
  | [] => []
  end.

Fixpoint dropWhile (p : QChar -> bool) (s : QString) : QString :=
  match s with
  | c :: r => if p c then dropWhile p r else s
  | [] => []
  end.

(** [QString::left(n)]: the whole string when [n] is negative or too large. *)
Definition QString_left (s : QString) (n : Z) : QString :=
  if n <? 0 then s else firstn (Z.to_nat n) s.

(** [QString::truncate(n)]: a negative [n] counts as zero. *)
Definition QString_truncate (s : QString) (n : Z) : QString :=
  firstn (Z.to_nat n) s.

(** [QString::trimmed()]. *)
Definition QString_trimmed (s : QString) : QString :=
  rev (dropWhile isSpace (rev (dropWhile isSpace s))).

(** [QString::at(i)] at a valid index. *)
Definition QString_at (s : QString) (i : Z) : QChar :=
  nth (Z.to_nat i) s QChar_null.

(** Whether [i] is a valid index position of [s]: [0 <= i < s.size()]. *)
Definition validIndex (s : QString) (i : Z) : bool :=
  (0 <=? i) && (i <? size s).

(** Reading through the non-const [QString::operator[]]: the [QCharRef] it
    returns converts to the character at [i] when [i] is below the size and
    to the null character otherwise. *)
Definition QCharRef_read (s : QString) (i : Z) : QChar :=
  if i <? size s then QString_at s i else QChar_null.

(** [QString::replace(QChar before, QChar after)]: every occurrence. *)
Definition QString_replace (s : QString) (before after : QChar) : QString :=
  map (fun c => if c =? before then after else c) s.

(** [QString::replace(QRegExp("\\d+"), after)]: every maximal run of digits
    becomes [after]. [inRun] tells that the previous character was a digit. *)
Fixpoint replaceDigitRuns (after : QString) (inRun : bool) (s : QString) : QString :=
  match s with
  | [] => []
  | c :: r =>
      if isDigit c
      then (if inRun then [] else after) ++ replaceDigitRuns after true r
      else c :: replaceDigitRuns after false r
  end.

Definition QString_replace_number (s after : QString) : QString :=
  replaceDigitRuns after false s.

(** [QString::indexOf(QRegExp(c))] for a one-character class [c]: the index
    of the first character of the class, [-1] when there is none. *)
Fixpoint indexOfClass (p : QChar -> bool) (s : QString) : Z :=
  match s with
  | [] => -1
  | c :: r =>
      if p c then 0
      else let i := indexOfClass p r in if i <? 0 then -1 else i + 1
  end.

(** [QString::lastIndexOf(QChar)]. *)
Fixpoint QString_lastIndexOf (s : QString) (ch : QChar) : Z :=
  match s with
  | [] => -1
  | c :: r =>
      let i := QString_lastIndexOf r ch in
      if 0 <=? i then i + 1 else if c =? ch then 0 else -1
  end.

(** *** Numbers *)

Definition INT_MAX : Z := 2147483647.

(** A value of C++ [int] after an arithmetic step: two's complement
    wrap-around to 32 bits. *)
Definition wrap_int (n : Z) : Z := (n + 2^31) mod 2^32 - 2^31.

Definition digitOfChar (c : QChar) (k : Decimal.uint) : Decimal.uint :=
  match c - 0x30 with
  | 0 => Decimal.D0 k | 1 => Decimal.D1 k | 2 => Decimal.D2 k
  | 3 => Decimal.D3 k | 4 => Decimal.D4 k | 5 => Decimal.D5 k
  | 6 => Decimal.D6 k | 7 => Decimal.D7 k | 8 => Decimal.D8 k
  | _ => Decimal.D9 k
  end.

Fixpoint uintOfDigits (s : QString) : Decimal.uint :=
  match s with
  | [] => Decimal.Nil
  | c :: r => digitOfChar c (uintOfDigits r)
  end.

Fixpoint digitsOfUint (u : Decimal.uint) : QString :=
  match u with
  | Decimal.Nil => []
  | Decimal.D0 k => 0x30 :: digitsOfUint k
  | Decimal.D1 k => 0x31 :: digitsOfUint k
  | Decimal.D2 k => 0x32 :: digitsOfUint k
  | Decimal.D3 k => 0x33 :: digitsOfUint k
  | Decimal.D4 k => 0x34 :: digitsOfUint k
  | Decimal.D5 k => 0x35 :: digitsOfUint k
  | Decimal.D6 k => 0x36 :: digitsOfUint k
  | Decimal.D7 k => 0x37 :: digitsOfUint k
  | Decimal.D8 k => 0x38 :: digitsOfUint k
  | Decimal.D9 k => 0x39 :: digitsOfUint k
  end.

(** The number a non-empty string of the digits 0 to 9 denotes. *)
Definition numberOfDigits (s : QString) : Z := Z.of_uint (uintOfDigits s).

(** [QString::toInt()] on a string of the digits 0 to 9: the number when it
    fits an [int], and [0] (the conversion fails) when it does not or when the
    string is empty. *)
Definition QString_toInt (s : QString) : Z :=
  match s with
  | [] => 0
  | _ => let n := numberOfDigits s in if n <=? INT_MAX then n else 0
  end.

(** [QString("%1").arg(n)]: the decimal notation of an [int]. *)
Definition QString_number (n : Z) : QString :=
  match Z.to_int n with
  | Decimal.Pos u => digitsOfUint u
  | Decimal.Neg u => QLatin1Char "-" :: digitsOfUint u
  end.

(* ================================================================== *)
(** ** QRegExp: the four patterns of the constructor

    A pattern is modelled by its anchored matcher: what [indexIn(text, 0)]
    finds at the start of [text]. Every pattern starts with [^], so a match
    is at index 0 or nowhere; and in each pattern a greedy quantifier is
    followed by a class disjoint from the one it repeats, so the match at
    index 0 is unique and the matcher needs no backtracking. *)

Record QRegExpMatch := mkMatch {
  matchedLength : Z;        (* [QRegExp::matchedLength()] *)
  cap1 : QString            (* [QRegExp::cap(1)] *)
}.

Definition QRegExp := QString -> option QRegExpMatch.

(** [^\s*([0-9]+)[.)]\s+] *)
Definition numberedListRegex : QRegExp := fun t =>
  let ws := takeWhile isSpace t in
  let r1 := dropWhile isSpace t in
  let ds := takeWhile isAsciiDigit r1 in
  match ds, dropWhile isAsciiDigit r1 with
  | _ :: _, p :: r2 =>
      if isNumberPunct p then
        match takeWhile isSpace r2 with
        | [] => None
        | ws2 => Some (mkMatch (size ws + size ds + 1 + size ws2) ds)
        end
      else None
  | _, _ => None
  end.

(** [^\s*[+*-]\s+] *)
Definition bulletListRegex : QRegExp := fun t =>
  let ws := takeWhile isSpace t in
  match dropWhile isSpace t with
  | m :: r =>
      if isBulletChar m then
        match takeWhile isSpace r with
        | [] => None
        | ws2 => Some (mkMatch (size ws + 1 + size ws2) [])
        end
      else None
  | [] => None
  end.

(** [^\s*[-] \[([x ])\]\s+] *)
Definition taskListRegex : QRegExp := fun t =>
  let ws := takeWhile isSpace t in
  match dropWhile isSpace t with
  | m :: sp :: lb :: v :: rb :: r =>
      if (m =? QLatin1Char "-") && (sp =? QLatin1Char " ")
         && (lb =? QLatin1Char "[")
         && ((v =? QLatin1Char "x") || (v =? QLatin1Char " "))
         && (rb =? QLatin1Char "]")
      then
        match takeWhile isSpace r with
        | [] => None
        | ws2 => Some (mkMatch (size ws + 5 + size ws2) [v])
        end
      else None
  | _ => None
  end.

(** The part [ {0,3}] of the blockquote pattern: at most three of the
    leading blanks. *)
Fixpoint takeBlanks (n : nat) (s : QString) : QString :=
  match n, s with
  | S k, c :: r => if c =? QLatin1Char " " then c :: takeBlanks k r else []
  | _, _ => []
  end.

(** The repeated group of the blockquote pattern, a [>] and the white space
    after it, one or more times: the length of the repetitions at the start
    of [s]; [fuel] bounds their number by the length of the text. *)
Fixpoint quoteGroups (fuel : nat) (s : QString) : Z :=
  match fuel, s with
  | S k, c :: r =>
      if c =? QLatin1Char ">"
      then 1 + size (takeWhile isSpace r) + quoteGroups k (dropWhile isSpace r)
      else 0
  | _, _ => 0
  end.

(** The pattern of a blockquote: [^], [ {0,3}], then the group [>\s*] one or
    more times. *)
Definition blockquoteRegex : QRegExp := fun t =>
  let bl := takeBlanks 3 t in
  let r := skipn (length bl) t in
  let n := quoteGroups (length r) r in
  if 0 <? n then Some (mkMatch (size bl + n) [])
  else None.

(** [QRegExp::exactMatch(text)]: the pattern matches the whole of [text]. *)
Definition exactMatch (rx : QRegExp) (t : QString) : bool :=
  match rx t with
  | Some m => matchedLength m =? size t
  | None => false
  end.

(** [QRegExp::capturedTexts()] after [indexIn(text, 0)], for a pattern with
    one group: always the whole match and the group, both empty when the
    match failed. *)
Definition capturedTexts (rx : QRegExp) (t : QString) : list QString :=
  match rx t with
  | Some m => [QString_left t (matchedLength m); cap1 m]
  | None => [[]; []]
  end.

(* ================================================================== *)
(** ** QHash<QChar, T> *)

(** The entries in iteration order. Keys are unique. *)
Definition QHash (T : Type) := list (QChar * T).

Section Hash.
Context {T : Type}.

Fixpoint hash_contains (h : QHash T) (k : QChar) : bool :=
  match h with
  | [] => false
  | (k', _) :: r => (k' =? k) || hash_contains r k
  end.

(** [QHash::value(key)]: a default-constructed value for a missing key. *)
Fixpoint hash_value (dflt : T) (h : QHash T) (k : QChar) : T :=
  match h with
  | [] => dflt
  | (k', v) :: r => if k' =? k then v else hash_value dflt r k
  end.

(** [QHash::insert(key, value)]: replaces the value of a key already there. *)
Fixpoint hash_insert (h : QHash T) (k : QChar) (v : T) : QHash T :=
  match h with
  | [] => [(k, v)]
  | (k', v') :: r =>
      if k' =? k then (k, v) :: r else (k', v') :: hash_insert r k v
  end.

(** The non-const [QHash::operator[](key)]: a missing key is inserted with
    a default-constructed value, and the value of the key read. *)
Definition hash_index (dflt : T) (h : QHash T) (k : QChar) : T * QHash T :=
  if hash_contains h k then (hash_value dflt h k, h)
  else (dflt, hash_insert h k dflt).

(** [QHash::values()] *)
Definition hash_values (h : QHash T) : list T := map snd h.

(** [QHash::key(value)]: the first key with that value, a
    default-constructed key when there is none. *)
Fixpoint hash_key (eqb : T -> T -> bool) (h : QHash T) (v : T) : QChar :=
  match h with
  | [] => QChar_null
  | (k, v') :: r => if eqb v' v then k else hash_key eqb r v
  end.
End Hash.

(** [QList<QChar>::contains] *)
Definition QList_contains (l : list QChar) (c : QChar) : bool :=
  existsb (Z.eqb c) l.

(* ================================================================== *)
(** ** QTextDocument and QTextBlock *)

(** The values of [QTextBlock::userState()] the editor tells apart: the
    highlighter stores one of the states of [MarkdownStates.h] in every block,
    and the [switch] statements of the editor single out three of them. The
    highlighter is no part of [MarkdownEditor.cpp]: here the state of a block
    is a datum of the block, which an edit inside the block leaves as it
    is. *)
Inductive MarkdownState :=
| MarkdownStateNumberedList
| MarkdownStateBulletPointList
| MarkdownStateBlockquote
| MarkdownStateOther.   (* every other state, and -1 of a block without one *)

Record QTextBlock := mkBlock {
  text : QString;             (* [QTextBlock::text()], without the separator *)
  userState : MarkdownState   (* [QTextBlock::userState()] *)
}.

(** A document is the sequence of its blocks. The characters of a block are
    followed by one block separator, so a block of [n] characters takes the
    [n + 1] positions from its own position on. *)
Definition QTextDocument := list QTextBlock.

(** The invalid block [findBlock] answers outside the document. *)
Definition invalidBlock : QTextBlock := mkBlock [] MarkdownStateOther.

(** [QTextBlock::length()] *)
Definition blockLength (b : QTextBlock) : nat := S (length (text b)).

(** [QTextDocument::characterCount()] *)
Fixpoint characterCount (d : QTextDocument) : nat :=
  match d with
  | [] => 0
  | b :: rest => blockLength b + characterCount rest
  end.

(** [QTextDocument::findBlock(pos)], as the number of the block. *)
Fixpoint findBlock (d : QTextDocument) (pos : nat) : nat :=
  match d with
  | [] => 0
  | b :: rest =>
      if (pos <? blockLength b)%nat then 0%nat
      else S (findBlock rest (pos - blockLength b))
  end.

Definition blockAt (d : QTextDocument) (i : nat) : QTextBlock :=
  nth i d invalidBlock.

(** [QTextBlock::position()] of block [i]. *)
Definition blockPosition (d : QTextDocument) (i : nat) : nat :=
  characterCount (firstn i d).

Definition ParagraphSeparator : QChar := 0x2029.

(** [QTextDocument::characterAt(pos)] *)
Fixpoint characterAt (d : QTextDocument) (pos : nat) : QChar :=
  match d with
  | [] => QChar_null
  | b :: rest =>
      if (pos <? length (text b))%nat then nth pos (text b) QChar_null
      else if (pos =? length (text b))%nat then ParagraphSeparator
      else characterAt rest (pos - blockLength b)
  end.

(** The characters [QTextCursor::insertText] turns into a new block. *)
Definition isBlockSeparator (c : QChar) : bool :=
  (c =? 0x0A) || (c =? 0x0D) || (c =? ParagraphSeparator)
  || (c =? 0xFDD0) || (c =? 0xFDD1).

(** One character inserted at [pos]. A separator splits the block: the part
    before it stays the block it was, with its state, and the part after it
    is a new block, which has no state until the highlighter visits it. *)
Fixpoint insertChar (d : QTextDocument) (pos : nat) (ch : QChar) : QTextDocument :=
  match d with
  | [] => []
  | b :: rest =>
      if (pos <? blockLength b)%nat then
        if isBlockSeparator ch
        then mkBlock (firstn pos (text b)) (userState b)
             :: mkBlock (skipn pos (text b)) MarkdownStateOther :: rest
        else mkBlock (firstn pos (text b) ++ ch :: skipn pos (text b))
                     (userState b) :: rest
      else b :: insertChar rest (pos - blockLength b) ch
  end.

Fixpoint insertChars (d : QTextDocument) (pos : nat) (s : QString) : QTextDocument :=
  match s with
  | [] => d
  | ch :: r => insertChars (insertChar d pos ch) (S pos) r
  end.

(** The character at [pos] removed. Removing the separator of a block joins
    the next block to it; the separator of the last block stays. *)
Fixpoint removeChar (d : QTextDocument) (pos : nat) : QTextDocument :=
  match d with
  | [] => []
  | b :: rest =>
      if (pos <? length (text b))%nat
      then mkBlock (firstn pos (text b) ++ skipn (S pos) (text b))
                   (userState b) :: rest
      else if (pos =? length (text b))%nat then
        match rest with
        | [] => d
        | b' :: rest' => mkBlock (text b ++ text b') (userState b) :: rest'
        end
      else b :: removeChar rest (pos - blockLength b)
  end.

Fixpoint removeChars (d : QTextDocument) (pos n : nat) : QTextDocument :=
  match n with
  | O => d
  | S k => removeChars (removeChar d pos) pos k
  end.

(* ================================================================== *)
(** ** QTextCursor *)

Record QTextCursor := mkCursor {
  anchor : Z;       (* [QTextCursor::anchor()] *)
  position : Z      (* [QTextCursor::position()] *)
}.

Definition hasSelection (c : QTextCursor) : bool :=
  negb (anchor c =? position c).

Definition selectionStart (c : QTextCursor) : Z := Z.min (anchor c) (position c).
Definition selectionEnd (c : QTextCursor) : Z := Z.max (anchor c) (position c).

Inductive MoveMode := MoveAnchor | KeepAnchor.

Inductive MoveOperation :=
| StartOfBlock | EndOfBlock
| Left | Right | PreviousCharacter | NextCharacter.

(** [QTextCursor::setPosition(pos, mode)] *)
Definition setPosition (c : QTextCursor) (pos : Z) (m : MoveMode) : QTextCursor :=
  match m with
  | MoveAnchor => mkCursor pos pos
  | KeepAnchor => mkCursor (anchor c) pos
  end.

(** The number of the block the cursor is in, [QTextCursor::block()]. *)
Definition cursorBlockNumber (d : QTextDocument) (c : QTextCursor) : nat :=
  findBlock d (Z.to_nat (position c)).

Definition cursorBlock (d : QTextDocument) (c : QTextCursor) : QTextBlock :=
  blockAt d (cursorBlockNumber d c).

(** [QTextCursor::positionInBlock()] *)
Definition positionInBlock (d : QTextDocument) (c : QTextCursor) : Z :=
  position c - Z.of_nat (blockPosition d (cursorBlockNumber d c)).

(** One step of [QTextCursor::movePosition]: the new position, or [None] when
    the cursor cannot move. The text is left-to-right, so [Left] and [Right]
    are the previous and the next character; both cross block separators. *)
Definition moveOnce (d : QTextDocument) (c : QTextCursor) (op : MoveOperation)
  : option Z :=
  let start := Z.of_nat (blockPosition d (cursorBlockNumber d c)) in
  match op with
  | StartOfBlock => Some start
  | EndOfBlock => Some (start + size (text (cursorBlock d c)))
  | Left | PreviousCharacter =>
      if 0 <? position c then Some (position c - 1) else None
  | Right | NextCharacter =>
      if position c <? Z.of_nat (characterCount d) - 1
      then Some (position c + 1) else None
  end.

(** [QTextCursor::movePosition(op, mode, n)]: [n] steps, ending at the first
    one that fails. *)
Fixpoint movePosition (d : QTextDocument) (c : QTextCursor)
         (op : MoveOperation) (m : MoveMode) (n : nat) : QTextCursor :=
  match n with
  | O => c
  | S k =>
      match moveOnce d c op with
      | Some p => movePosition d (setPosition c p m) op m k
      | None => c
      end
  end.

(** The position of column [c] of the block that follows the blocks
    [before], and the cursor without selection there. *)
Definition positionAt (before : QTextDocument) (c : nat) : Z :=
  Z.of_nat (characterCount before + c).

Definition cursorAt (before : QTextDocument) (c : nat) : QTextCursor :=
  mkCursor (positionAt before c) (positionAt before c).

(** A text a block can have: it holds no block separator. *)
Definition noSeparator (s : QString) : bool :=
  forallb (fun ch => negb (isBlockSeparator ch)) s.

(** How the document moves a cursor position when [n] characters are
    inserted at [p]: a cursor at [p] or after it moves along. *)
Definition adjustInserted (p n pos : Z) : Z :=
  if pos <? p then pos else pos + n.

(** ... and when the [n] characters from [p] on are removed. *)
Definition adjustRemoved (p n pos : Z) : Z :=
  if pos <? p then pos else if pos <? p + n then p else pos - n.

Definition adjustCursor (f : Z -> Z) (c : QTextCursor) : QTextCursor :=
  mkCursor (f (anchor c)) (f (position c)).

(* ================================================================== *)
(** ** MarkdownEditor: the fields the key handling reads and writes *)

Record MarkdownEditor := mkEditor {
  document : QTextDocument;
  textCursor : QTextCursor;          (* the cursor of the widget *)
  hemingwayModeEnabled : bool;
  autoMatchEnabled : bool;
  bulletPointCyclingEnabled : bool;
  insertSpacesForTabs : bool;
  tabWidth : Z;
  markupPairs : QHash QChar;
  autoMatchFilter : QHash bool
}.

(** The editor with another text and cursor, every other field as it is. *)
Definition withText (ed : MarkdownEditor) (d : QTextDocument) (w : QTextCursor)
  : MarkdownEditor :=
  mkEditor d w (hemingwayModeEnabled ed) (autoMatchEnabled ed)
           (bulletPointCyclingEnabled ed) (insertSpacesForTabs ed) (tabWidth ed)
           (markupPairs ed) (autoMatchFilter ed).

(** [QPlainTextEdit::setTextCursor] *)
Definition setTextCursor (ed : MarkdownEditor) (c : QTextCursor) : MarkdownEditor :=
  withText ed (document ed) c.

Definition withMarkupPairs (ed : MarkdownEditor) (h : QHash QChar) : MarkdownEditor :=
  mkEditor (document ed) (textCursor ed) (hemingwayModeEnabled ed)
           (autoMatchEnabled ed) (bulletPointCyclingEnabled ed)
           (insertSpacesForTabs ed) (tabWidth ed) h (autoMatchFilter ed).

(** [MarkdownEditor::setAutoMatchEnabled(openingCharacter, enabled)], the
    overload for one opening character. *)
Definition setAutoMatchEnabledFor (ed : MarkdownEditor) (openingCharacter : QChar)
           (enabled : bool) : MarkdownEditor :=
  mkEditor (document ed) (textCursor ed) (hemingwayModeEnabled ed)
           (autoMatchEnabled ed) (bulletPointCyclingEnabled ed)
           (insertSpacesForTabs ed) (tabWidth ed) (markupPairs ed)
           (hash_insert (autoMatchFilter ed) openingCharacter enabled).

(** [MarkdownEditor::setHemingWayModeEnabled] *)
Definition setHemingWayModeEnabled (ed : MarkdownEditor) (enabled : bool)
  : MarkdownEditor :=
  mkEditor (document ed) (textCursor ed) enabled
           (autoMatchEnabled ed) (bulletPointCyclingEnabled ed)
           (insertSpacesForTabs ed) (tabWidth ed) (markupPairs ed)
           (autoMatchFilter ed).

(** [MarkdownEditor::setAutoMatchEnabled(enable)] *)
Definition setAutoMatchEnabled (ed : MarkdownEditor) (enable : bool)
  : MarkdownEditor :=
  mkEditor (document ed) (textCursor ed) (hemingwayModeEnabled ed)
           enable (bulletPointCyclingEnabled ed)
           (insertSpacesForTabs ed) (tabWidth ed) (markupPairs ed)
           (autoMatchFilter ed).

(** [MarkdownEditor::setBulletPointCyclingEnabled] *)
Definition setBulletPointCyclingEnabled (ed : MarkdownEditor) (enable : bool)
  : MarkdownEditor :=
  mkEditor (document ed) (textCursor ed) (hemingwayModeEnabled ed)
           (autoMatchEnabled ed) enable
           (insertSpacesForTabs ed) (tabWidth ed) (markupPairs ed)
           (autoMatchFilter ed).

(** [MarkdownEditor::setInsertSpacesForTabs] *)
Definition setInsertSpacesForTabs (ed : MarkdownEditor) (enable : bool)
  : MarkdownEditor :=
  mkEditor (document ed) (textCursor ed) (hemingwayModeEnabled ed)
           (autoMatchEnabled ed) (bulletPointCyclingEnabled ed)
           enable (tabWidth ed) (markupPairs ed) (autoMatchFilter ed).

(** [MarkdownEditor::setTabulationWidth] *)
Definition setTabulationWidth (ed : MarkdownEditor) (width : Z) : MarkdownEditor :=
  mkEditor (document ed) (textCursor ed) (hemingwayModeEnabled ed)
           (autoMatchEnabled ed) (bulletPointCyclingEnabled ed)
           (insertSpacesForTabs ed) width (markupPairs ed) (autoMatchFilter ed).

(** The tables the constructor fills, entry by entry. *)
Definition constructedMarkupPairs : QHash QChar :=
  fold_left (fun h kv => hash_insert h (fst kv) (snd kv))
    [ (DoubleQuote, DoubleQuote);
      (QLatin1Char "'", QLatin1Char "'");
      (QLatin1Char "(", QLatin1Char ")");
      (QLatin1Char "[", QLatin1Char "]");
      (QLatin1Char "{", QLatin1Char "}");
      (QLatin1Char "*", QLatin1Char "*");
      (QLatin1Char "_", QLatin1Char "_");
      (QLatin1Char "`", QLatin1Char "`");
      (QLatin1Char "<", QLatin1Char ">") ] [].

Definition constructedAutoMatchFilter : QHash bool :=
  fold_left (fun h k => hash_insert h k true)
    [ DoubleQuote; QLatin1Char "'"; QLatin1Char "("; QLatin1Char "[";
      QLatin1Char "{"; QLatin1Char "*"; QLatin1Char "_"; QLatin1Char "`";
      QLatin1Char "<" ] [].

(** [MarkdownEditor::MarkdownEditor]: the editor on a document, with the
    settings of the constructor and the cursor at the start. *)
Definition MarkdownEditor_new (d : QTextDocument) : MarkdownEditor :=
  mkEditor d (mkCursor 0 0) false true true false 4
           constructedMarkupPairs constructedAutoMatchFilter.

(** *** Editing through a cursor

    The functions below take the cursor they edit through, a copy of the
    widget's cursor in most callers, and return it as it is afterwards. The
    widget's own cursor is moved by the document as the text changes. *)

(** [QTextCursor::selectedText()], block separators included. *)
Definition selectedText (d : QTextDocument) (c : QTextCursor) : QString :=
  map (characterAt d)
      (seq (Z.to_nat (selectionStart c))
           (Z.to_nat (selectionEnd c - selectionStart c))).

(** [QTextCursor::removeSelectedText()] *)
Definition removeSelectedText (ed : MarkdownEditor) (c : QTextCursor)
  : MarkdownEditor * QTextCursor :=
  let p := selectionStart c in
  let n := selectionEnd c - p in
  (withText ed (removeChars (document ed) (Z.to_nat p) (Z.to_nat n))
            (adjustCursor (adjustRemoved p n) (textCursor ed)),
   mkCursor p p).

(** [QTextCursor::insertText(s)]: the selection, if any, is removed first;
    the cursor ends after the inserted text. *)
Definition insertText (ed : MarkdownEditor) (c : QTextCursor) (s : QString)
  : MarkdownEditor * QTextCursor :=
  let (ed1, c1) := removeSelectedText ed c in
  let p := position c1 in
  (withText ed1 (insertChars (document ed1) (Z.to_nat p) s)
            (adjustCursor (adjustInserted p (size s)) (textCursor ed1)),
   mkCursor (p + size s) (p + size s)).

(** [QTextCursor::deleteChar()] *)
Definition deleteChar (ed : MarkdownEditor) (c : QTextCursor)
  : MarkdownEditor * QTextCursor :=
  if hasSelection c then removeSelectedText ed c
  else if position c <? Z.of_nat (characterCount (document ed)) - 1 then
    (withText ed (removeChars (document ed) (Z.to_nat (position c)) 1)
              (adjustCursor (adjustRemoved (position c) 1) (textCursor ed)), c)
  else (ed, c).

(** [QTextCursor::deletePreviousChar()] *)
Definition deletePreviousChar (ed : MarkdownEditor) (c : QTextCursor)
  : MarkdownEditor * QTextCursor :=
  if hasSelection c then removeSelectedText ed c
  else if 0 <? position c then
    removeSelectedText ed (mkCursor (position c - 1) (position c))
  else (ed, c).

(** The block of the widget's cursor, [textCursor().block()]. *)
Definition currentBlock (ed : MarkdownEditor) : QTextBlock :=
  cursorBlock (document ed) (textCursor ed).

(* ================================================================== *)
(** ** Pressing Enter: [handleCarriageReturn] *)

(** [MarkdownEditor::getPriorIndentation] *)
Definition getPriorIndentation (ed : MarkdownEditor) : QString :=
  takeWhile isSpace (text (currentBlock ed)).

(** [MarkdownEditor::getPriorMarkdownBlockItemStart]: when
    [itemRegex.indexIn(text, 0)] finds a match, the matched part of the text,
    and the empty string when it does not. *)
Definition getPriorMarkdownBlockItemStart (ed : MarkdownEditor) (itemRegex : QRegExp)
  : QString :=
  let t := text (currentBlock ed) in
  match itemRegex t with
  | Some m => QString_left t (matchedLength m)
  | None => []
  end.

Definition isEmpty (s : QString) : bool :=
  match s with [] => true | _ => false end.

(** The [switch] of [handleCarriageReturn], taken when the cursor is at the
    end of its line: the text to insert after the new line ([autoInsertText])
    and whether the list ends here ([endList]). *)
Definition carriageReturnSwitch (ed : MarkdownEditor) : QString * bool :=
  let blockText := text (currentBlock ed) in
  match userState (currentBlock ed) with
  | MarkdownStateNumberedList =>
      let autoInsertText := getPriorMarkdownBlockItemStart ed numberedListRegex in
      let capture := capturedTexts numberedListRegex blockText in
      if negb (isEmpty autoInsertText) && (length capture =? 2)%nat then
        if size blockText =? size autoInsertText then (autoInsertText, true)
        else
          let number := wrap_int (QString_toInt (nth 1 capture []) + 1) in
          (QString_replace_number autoInsertText (QString_number number), false)
      else (getPriorIndentation ed, false)
  | MarkdownStateBulletPointList =>
      let autoInsertText := getPriorMarkdownBlockItemStart ed taskListRegex in
      if isEmpty autoInsertText then
        let autoInsertText := getPriorMarkdownBlockItemStart ed bulletListRegex in
        if isEmpty autoInsertText then (getPriorIndentation ed, false)
        else if size blockText =? size autoInsertText then (autoInsertText, true)
        else (autoInsertText, false)
      else
        if size blockText =? size autoInsertText then (autoInsertText, true)
        else (QString_replace autoInsertText (QLatin1Char "x") (QLatin1Char " "),
              false)
  | MarkdownStateBlockquote =>
      (getPriorMarkdownBlockItemStart ed blockquoteRegex, false)
  | MarkdownStateOther => (getPriorIndentation ed, false)
  end.

(** [MarkdownEditor::handleCarriageReturn] *)
Definition handleCarriageReturn (ed : MarkdownEditor) : MarkdownEditor :=
  let cursor := textCursor ed in
  let d := document ed in
  let '(autoInsertText, endList) :=
    if positionInBlock d cursor <? Z.of_nat (blockLength (cursorBlock d cursor)) - 1
    then
      let indentation := getPriorIndentation ed in
      (if positionInBlock d cursor <? size indentation
       then QString_truncate indentation (positionInBlock d cursor)
       else indentation, false)
    else carriageReturnSwitch ed in
  let '(ed1, cursor1, autoInsertText1) :=
    if endList then
      let indentation := getPriorIndentation ed in
      let c1 := movePosition d cursor StartOfBlock MoveAnchor 1 in
      let c2 := movePosition d c1 EndOfBlock KeepAnchor 1 in
      let (ed', c3) := insertText ed c2 indentation in
      (ed', c3, [])
    else (ed, cursor, autoInsertText) in
  fst (insertText ed1 cursor1 (LineFeed :: autoInsertText1)).

(* ================================================================== *)
(** ** Pressing Backspace: [handleBackspaceKey] *)

(** The value of [backtrackIndex] after the [switch] of [handleBackspaceKey],
    in the three arms that set it. *)
Definition backtrackIndex (blk : QTextBlock) : Z :=
  match userState blk with
  | MarkdownStateNumberedList =>
      if exactMatch numberedListRegex (text blk)
      then indexOfClass isDigit (text blk) else -1
  | MarkdownStateBulletPointList =>
      if exactMatch bulletListRegex (text blk)
         || exactMatch taskListRegex (text blk)
      then indexOfClass isBulletChar (text blk) else -1
  | MarkdownStateBlockquote =>
      if exactMatch blockquoteRegex (text blk)
      then QString_lastIndexOf (text blk) (QLatin1Char ">") else -1
  | MarkdownStateOther => -1
  end.

(** The list items for which the [switch] of [handleBackspaceKey] sets
    [backtrackIndex]: the state of the block is a list state and one of the
    list patterns matches the whole of its text, so the item is empty. *)
Definition emptyListItem (blk : QTextBlock) : bool :=
  match userState blk with
  | MarkdownStateNumberedList => exactMatch numberedListRegex (text blk)
  | MarkdownStateBulletPointList =>
      exactMatch bulletListRegex (text blk) || exactMatch taskListRegex (text blk)
  | _ => false
  end.

(** The end of [handleBackspaceKey]: with a [backtrackIndex] the text from
    that column to the end of the block is removed. *)
Definition removeFromBacktrackIndex (ed : MarkdownEditor) (cursor : QTextCursor)
           (index : Z) : bool * MarkdownEditor :=
  if 0 <=? index then
    let d := document ed in
    let c1 := movePosition d cursor StartOfBlock MoveAnchor 1 in
    let c2 := movePosition d c1 Right MoveAnchor (Z.to_nat index) in
    let c3 := movePosition d c2 EndOfBlock KeepAnchor 1 in
    (true, fst (removeSelectedText ed c3))
  else (false, ed).

(** [MarkdownEditor::handleBackspaceKey]: whether the key was handled, and
    the editor afterwards. *)
Definition handleBackspaceKey (ed : MarkdownEditor) : bool * MarkdownEditor :=
  let cursor := textCursor ed in
  let d := document ed in
  if hasSelection cursor then (false, ed)
  else
    match userState (cursorBlock d cursor) with
    | MarkdownStateOther =>
        if autoMatchEnabled ed && (0 <? positionInBlock d cursor) then
          let blockText := text (cursorBlock d cursor) in
          let currentChar := QCharRef_read blockText (positionInBlock d cursor) in
          let previousChar :=
            QCharRef_read blockText (positionInBlock d cursor - 1) in
          (* [markupPairs[previousChar]], the non-const operator *)
          let (closing, pairs) :=
            hash_index QChar_null (markupPairs ed) previousChar in
          let ed1 := withMarkupPairs ed pairs in
          if closing =? currentChar then
            let c1 := movePosition d cursor Left MoveAnchor 1 in
            let c2 := movePosition d c1 Right KeepAnchor 2 in
            (true, fst (removeSelectedText ed1 c2))
          else removeFromBacktrackIndex ed1 cursor (-1)
        else removeFromBacktrackIndex ed cursor (-1)
    | _ => removeFromBacktrackIndex ed cursor (backtrackIndex (cursorBlock d cursor))
    end.

(* ================================================================== *)
(** ** Tab and Shift+Tab: [indentText] and [unindentText] *)

Definition blanks (n : Z) : QString := repeat (QLatin1Char " ") (Z.to_nat n).

(** The indentation one Tab inserts before a list item and before the lines of a
    selection. *)
Definition indentationUnit (ed : MarkdownEditor) : QString :=
  if insertSpacesForTabs ed then blanks (tabWidth ed) else [Tab].

(** The [count] blocks from block [i] on, each given one indentation at its
    start: the loop of [indentText] over a selection. *)
Fixpoint indentBlocks (ed : MarkdownEditor) (cursor : QTextCursor) (i count : nat)
  : MarkdownEditor * QTextCursor :=
  match count with
  | O => (ed, cursor)
  | S k =>
      let c1 := setPosition cursor (Z.of_nat (blockPosition (document ed) i))
                            MoveAnchor in
      let (ed1, c2) :=
        insertText ed c1
          (if insertSpacesForTabs ed then blanks (tabWidth ed) else [Tab]) in
      indentBlocks ed1 c2 (S i) k
  end.

(** The cursor selecting the whole text of its block. *)
Definition selectBlock (d : QTextDocument) (cursor : QTextCursor) : QTextCursor :=
  movePosition d (movePosition d cursor StartOfBlock MoveAnchor 1)
               EndOfBlock KeepAnchor 1.

(** The next marker of a bullet point when it is indented ... *)
Definition nextBulletPoint (oldBulletPoint : QChar) : QChar :=
  if oldBulletPoint =? QLatin1Char "*" then QLatin1Char "-"
  else if oldBulletPoint =? QLatin1Char "-" then QLatin1Char "+"
  else QLatin1Char "*".

(** ... and when it is unindented. *)
Definition previousBulletPoint (oldBulletPoint : QChar) : QChar :=
  if oldBulletPoint =? QLatin1Char "*" then QLatin1Char "+"
  else if oldBulletPoint =? QLatin1Char "-" then QLatin1Char "*"
  else QLatin1Char "-".

(** The [switch] of [indentText] without a selection: the editor and the
    cursor after it, and the width [indent] of the indentation. *)
Definition indentSwitch (ed : MarkdownEditor) (cursor : QTextCursor)
  : MarkdownEditor * QTextCursor * Z :=
  let d := document ed in
  let blockText := text (cursorBlock d cursor) in
  match userState (cursorBlock d cursor) with
  | MarkdownStateNumberedList =>
      if exactMatch numberedListRegex blockText
         && (length (capturedTexts numberedListRegex blockText) =? 2)%nat
      then
        let c2 := selectBlock d cursor in
        let replacementText :=
          QString_replace_number (selectedText d c2) (QLatin1String "1") in
        let (ed1, c3) := insertText ed c2 replacementText in
        (ed1, movePosition (document ed1) c3 StartOfBlock MoveAnchor 1, tabWidth ed)
      else (ed, cursor, tabWidth ed)
  | MarkdownStateBulletPointList =>
      if exactMatch bulletListRegex blockText then
        let (ed1, c1) :=
          if bulletPointCyclingEnabled ed then
            let oldBulletPoint := QString_at (QString_trimmed blockText) 0 in
            let newBulletPoint := nextBulletPoint oldBulletPoint in
            let c2 := selectBlock d cursor in
            let replacementText :=
              QString_replace (selectedText d c2) oldBulletPoint newBulletPoint in
            insertText ed c2 replacementText
          else (ed, cursor) in
        (ed1, movePosition (document ed1) c1 StartOfBlock MoveAnchor 1, tabWidth ed)
      else if exactMatch taskListRegex blockText then
        (ed, movePosition d cursor StartOfBlock MoveAnchor 1, tabWidth ed)
      else (ed, cursor, tabWidth ed)
  | _ =>
      (ed, cursor, tabWidth ed - Z.rem (positionInBlock d cursor) (tabWidth ed))
  end.

(** [MarkdownEditor::indentText] *)
Definition indentText (ed : MarkdownEditor) : MarkdownEditor :=
  let cursor := textCursor ed in
  let d := document ed in
  if hasSelection cursor then
    let block := findBlock d (Z.to_nat (selectionStart cursor)) in
    let last := findBlock d (Z.to_nat (selectionEnd cursor)) in
    fst (indentBlocks ed cursor block (S (last - block)))
  else
    let '(ed1, c1, indent) := indentSwitch ed cursor in
    fst (insertText ed1 c1
           (if insertSpacesForTabs ed then blanks indent else [Tab])).

(** The inner loop of [unindentText]: blanks at the cursor are deleted while
    [pos < tabWidth]; [fuel] is what is left of [tabWidth]. *)
Fixpoint deleteBlanks (fuel : nat) (ed : MarkdownEditor) (cursor : QTextCursor)
  : MarkdownEditor * QTextCursor :=
  match fuel with
  | O => (ed, cursor)
  | S k =>
      if characterAt (document ed) (Z.to_nat (position cursor)) =? QLatin1Char " "
      then let (ed1, c1) := deleteChar ed cursor in deleteBlanks k ed1 c1
      else (ed, cursor)
  end.

(** The loop of [unindentText] over the [count] blocks from block [i] on. *)
Fixpoint unindentBlocks (ed : MarkdownEditor) (cursor : QTextCursor) (i count : nat)
  : MarkdownEditor * QTextCursor :=
  match count with
  | O => (ed, cursor)
  | S k =>
      let c1 := setPosition cursor (Z.of_nat (blockPosition (document ed) i))
                            MoveAnchor in
      let (ed1, c2) :=
        if characterAt (document ed) (Z.to_nat (position c1)) =? Tab
        then deleteChar ed c1
        else deleteBlanks (Z.to_nat (tabWidth ed)) ed c1 in
      unindentBlocks ed1 c2 (S i) k
  end.

(** [MarkdownEditor::unindentText] *)
Definition unindentText (ed : MarkdownEditor) : MarkdownEditor :=
  let cursor := textCursor ed in
  let d := document ed in
  let block :=
    if hasSelection cursor then findBlock d (Z.to_nat (selectionStart cursor))
    else cursorBlockNumber d cursor in
  let last :=
    if hasSelection cursor then findBlock d (Z.to_nat (selectionEnd cursor))
    else cursorBlockNumber d cursor in
  let (ed1, c1) := unindentBlocks ed cursor block (S (last - block)) in
  let d1 := document ed1 in
  let blockText := text (cursorBlock d1 c1) in
  match userState (cursorBlock d1 c1) with
  | MarkdownStateBulletPointList =>
      if exactMatch bulletListRegex blockText && bulletPointCyclingEnabled ed1 then
        let oldBulletPoint := QString_at (QString_trimmed blockText) 0 in
        let newBulletPoint := previousBulletPoint oldBulletPoint in
        let c2 := selectBlock d1 c1 in
        let replacementText :=
          QString_replace (selectedText d1 c2) oldBulletPoint newBulletPoint in
        fst (insertText ed1 c2 replacementText)
      else ed1
  | _ => ed1
  end.

(* ================================================================== *)
(** ** Paired characters *)

(** [MarkdownEditor::insertPairedCharacters] *)
Definition insertPairedCharacters (ed : MarkdownEditor) (firstChar : QChar)
  : bool * MarkdownEditor :=
  if hash_contains (markupPairs ed) firstChar then
    let lastChar := hash_value QChar_null (markupPairs ed) firstChar in
    let cursor := textCursor ed in
    let d := document ed in
    if hasSelection cursor then
      let block := findBlock d (Z.to_nat (selectionStart cursor)) in
      let last := findBlock d (Z.to_nat (selectionEnd cursor)) in
      if (block =? last)%nat then
        let c1 := setPosition cursor (selectionStart cursor) MoveAnchor in
        let (ed1, c2) := insertText ed c1 [firstChar] in
        let c3 := setPosition c2 (selectionEnd (textCursor ed1)) MoveAnchor in
        let (ed2, c4) := insertText ed1 c3 [lastChar] in
        let c5 := textCursor ed2 in
        let c6 := setPosition c5 (selectionStart c5) MoveAnchor in
        let c7 := setPosition c6 (selectionEnd (textCursor ed2) - 1) KeepAnchor in
        (true, setTextCursor ed2 c7)
      else (false, ed)
    else if autoMatchEnabled ed && hash_value false (autoMatchFilter ed) firstChar
    then
      let (ed1, c1) := insertText ed cursor [firstChar] in
      let (ed2, c2) := insertText ed1 c1 [lastChar] in
      let c3 := movePosition (document ed2) c2 PreviousCharacter MoveAnchor 1 in
      (true, setTextCursor ed2 c3)
    else (false, ed)
  else (false, ed).

(** [MarkdownEditor::handleEndPairCharacterTyped] *)
Definition handleEndPairCharacterTyped (ed : MarkdownEditor) (ch : QChar)
  : bool * MarkdownEditor :=
  let cursor := textCursor ed in
  let d := document ed in
  let lookAhead :=
    if autoMatchEnabled ed && negb (hasSelection cursor) then
      if QList_contains (hash_values (markupPairs ed)) ch then
        let key := hash_key Z.eqb (markupPairs ed) ch in
        hash_value false (autoMatchFilter ed) key
      else false
    else false in
  if lookAhead then
    let blockText := text (cursorBlock d cursor) in
    let pos := positionInBlock d cursor in
    if (pos <? size blockText) && (QCharRef_read blockText pos =? ch) then
      (true, setTextCursor ed (movePosition d cursor NextCharacter MoveAnchor 1))
    else (false, ed)
  else (false, ed).

(* ================================================================== *)
(** ** [keyPressEvent] *)

Inductive Key :=
| Key_Return | Key_Delete | Key_Backspace | Key_Tab | Key_Backtab | Key_Other.

Record QKeyEvent := mkKeyEvent {
  key : Key;                  (* [QKeyEvent::key()] *)
  shiftModifier : bool;       (* [modifiers() & Qt::ShiftModifier] *)
  controlModifier : bool;     (* [modifiers() & Qt::ControlModifier] *)
  eventText : QString         (* [QKeyEvent::text()] *)
}.

(** [QPlainTextEdit::keyPressEvent], the handling of the base class: the keys
    edit the text through the widget's own cursor. *)
Definition QPlainTextEdit_keyPressEvent (ed : MarkdownEditor) (e : QKeyEvent)
  : MarkdownEditor :=
  let edit (r : MarkdownEditor * QTextCursor) := setTextCursor (fst r) (snd r) in
  match key e with
  | Key_Return => edit (insertText ed (textCursor ed) [LineFeed])
  | Key_Delete => edit (deleteChar ed (textCursor ed))
  | Key_Backspace => edit (deletePreviousChar ed (textCursor ed))
  | Key_Tab => edit (insertText ed (textCursor ed) [Tab])
  | Key_Backtab => ed
  | Key_Other =>
      if isEmpty (eventText e) then ed
      else edit (insertText ed (textCursor ed) (eventText e))
  end.

(** [MarkdownEditor::keyPressEvent] *)
Definition keyPressEvent (ed : MarkdownEditor) (e : QKeyEvent) : MarkdownEditor :=
  let cursor := textCursor ed in
  match key e with
  | Key_Return =>
      if negb (hasSelection cursor) then
        let ed1 :=
          if shiftModifier e
          then fst (insertText ed cursor (QLatin1String "  ")) else ed in
        if controlModifier e then
          (* [cursor] is after the two blanks when they were inserted *)
          let cursor1 :=
            if shiftModifier e
            then snd (insertText ed cursor (QLatin1String "  ")) else cursor in
          fst (insertText ed1 cursor1 [LineFeed])
        else handleCarriageReturn ed1
      else QPlainTextEdit_keyPressEvent ed e
  | Key_Delete =>
      if negb (hemingwayModeEnabled ed) then QPlainTextEdit_keyPressEvent ed e
      else ed
  | Key_Backspace =>
      if negb (hemingwayModeEnabled ed) then
        let (handled, ed1) := handleBackspaceKey ed in
        if negb handled then QPlainTextEdit_keyPressEvent ed1 e else ed1
      else ed
  | Key_Tab => indentText ed
  | Key_Backtab => unindentText ed
  | Key_Other =>
      match eventText e with
      | [ch] =>
          let (skipped, ed1) := handleEndPairCharacterTyped ed ch in
          if skipped then ed1
          else
            let (paired, ed2) := insertPairedCharacters ed1 ch in
            if paired then ed2 else QPlainTextEdit_keyPressEvent ed2 e
      | _ => QPlainTextEdit_keyPressEvent ed e
      end
  end.

(* ================================================================== *)
(** ** The actions of the menus

    The functions below are the slots behind the menus: they edit the text
    through a copy of the widget's cursor, as the key handling does. *)

(** [MarkdownEditor::insertFormattingMarkup]. With a selection the two
    insertions go through the copy [c] of [cursor]; [cursor], itself a copy
    of the widget's cursor, follows them as the widget's cursor does, and is
    then moved back over the closing markup. *)
Definition insertFormattingMarkup (ed : MarkdownEditor) (markup : QString)
  : MarkdownEditor :=
  let cursor := textCursor ed in
  if hasSelection cursor then
    let start := selectionStart cursor in
    let end' := selectionEnd cursor + size markup in
    let c1 := setPosition cursor start MoveAnchor in
    let (ed1, c2) := insertText ed c1 markup in
    let c3 := setPosition c2 end' MoveAnchor in
    let (ed2, c4) := insertText ed1 c3 markup in
    let cursor1 :=
      movePosition (document ed2) (textCursor ed2)
                   PreviousCharacter KeepAnchor (length markup) in
    setTextCursor ed2 cursor1
  else
    let (ed1, c1) := insertText ed cursor markup in
    let (ed2, c2) := insertText ed1 c1 markup in
    let c3 :=
      movePosition (document ed2) c2 PreviousCharacter MoveAnchor
                   (length markup) in
    setTextCursor ed2 c3.

(** [MarkdownEditor::bold], [italic] and [strikethrough] *)
Definition bold (ed : MarkdownEditor) : MarkdownEditor :=
  insertFormattingMarkup ed (QLatin1String "**").

Definition italic (ed : MarkdownEditor) : MarkdownEditor :=
  insertFormattingMarkup ed (QLatin1String "*").

Definition strikethrough (ed : MarkdownEditor) : MarkdownEditor :=
  insertFormattingMarkup ed (QLatin1String "~~").

(** [MarkdownEditor::insertComment]. With a selection the widget's cursor is
    not set: it is where the document moved it. *)
Definition insertComment (ed : MarkdownEditor) : MarkdownEditor :=
  let cursor := textCursor ed in
  if hasSelection cursor then
    let text := selectedText (document ed) cursor in
    let text := QLatin1String "<!-- " ++ text ++ QLatin1String " -->" in
    fst (insertText ed cursor text)
  else
    let (ed1, c1) := insertText ed cursor (QLatin1String "<!--  -->") in
    let c2 := movePosition (document ed1) c1 PreviousCharacter MoveAnchor 4 in
    setTextCursor ed1 c2.

(** The blocks a slot works on, from [block] to the one before [end]: the
    blocks of the selection, or the block of the cursor. The number of the
    first one, and of the last one. *)
Definition firstBlock (ed : MarkdownEditor) : nat :=
  let cursor := textCursor ed in
  if hasSelection cursor
  then findBlock (document ed) (Z.to_nat (selectionStart cursor))
  else cursorBlockNumber (document ed) cursor.

Definition lastBlock (ed : MarkdownEditor) : nat :=
  let cursor := textCursor ed in
  if hasSelection cursor
  then findBlock (document ed) (Z.to_nat (selectionEnd cursor))
  else cursorBlockNumber (document ed) cursor.

(** The loop of [insertPrefixForBlocks] over the [count] blocks from block
    [i] on. *)
Fixpoint prefixBlocks (ed : MarkdownEditor) (cursor : QTextCursor)
         (prefix : QString) (i count : nat) : MarkdownEditor * QTextCursor :=
  match count with
  | O => (ed, cursor)
  | S k =>
      let c1 := setPosition cursor (Z.of_nat (blockPosition (document ed) i))
                            MoveAnchor in
      let (ed1, c2) := insertText ed c1 prefix in
      prefixBlocks ed1 c2 prefix (S i) k
  end.

(** [MarkdownEditor::insertPrefixForBlocks], for a prefix without block
    separator, as its callers pass it. *)
Definition insertPrefixForBlocks (ed : MarkdownEditor) (prefix : QString)
  : MarkdownEditor :=
  let block := firstBlock ed in
  let last := lastBlock ed in
  fst (prefixBlocks ed (textCursor ed) prefix block (S (last - block))).

(** The slots that start a list or a blockquote. *)
Definition createBulletListWithAsteriskMarker (ed : MarkdownEditor) : MarkdownEditor :=
  insertPrefixForBlocks ed (QLatin1String "* ").

Definition createBulletListWithMinusMarker (ed : MarkdownEditor) : MarkdownEditor :=
  insertPrefixForBlocks ed (QLatin1String "- ").

Definition createBulletListWithPlusMarker (ed : MarkdownEditor) : MarkdownEditor :=
  insertPrefixForBlocks ed (QLatin1String "+ ").

Definition createTaskList (ed : MarkdownEditor) : MarkdownEditor :=
  insertPrefixForBlocks ed (QLatin1String "- [ ] ").

Definition createBlockquote (ed : MarkdownEditor) : MarkdownEditor :=
  insertPrefixForBlocks ed (QLatin1String "> ").

(** The loop of [createNumberedList]: [number] is the number of block [i]. *)
Fixpoint numberBlocks (ed : MarkdownEditor) (cursor : QTextCursor)
         (marker : QChar) (number : Z) (i count : nat)
  : MarkdownEditor * QTextCursor :=
  match count with
  | O => (ed, cursor)
  | S k =>
      let c1 := setPosition cursor (Z.of_nat (blockPosition (document ed) i))
                            MoveAnchor in
      let (ed1, c2) :=
        insertText ed c1
          (QString_number number ++ marker :: QLatin1String " ") in
      numberBlocks ed1 c2 marker (wrap_int (number + 1)) (S i) k
  end.

(** [MarkdownEditor::createNumberedList] *)
Definition createNumberedList (ed : MarkdownEditor) (marker : QChar)
  : MarkdownEditor :=
  let block := firstBlock ed in
  let last := lastBlock ed in
  fst (numberBlocks ed (textCursor ed) marker 1 block (S (last - block))).

Definition createNumberedListWithPeriodMarker (ed : MarkdownEditor) : MarkdownEditor :=
  createNumberedList ed (QLatin1Char ".").

Definition createNumberedListWithParenthesisMarker (ed : MarkdownEditor)
  : MarkdownEditor :=
  createNumberedList ed (QLatin1Char ")").

(** The inner loop of [removeBlockquote]: blanks at the cursor are deleted as
    long as there is one. The loop has no bound of its own; every turn
    removes a character of the block, so [fuel], the number of characters of
    the document, is not used up. *)
Fixpoint deleteSpaces (fuel : nat) (ed : MarkdownEditor) (cursor : QTextCursor)
  : MarkdownEditor * QTextCursor :=
  match fuel with
  | O => (ed, cursor)
  | S k =>
      if characterAt (document ed) (Z.to_nat (position cursor)) =? QLatin1Char " "
      then let (ed1, c1) := deleteChar ed cursor in deleteSpaces k ed1 c1
      else (ed, cursor)
  end.

(** The loop of [removeBlockquote] over the [count] blocks from block [i]
    on. *)
Fixpoint unquoteBlocks (ed : MarkdownEditor) (cursor : QTextCursor) (i count : nat)
  : MarkdownEditor * QTextCursor :=
  match count with
  | O => (ed, cursor)
  | S k =>
      let c1 := setPosition cursor (Z.of_nat (blockPosition (document ed) i))
                            MoveAnchor in
      let (ed1, c2) :=
        if characterAt (document ed) (Z.to_nat (position c1)) =? QLatin1Char ">"
        then
          let (ed', c') := deleteChar ed c1 in
          deleteSpaces (characterCount (document ed')) ed' c'
        else (ed, c1) in
      unquoteBlocks ed1 c2 (S i) k
  end.

(** [MarkdownEditor::removeBlockquote] *)
Definition removeBlockquote (ed : MarkdownEditor) : MarkdownEditor :=
  let block := firstBlock ed in
  let last := lastBlock ed in
  fst (unquoteBlocks ed (textCursor ed) block (S (last - block))).

(** [QString::startsWith] and [QString::indexOf(const QString &)]: the index
    of the first occurrence, [-1] when there is none. *)
Fixpoint QString_startsWith (s needle : QString) {struct needle} : bool :=
  match needle, s with
  | [], _ => true
  | x :: needle', c :: r => (c =? x) && QString_startsWith r needle'
  | _ :: _, [] => false
  end.

Fixpoint QString_indexOf (s needle : QString) : Z :=
  if QString_startsWith s needle then 0
  else
    match s with
    | [] => -1
    | _ :: r =>
        let i := QString_indexOf r needle in if i <? 0 then -1 else i + 1
    end.

(** The loop of [toggleTaskComplete] over the [count] blocks from block [i]
    on. The pattern of a task starts with [^], so
    [block.text().indexOf(taskListRegex)] is [0] when it matches and [-1]
    when it does not. *)
Fixpoint toggleBlocks (ed : MarkdownEditor) (cursor : QTextCursor) (i count : nat)
  : MarkdownEditor * QTextCursor :=
  match count with
  | O => (ed, cursor)
  | S k =>
      let d := document ed in
      let block := blockAt d i in
      let (ed1, c1) :=
        match userState block, taskListRegex (text block) with
        | MarkdownStateBulletPointList, Some _ =>
            let capture := capturedTexts taskListRegex (text block) in
            if (length capture =? 2)%nat then
              let value := QString_at (nth 1 capture []) 0 in
              let index := QString_indexOf (text block) (QLatin1String "- [") in
              let index := if 0 <=? index then index + 3 else index in
              let replacement :=
                if value =? QLatin1Char "x" then QLatin1Char " "
                else QLatin1Char "x" in
              let c1 := setPosition cursor (Z.of_nat (blockPosition d i))
                                    MoveAnchor in
              let c2 := movePosition d c1 StartOfBlock MoveAnchor 1 in
              let c3 := movePosition d c2 Right MoveAnchor (Z.to_nat index) in
              let (ed1, c4) := deleteChar ed c3 in
              insertText ed1 c4 [replacement]
            else (ed, cursor)
        | _, _ => (ed, cursor)
        end in
      toggleBlocks ed1 c1 (S i) k
  end.

(** [MarkdownEditor::toggleTaskComplete]: the value it returns, and the
    editor afterwards. *)
Definition toggleTaskComplete (ed : MarkdownEditor) : bool * MarkdownEditor :=
  let block := firstBlock ed in
  let last := lastBlock ed in
  (true, fst (toggleBlocks ed (textCursor ed) block (S (last - block)))).

(* ================================================================== *)
(** ** Editors and keys of the examples *)

(** A key pressed without modifier, and a character typed. *)
Definition pressed (k : Key) : QKeyEvent := mkKeyEvent k false false [].
Definition typed (ch : QChar) : QKeyEvent := mkKeyEvent Key_Other false false [ch].

Definition line (s : string) (st : MarkdownState) : QTextBlock :=
  mkBlock (QLatin1String s) st.

(** A new editor on the document [d], with the cursor moved. *)
Definition editing (d : QTextDocument) (anchor position : Z) : MarkdownEditor :=
  setTextCursor (MarkdownEditor_new d) (mkCursor anchor position).

(* ================================================================== *)
(** * Properties *)

(** A comparison of integers decided by linear arithmetic. *)
Ltac zcompare_step :=
  first [ apply Z.ltb_lt | apply Z.ltb_ge | apply Z.leb_le | apply Z.leb_gt
        | apply Z.eqb_eq | apply Z.eqb_neq ].

Ltac zcompare := first [ zcompare_step | symmetry; zcompare_step ]; lia.

(** ** Characters *)

Lemma isSpace_cases (c : QChar) :
  isSpace c = true ->
  c = 0x20 \/ (0x09 <= c <= 0x0D) \/ c = 0x85 \/ c = 0xA0
  \/ (127 < c /\ isSeparator (category c) = true).
Proof.
  unfold isSpace. intros H.
  repeat (apply orb_prop in H; destruct H as [H | H]);
    try (apply andb_prop in H; destruct H as [H H']);
    repeat (apply orb_prop in H'; destruct H' as [H' | H']);
    try lia.
  right; right; right; right. split; [lia | assumption].
Qed.

(** A white-space character is no decimal digit. *)
Lemma isSpace_not_isDigit (c : QChar) : isSpace c = true -> isDigit c = false.
Proof.
  intros H. apply isSpace_cases in H.
  destruct H as [-> | [H | [-> | [-> | [_ H]]]]]; try reflexivity.
  - unfold isDigit, category.
    replace (c <=? 31) with true by lia. reflexivity.
  - unfold isDigit. destruct (category c); simpl in *; congruence.
Qed.

Lemma isAsciiDigit_isDigit (c : QChar) : isAsciiDigit c = true -> isDigit c = true.
Proof.
  unfold isAsciiDigit. intros H.
  assert (E : c = 48 \/ c = 49 \/ c = 50 \/ c = 51 \/ c = 52 \/ c = 53
              \/ c = 54 \/ c = 55 \/ c = 56 \/ c = 57) by lia.
  repeat (destruct E as [-> | E]; [reflexivity |]). subst. reflexivity.
Qed.

Lemma isAsciiDigit_not_isSpace (c : QChar) :
  isAsciiDigit c = true -> isSpace c = false.
Proof.
  intros H. destruct (isSpace c) eqn:E; [| reflexivity].
  apply isSpace_not_isDigit in E. apply isAsciiDigit_isDigit in H. congruence.
Qed.

Lemma isSpace_not_isBulletChar (c : QChar) :
  isSpace c = true -> isBulletChar c = false.
Proof.
  intros H. apply isSpace_cases in H. unfold isBulletChar.
  change (QLatin1Char "+") with 43. change (QLatin1Char "*") with 42.
  change (QLatin1Char "-") with 45.
  destruct H as [-> | [H | [-> | [-> | [H _]]]]]; try reflexivity; lia.
Qed.

Lemma isBulletChar_not_isSpace (c : QChar) :
  isBulletChar c = true -> isSpace c = false.
Proof.
  intros H. destruct (isSpace c) eqn:E; [| reflexivity].
  apply isSpace_not_isBulletChar in E. congruence.
Qed.

(** ** Strings *)

Lemma size_nonneg (s : QString) : 0 <= size s.
Proof. unfold size. lia. Qed.

Lemma takeWhile_dropWhile (p : QChar -> bool) (s : QString) :
  takeWhile p s ++ dropWhile p s = s.
Proof.
  induction s as [| c r IH]; simpl; [reflexivity |].
  destruct (p c); simpl; [now rewrite IH | reflexivity].
Qed.

Lemma takeWhile_forallb (p : QChar -> bool) (s : QString) :
  forallb p (takeWhile p s) = true.
Proof.
  induction s as [| c r IH]; simpl; [reflexivity |].
  destruct (p c) eqn:E; simpl; [now rewrite E | reflexivity].
Qed.

Lemma takeWhile_app (p : QChar -> bool) (ws r : QString) :
  forallb p ws = true ->
  takeWhile p (ws ++ r) = ws ++ takeWhile p r.
Proof.
  induction ws as [| c ws IH]; simpl; [reflexivity |].
  intros H. apply andb_prop in H. destruct H as [Hc Hws].
  rewrite Hc. now rewrite IH.
Qed.

Lemma dropWhile_app (p : QChar -> bool) (ws r : QString) :
  forallb p ws = true ->
  dropWhile p (ws ++ r) = dropWhile p r.
Proof.
  induction ws as [| c ws IH]; simpl; [reflexivity |].
  intros H. apply andb_prop in H. destruct H as [Hc Hws].
  rewrite Hc. now apply IH.
Qed.

Lemma takeWhile_all (p : QChar -> bool) (ws : QString) :
  forallb p ws = true -> takeWhile p ws = ws.
Proof.
  intros H. rewrite <- (app_nil_r ws) at 1.
  rewrite takeWhile_app by assumption. simpl. apply app_nil_r.
Qed.

(** The first character of a class [p], after a prefix outside the class. *)
Lemma indexOfClass_app (p : QChar -> bool) (ws : QString) (c : QChar) (r : QString) :
  forallb (fun x => negb (p x)) ws = true -> p c = true ->
  indexOfClass p (ws ++ c :: r) = size ws.
Proof.
  intros Hws Hc. induction ws as [| x ws IH]; simpl.
  - now rewrite Hc.
  - simpl in Hws. apply andb_prop in Hws. destruct Hws as [Hx Hws].
    apply negb_true_iff in Hx. rewrite Hx. rewrite IH by assumption.
    pose proof (size_nonneg ws).
    replace (size ws <? 0) with false by lia.
    unfold size. simpl length. lia.
Qed.

Lemma forallb_impl (p q : QChar -> bool) (s : QString) :
  (forall c, p c = true -> q c = true) ->
  forallb p s = true -> forallb q s = true.
Proof.
  intros Hpq. induction s as [| c r IH]; simpl; [reflexivity |].
  intros H. apply andb_prop in H. destruct H as [Hc Hr].
  rewrite (Hpq c Hc). now apply IH.
Qed.

Lemma QString_replace_id (s : QString) (before after : QChar) :
  forallb (fun c => negb (c =? before)) s = true ->
  QString_replace s before after = s.
Proof.
  unfold QString_replace. induction s as [| c r IH]; simpl; [reflexivity |].
  intros H. apply andb_prop in H. destruct H as [Hc Hr].
  apply negb_true_iff in Hc. rewrite Hc. now rewrite IH.
Qed.

Lemma QString_replace_app (s1 s2 : QString) (before after : QChar) :
  QString_replace (s1 ++ s2) before after
  = QString_replace s1 before after ++ QString_replace s2 before after.
Proof. unfold QString_replace. apply map_app. Qed.

Lemma replaceDigitRuns_nondigits (after s : QString) (b : bool) :
  forallb (fun c => negb (isDigit c)) s = true ->
  replaceDigitRuns after b s = s.
Proof.
  revert b. induction s as [| c r IH]; simpl; [reflexivity |].
  intros b H. apply andb_prop in H. destruct H as [Hc Hr].
  apply negb_true_iff in Hc. rewrite Hc. now rewrite IH.
Qed.

Lemma replaceDigitRuns_app_nondigits (after ws r : QString) :
  forallb (fun c => negb (isDigit c)) ws = true ->
  replaceDigitRuns after false (ws ++ r) = ws ++ replaceDigitRuns after false r.
Proof.
  induction ws as [| c ws IH]; simpl; [reflexivity |].
  intros H. apply andb_prop in H. destruct H as [Hc Hr].
  apply negb_true_iff in Hc. rewrite Hc. now rewrite IH.
Qed.

(** A run of digits that a non-digit ends is replaced as a whole. *)
Lemma replaceDigitRuns_run (after ds : QString) (c : QChar) (r : QString) (b : bool) :
  forallb isDigit ds = true -> isDigit c = false ->
  replaceDigitRuns after b (ds ++ c :: r)
  = (if b then [] else match ds with [] => [] | _ => after end)
      ++ c :: replaceDigitRuns after false r.
Proof.
  revert b. induction ds as [| x ds IH]; simpl; intros b Hds Hc.
  - rewrite Hc. now destruct b.
  - apply andb_prop in Hds. destruct Hds as [Hx Hds].
    rewrite Hx. rewrite IH by assumption. simpl. now destruct b.
Qed.

(** ** The document around one block

    The lemmas of this part are about a document [before ++ blk :: after] and
    a position [characterCount before + c] in the block [blk], [c] characters
    after its start. *)

Lemma characterCount_app (a b : QTextDocument) :
  characterCount (a ++ b) = (characterCount a + characterCount b)%nat.
Proof. induction a as [| x a IH]; simpl; [reflexivity | rewrite IH; lia]. Qed.

(** One block further: the functions on positions step over a block. *)
Lemma findBlock_cons (b : QTextBlock) (bs : QTextDocument) (n : nat) :
  findBlock (b :: bs) (blockLength b + n) = S (findBlock bs n).
Proof.
  cbn [findBlock].
  replace (blockLength b + n <? blockLength b)%nat with false
    by (symmetry; apply Nat.ltb_ge; lia).
  now replace (blockLength b + n - blockLength b)%nat with n by lia.
Qed.

Lemma characterAt_cons (b : QTextBlock) (bs : QTextDocument) (n : nat) :
  characterAt (b :: bs) (blockLength b + n) = characterAt bs n.
Proof.
  cbn [characterAt].
  replace (blockLength b + n <? length (text b))%nat with false
    by (symmetry; apply Nat.ltb_ge; unfold blockLength; lia).
  replace (blockLength b + n =? length (text b))%nat with false
    by (symmetry; apply Nat.eqb_neq; unfold blockLength; lia).
  now replace (blockLength b + n - blockLength b)%nat with n by lia.
Qed.

Lemma insertChar_cons (b : QTextBlock) (bs : QTextDocument) (n : nat) (ch : QChar) :
  insertChar (b :: bs) (blockLength b + n) ch = b :: insertChar bs n ch.
Proof.
  cbn [insertChar].
  replace (blockLength b + n <? blockLength b)%nat with false
    by (symmetry; apply Nat.ltb_ge; lia).
  now replace (blockLength b + n - blockLength b)%nat with n by lia.
Qed.

Lemma removeChar_cons (b : QTextBlock) (bs : QTextDocument) (n : nat) :
  removeChar (b :: bs) (blockLength b + n) = b :: removeChar bs n.
Proof.
  cbn [removeChar].
  replace (blockLength b + n <? length (text b))%nat with false
    by (symmetry; apply Nat.ltb_ge; unfold blockLength; lia).
  replace (blockLength b + n =? length (text b))%nat with false
    by (symmetry; apply Nat.eqb_neq; unfold blockLength; lia).
  now replace (blockLength b + n - blockLength b)%nat with n by lia.
Qed.

Lemma characterCount_cons_add (b : QTextBlock) (bs : QTextDocument) (c : nat) :
  (characterCount (b :: bs) + c = blockLength b + (characterCount bs + c))%nat.
Proof. cbn [characterCount]. lia. Qed.

Section AroundBlock.
Variables (after : QTextDocument) (t : QString) (st : MarkdownState).

Lemma findBlock_here (before : QTextDocument) (c : nat) :
  (c <= length t)%nat ->
  findBlock (before ++ mkBlock t st :: after) (characterCount before + c)
  = length before.
Proof.
  intros Hc. induction before as [| b bs IH].
  - cbn [app characterCount findBlock Nat.add length].
    now replace (c <? blockLength (mkBlock t st))%nat with true
      by (symmetry; apply Nat.ltb_lt; unfold blockLength; cbn; lia).
  - rewrite characterCount_cons_add. cbn [app length].
    now rewrite findBlock_cons, IH.
Qed.

Lemma blockAt_here (before : QTextDocument) :
  blockAt (before ++ mkBlock t st :: after) (length before) = mkBlock t st.
Proof. unfold blockAt. apply nth_middle. Qed.

Lemma blockPosition_here (before : QTextDocument) :
  blockPosition (before ++ mkBlock t st :: after) (length before)
  = characterCount before.
Proof.
  unfold blockPosition.
  rewrite firstn_app, firstn_all, Nat.sub_diag. cbn [firstn].
  now rewrite List.app_nil_r.
Qed.

Lemma characterCount_here (before : QTextDocument) :
  characterCount (before ++ mkBlock t st :: after)
  = (characterCount before + S (length t) + characterCount after)%nat.
Proof.
  rewrite characterCount_app. cbn [characterCount]. unfold blockLength.
  cbn [text]. lia.
Qed.

Lemma characterAt_here (before : QTextDocument) (c : nat) :
  (c < length t)%nat ->
  characterAt (before ++ mkBlock t st :: after) (characterCount before + c)
  = nth c t QChar_null.
Proof.
  intros Hc. induction before as [| b bs IH].
  - cbn [app characterCount characterAt Nat.add text].
    now replace (c <? length t)%nat with true by (symmetry; apply Nat.ltb_lt; lia).
  - rewrite characterCount_cons_add. cbn [app].
    now rewrite characterAt_cons, IH.
Qed.

Lemma characterAt_end (before : QTextDocument) :
  characterAt (before ++ mkBlock t st :: after)
              (characterCount before + length t)
  = ParagraphSeparator.
Proof.
  induction before as [| b bs IH].
  - cbn [app characterCount characterAt Nat.add text].
    rewrite Nat.ltb_irrefl. now rewrite Nat.eqb_refl.
  - rewrite characterCount_cons_add. cbn [app].
    now rewrite characterAt_cons, IH.
Qed.

(** A character that is no separator goes into the text of the block. *)
Lemma insertChar_here (before : QTextDocument) (c : nat) (ch : QChar) :
  (c <= length t)%nat -> isBlockSeparator ch = false ->
  insertChar (before ++ mkBlock t st :: after) (characterCount before + c) ch
  = before ++ mkBlock (firstn c t ++ ch :: skipn c t) st :: after.
Proof.
  intros Hc Hch. induction before as [| b bs IH].
  - cbn [app characterCount insertChar Nat.add text userState].
    replace (c <? blockLength (mkBlock t st))%nat with true
      by (symmetry; apply Nat.ltb_lt; unfold blockLength; cbn; lia).
    now rewrite Hch.
  - rewrite characterCount_cons_add. cbn [app].
    now rewrite insertChar_cons, IH.
Qed.

(** A separator splits the block. *)
Lemma insertChar_separator_here (before : QTextDocument) (c : nat) (ch : QChar) :
  (c <= length t)%nat -> isBlockSeparator ch = true ->
  insertChar (before ++ mkBlock t st :: after) (characterCount before + c) ch
  = before ++ mkBlock (firstn c t) st
           :: mkBlock (skipn c t) MarkdownStateOther :: after.
Proof.
  intros Hc Hch. induction before as [| b bs IH].
  - cbn [app characterCount insertChar Nat.add text userState].
    replace (c <? blockLength (mkBlock t st))%nat with true
      by (symmetry; apply Nat.ltb_lt; unfold blockLength; cbn; lia).
    now rewrite Hch.
  - rewrite characterCount_cons_add. cbn [app].
    now rewrite insertChar_cons, IH.
Qed.

Lemma removeChar_here (before : QTextDocument) (c : nat) :
  (c < length t)%nat ->
  removeChar (before ++ mkBlock t st :: after) (characterCount before + c)
  = before ++ mkBlock (firstn c t ++ skipn (S c) t) st :: after.
Proof.
  intros Hc. induction before as [| b bs IH].
  - cbn [app characterCount removeChar Nat.add text userState].
    now replace (c <? length t)%nat with true by (symmetry; apply Nat.ltb_lt; lia).
  - rewrite characterCount_cons_add. cbn [app].
    now rewrite removeChar_cons, IH.
Qed.
End AroundBlock.

Lemma firstn_insert (c : nat) (t s : QString) (ch : QChar) :
  (c <= length t)%nat ->
  firstn (c + length s) (firstn c t ++ s ++ skipn c t) ++ ch
    :: skipn (c + length s) (firstn c t ++ s ++ skipn c t)
  = firstn c t ++ (s ++ [ch]) ++ skipn c t.
Proof.
  intros Hc.
  assert (L : length (firstn c t ++ s) = (c + length s)%nat)
    by (rewrite length_app, firstn_length_le by lia; reflexivity).
  rewrite List.app_assoc. rewrite <- L.
  rewrite firstn_app, firstn_all, Nat.sub_diag. simpl firstn.
  rewrite skipn_app, skipn_all, Nat.sub_diag. simpl skipn.
  rewrite List.app_nil_r. simpl.
  now rewrite <- !List.app_assoc.
Qed.

(** A text without separators goes into the text of the block. *)
Lemma insertChars_here (before after : QTextDocument) (st : MarkdownState)
      (s t : QString) (c : nat) :
  (c <= length t)%nat ->
  noSeparator s = true ->
  insertChars (before ++ mkBlock t st :: after) (characterCount before + c) s
  = before ++ mkBlock (firstn c t ++ s ++ skipn c t) st :: after.
Proof.
  intros Hc Hs.
  enough (G : forall done,
             insertChars
               (before ++ mkBlock (firstn c t ++ done ++ skipn c t) st :: after)
               (characterCount before + (c + length done)) s
             = before ++ mkBlock (firstn c t ++ (done ++ s) ++ skipn c t) st
                      :: after).
  { specialize (G []). simpl in G. rewrite Nat.add_0_r in G.
    rewrite firstn_skipn in G. exact G. }
  induction s as [| ch r IH]; intros done; simpl.
  - now rewrite List.app_nil_r.
  - unfold noSeparator in Hs. simpl in Hs. apply andb_prop in Hs.
    destruct Hs as [Hch Hr]. apply negb_true_iff in Hch.
    rewrite insertChar_here; [| rewrite !length_app, firstn_length_le, length_skipn by lia; lia | assumption].
    rewrite firstn_insert by assumption.
    replace (S (characterCount before + (c + length done)))
      with (characterCount before + (c + length (done ++ [ch])))%nat
      by (rewrite length_app; simpl; lia).
    rewrite IH by assumption.
    now replace ((done ++ [ch]) ++ r) with (done ++ ch :: r)
      by (rewrite <- List.app_assoc; reflexivity).
Qed.

Lemma firstn_remove (c n : nat) (t : QString) :
  (c + S n <= length t)%nat ->
  firstn c (firstn c t ++ skipn (S c) t)
    ++ skipn (c + n) (firstn c t ++ skipn (S c) t)
  = firstn c t ++ skipn (c + S n) t.
Proof.
  intros Hc.
  assert (L : length (firstn c t) = c) by (apply firstn_length_le; lia).
  f_equal.
  - rewrite firstn_app, L, Nat.sub_diag, firstn_firstn, Nat.min_id.
    cbn [firstn]. apply List.app_nil_r.
  - rewrite skipn_app, L.
    rewrite (skipn_all2 (firstn c t)) by lia.
    cbn [app]. rewrite skipn_skipn. f_equal. lia.
Qed.

Lemma removeChars_here (before after : QTextDocument) (st : MarkdownState)
      (n : nat) (t : QString) (c : nat) :
  (c + n <= length t)%nat ->
  removeChars (before ++ mkBlock t st :: after) (characterCount before + c) n
  = before ++ mkBlock (firstn c t ++ skipn (c + n) t) st :: after.
Proof.
  revert t. induction n as [| n IH]; intros t Hc; cbn [removeChars].
  - now rewrite Nat.add_0_r, firstn_skipn.
  - rewrite removeChar_here by lia.
    rewrite IH by (rewrite length_app, firstn_length_le, length_skipn by lia; lia).
    now rewrite firstn_remove by assumption.
Qed.

(** After a separator and a text without separators, the block is split and
    the text starts the new block. *)
Lemma insertChars_newline_here (before after : QTextDocument) (st : MarkdownState)
      (s t : QString) (c : nat) (sep : QChar) :
  (c <= length t)%nat -> isBlockSeparator sep = true -> noSeparator s = true ->
  insertChars (before ++ mkBlock t st :: after) (characterCount before + c)
              (sep :: s)
  = before ++ mkBlock (firstn c t) st
           :: mkBlock (s ++ skipn c t) MarkdownStateOther :: after.
Proof.
  intros Hc Hsep Hs. cbn [insertChars].
  rewrite insertChar_separator_here by assumption.
  replace (before ++ mkBlock (firstn c t) st
             :: mkBlock (skipn c t) MarkdownStateOther :: after)
    with ((before ++ [mkBlock (firstn c t) st])
            ++ mkBlock (skipn c t) MarkdownStateOther :: after)
    by (rewrite <- List.app_assoc; reflexivity).
  replace (S (characterCount before + c))
    with (characterCount (before ++ [mkBlock (firstn c t) st]) + 0)%nat.
  - rewrite insertChars_here by (assumption || lia).
    cbn [firstn skipn app]. now rewrite <- List.app_assoc.
  - rewrite characterCount_app. cbn [characterCount]. unfold blockLength.
    cbn [text]. rewrite firstn_length_le by assumption. lia.
Qed.

Lemma noSeparator_app (s1 s2 : QString) :
  noSeparator (s1 ++ s2) = noSeparator s1 && noSeparator s2.
Proof. apply forallb_app. Qed.

Lemma noSeparator_takeWhile (p : QChar -> bool) (s : QString) :
  noSeparator s = true -> noSeparator (takeWhile p s) = true.
Proof.
  intros H. rewrite <- (takeWhile_dropWhile p s) in H.
  rewrite noSeparator_app in H. now apply andb_prop in H.
Qed.

(** ** Cursors in the block *)

Section CursorInBlock.
Variables (before after : QTextDocument) (t : QString) (st : MarkdownState).
Variables (cur : QTextCursor) (c : nat).
Hypothesis Hpos : position cur = positionAt before c.
Hypothesis Hc : (c <= length t)%nat.

Lemma cursorBlockNumber_here :
  cursorBlockNumber (before ++ mkBlock t st :: after) cur = length before.
Proof.
  unfold cursorBlockNumber. rewrite Hpos. unfold positionAt.
  rewrite Nat2Z.id. now apply findBlock_here.
Qed.

Lemma cursorBlock_here :
  cursorBlock (before ++ mkBlock t st :: after) cur = mkBlock t st.
Proof. unfold cursorBlock. rewrite cursorBlockNumber_here. apply blockAt_here. Qed.

Lemma positionInBlock_here :
  positionInBlock (before ++ mkBlock t st :: after) cur = Z.of_nat c.
Proof.
  unfold positionInBlock. rewrite cursorBlockNumber_here, blockPosition_here.
  rewrite Hpos. unfold positionAt. lia.
Qed.

Lemma movePosition_StartOfBlock (m : MoveMode) :
  movePosition (before ++ mkBlock t st :: after) cur StartOfBlock m 1
  = setPosition cur (positionAt before 0) m.
Proof.
  cbn [movePosition moveOnce].
  rewrite cursorBlockNumber_here, blockPosition_here.
  unfold positionAt. now rewrite Nat.add_0_r.
Qed.

Lemma movePosition_EndOfBlock (m : MoveMode) :
  movePosition (before ++ mkBlock t st :: after) cur EndOfBlock m 1
  = setPosition cur (positionAt before (length t)) m.
Proof.
  cbn [movePosition moveOnce].
  rewrite cursorBlockNumber_here, blockPosition_here, cursorBlock_here.
  cbn [text]. unfold positionAt, size. f_equal. lia.
Qed.
End CursorInBlock.

Lemma selectBlock_here (before after : QTextDocument) (t : QString)
      (st : MarkdownState) (cur : QTextCursor) (c : nat) :
  position cur = positionAt before c -> (c <= length t)%nat ->
  selectBlock (before ++ mkBlock t st :: after) cur
  = mkCursor (positionAt before 0) (positionAt before (length t)).
Proof.
  intros Hpos Hc. unfold selectBlock.
  rewrite (movePosition_StartOfBlock before after t st cur c Hpos Hc).
  cbn [setPosition].
  now rewrite (movePosition_EndOfBlock before after t st
                 (mkCursor (positionAt before 0) (positionAt before 0))
                 0%nat eq_refl (Nat.le_0_l _)).
Qed.

Lemma map_characterAt_here (before after : QTextDocument) (t : QString)
      (st : MarkdownState) (n a : nat) :
  (a + n <= length t)%nat ->
  map (characterAt (before ++ mkBlock t st :: after))
      (seq (characterCount before + a) n)
  = firstn n (skipn a t).
Proof.
  revert a. induction n as [| n IH]; intros a Ha; [reflexivity |].
  cbn [seq map]. rewrite characterAt_here by lia.
  replace (S (characterCount before + a)) with (characterCount before + S a)%nat
    by lia.
  rewrite IH by lia.
  assert (E : skipn a t = nth a t QChar_null :: skipn (S a) t).
  { clear IH. revert a Ha. induction t as [| x r IHt]; intros a Ha.
    - simpl in Ha. lia.
    - destruct a as [| a]; [reflexivity |]. cbn [skipn nth].
      apply IHt. simpl in Ha. lia. }
  now rewrite E.
Qed.

(** The selected text of a whole block is the text of the block. *)
Lemma selectedText_block (before after : QTextDocument) (t : QString)
      (st : MarkdownState) :
  selectedText (before ++ mkBlock t st :: after)
               (mkCursor (positionAt before 0) (positionAt before (length t)))
  = t.
Proof.
  unfold selectedText, selectionStart, selectionEnd, positionAt. cbn [anchor position].
  rewrite Z.min_l, Z.max_r by lia.
  rewrite Nat2Z.id.
  replace (Z.to_nat (Z.of_nat (characterCount before + length t)
                     - Z.of_nat (characterCount before + 0)))
    with (length t) by lia.
  rewrite map_characterAt_here by lia.
  cbn [skipn]. apply firstn_all.
Qed.

(** ** Editing inside the block *)

Lemma to_nat_positionAt (before : QTextDocument) (c : nat) :
  Z.to_nat (positionAt before c) = (characterCount before + c)%nat.
Proof. unfold positionAt. apply Nat2Z.id. Qed.

Lemma firstn_skipn_middle (a b : nat) (t s : QString) :
  (a <= b <= length t)%nat ->
  firstn a (firstn a t ++ skipn b t) ++ s ++ skipn a (firstn a t ++ skipn b t)
  = firstn a t ++ s ++ skipn b t.
Proof.
  intros H.
  assert (L : length (firstn a t) = a) by (apply firstn_length_le; lia).
  rewrite firstn_app, skipn_app, L, Nat.sub_diag, firstn_firstn, Nat.min_id.
  rewrite (skipn_all2 (firstn a t)) by lia.
  cbn [firstn skipn app]. now rewrite List.app_nil_r.
Qed.

Section EditInBlock.
Variables (ed : MarkdownEditor) (before after : QTextDocument).
Variables (t : QString) (st : MarkdownState).
Variables (cur : QTextCursor) (a b : nat).
Hypothesis Hdoc : document ed = before ++ mkBlock t st :: after.
Hypothesis Hstart : selectionStart cur = positionAt before a.
Hypothesis Hend : selectionEnd cur = positionAt before b.
Hypothesis Hab : (a <= b <= length t)%nat.

Lemma removeSelectedText_here :
  removeSelectedText ed cur
  = (withText ed (before ++ mkBlock (firstn a t ++ skipn b t) st :: after)
       (adjustCursor (adjustRemoved (positionAt before a) (Z.of_nat (b - a)))
                     (textCursor ed)),
     cursorAt before a).
Proof.
  unfold removeSelectedText. rewrite Hstart, Hend, Hdoc.
  replace (positionAt before b - positionAt before a) with (Z.of_nat (b - a))
    by (unfold positionAt; lia).
  rewrite to_nat_positionAt, Nat2Z.id.
  rewrite removeChars_here by lia.
  now replace (a + (b - a))%nat with b by lia.
Qed.

(** A text without separators replaces the selected part of the block. *)
Lemma insertText_here (s : QString) :
  noSeparator s = true ->
  insertText ed cur s
  = (withText ed (before ++ mkBlock (firstn a t ++ s ++ skipn b t) st :: after)
       (adjustCursor (adjustInserted (positionAt before a) (size s))
          (adjustCursor (adjustRemoved (positionAt before a) (Z.of_nat (b - a)))
                        (textCursor ed))),
     cursorAt before (a + length s)).
Proof.
  intros Hs. unfold insertText. rewrite removeSelectedText_here.
  cbn [withText document textCursor position cursorAt
       hemingwayModeEnabled autoMatchEnabled bulletPointCyclingEnabled
       insertSpacesForTabs tabWidth markupPairs autoMatchFilter].
  rewrite to_nat_positionAt.
  rewrite insertChars_here;
    [| rewrite length_app, firstn_length_le, length_skipn by lia; lia
     | assumption].
  rewrite firstn_skipn_middle by assumption.
  unfold withText, cursorAt, positionAt, size. cbn. do 2 f_equal; lia.
Qed.

(** A separator and a text without separators replace the selected part:
    the block ends at the separator and the text starts the next block. *)
Lemma insertText_newline_here (sep : QChar) (s : QString) :
  isBlockSeparator sep = true -> noSeparator s = true ->
  insertText ed cur (sep :: s)
  = (withText ed
       (before ++ mkBlock (firstn a t) st
               :: mkBlock (s ++ skipn b t) MarkdownStateOther :: after)
       (adjustCursor (adjustInserted (positionAt before a) (size (sep :: s)))
          (adjustCursor (adjustRemoved (positionAt before a) (Z.of_nat (b - a)))
                        (textCursor ed))),
     cursorAt before (a + S (length s))).
Proof.
  intros Hsep Hs. unfold insertText. rewrite removeSelectedText_here.
  cbn [withText document textCursor position cursorAt
       hemingwayModeEnabled autoMatchEnabled bulletPointCyclingEnabled
       insertSpacesForTabs tabWidth markupPairs autoMatchFilter].
  rewrite to_nat_positionAt.
  rewrite insertChars_newline_here;
    [| rewrite length_app, firstn_length_le, length_skipn by lia; lia
     | assumption | assumption].
  assert (L : length (firstn a t) = a) by (apply firstn_length_le; lia).
  rewrite firstn_app, skipn_app, L, Nat.sub_diag, firstn_firstn, Nat.min_id.
  rewrite (skipn_all2 (firstn a t)) by lia.
  cbn [firstn skipn app]. rewrite List.app_nil_r.
  unfold withText, cursorAt, positionAt, size. cbn [length]. cbn.
  do 2 f_equal; lia.
Qed.
End EditInBlock.

(** ** Enter at the end of a line *)

Lemma hasSelection_cursorAt (before : QTextDocument) (c : nat) :
  hasSelection (cursorAt before c) = false.
Proof. unfold hasSelection, cursorAt. cbn [anchor position]. now rewrite Z.eqb_refl. Qed.

Lemma selection_cursorAt (before : QTextDocument) (c : nat) :
  selectionStart (cursorAt before c) = positionAt before c
  /\ selectionEnd (cursorAt before c) = positionAt before c.
Proof.
  unfold selectionStart, selectionEnd, cursorAt. cbn [anchor position].
  now rewrite Z.min_id, Z.max_id.
Qed.

Lemma selection_block (before : QTextDocument) (n : nat) :
  selectionStart (mkCursor (positionAt before 0) (positionAt before n))
  = positionAt before 0
  /\ selectionEnd (mkCursor (positionAt before 0) (positionAt before n))
     = positionAt before n.
Proof.
  unfold selectionStart, selectionEnd, positionAt. cbn [anchor position].
  split; lia.
Qed.

Section CursorAt.
Variables (before after : QTextDocument) (t : QString) (st : MarkdownState).
Variable c : nat.
Hypothesis Hc : (c <= length t)%nat.

Lemma cursorBlock_at :
  cursorBlock (before ++ mkBlock t st :: after) (cursorAt before c)
  = mkBlock t st.
Proof. now apply (cursorBlock_here before after t st (cursorAt before c) c eq_refl). Qed.

Lemma cursorBlockNumber_at :
  cursorBlockNumber (before ++ mkBlock t st :: after) (cursorAt before c)
  = length before.
Proof. now apply (cursorBlockNumber_here before after t st (cursorAt before c) c eq_refl). Qed.

Lemma positionInBlock_at :
  positionInBlock (before ++ mkBlock t st :: after) (cursorAt before c)
  = Z.of_nat c.
Proof. now apply (positionInBlock_here before after t st (cursorAt before c) c eq_refl). Qed.

Lemma movePosition_StartOfBlock_at :
  movePosition (before ++ mkBlock t st :: after) (cursorAt before c)
               StartOfBlock MoveAnchor 1
  = cursorAt before 0.
Proof.
  now rewrite (movePosition_StartOfBlock before after t st (cursorAt before c) c eq_refl).
Qed.

Lemma selectBlock_at :
  selectBlock (before ++ mkBlock t st :: after) (cursorAt before c)
  = mkCursor (positionAt before 0) (positionAt before (length t)).
Proof. now apply (selectBlock_here before after t st (cursorAt before c) c eq_refl). Qed.
End CursorAt.

(** Where the widget's cursor, at column [c], is after the text of its block
    was replaced by a text of length [n]: at the end of that text. *)
Lemma adjust_replaced (before : QTextDocument) (len c n : nat) :
  (c <= len)%nat ->
  adjustCursor (adjustInserted (positionAt before 0) (Z.of_nat n))
    (adjustCursor (adjustRemoved (positionAt before 0) (Z.of_nat (len - 0)))
                  (cursorAt before c))
  = cursorAt before n.
Proof.
  intros Hc.
  unfold adjustCursor, cursorAt, adjustInserted, adjustRemoved, positionAt.
  cbn [anchor position].
  repeat match goal with
         | |- context [?x <? ?y] => destruct (Z.ltb_spec x y); try lia
         end; f_equal; lia.
Qed.

(** ... and after a text of length [n] was inserted at column [a], not
    after the cursor. *)
Lemma adjust_inserted (before : QTextDocument) (a c n : nat) :
  (a <= c)%nat ->
  adjustCursor (adjustInserted (positionAt before a) (Z.of_nat n))
    (adjustCursor (adjustRemoved (positionAt before a) (Z.of_nat (a - a)))
                  (cursorAt before c))
  = cursorAt before (c + n).
Proof.
  intros Hc.
  unfold adjustCursor, cursorAt, adjustInserted, adjustRemoved, positionAt.
  cbn [anchor position].
  repeat match goal with
         | |- context [?x <? ?y] => destruct (Z.ltb_spec x y); try lia
         end; f_equal; lia.
Qed.

Lemma cursorAt_next_block (before : QTextDocument) (b : QTextBlock) (c : nat) :
  cursorAt before (length (text b) + S c) = cursorAt (before ++ [b]) c.
Proof.
  unfold cursorAt, positionAt. rewrite characterCount_app.
  cbn [characterCount]. unfold blockLength.
  f_equal; lia.
Qed.

Lemma adjustRemoved_none (p : Z) (c : QTextCursor) :
  adjustCursor (adjustRemoved p 0) c = c.
Proof.
  destruct c as [x y]. unfold adjustCursor, adjustRemoved. cbn [anchor position].
  f_equal;
    repeat match goal with
           | |- context [?x <? ?y] => destruct (Z.ltb_spec x y); try lia
           end.
Qed.

Section InsertAt.
Variables (ed : MarkdownEditor) (before after : QTextDocument).
Variables (t : QString) (st : MarkdownState) (a : nat).
Hypothesis Hdoc : document ed = before ++ mkBlock t st :: after.
Hypothesis Ha : (a <= length t)%nat.

(** A text inserted through a cursor without selection. *)
Lemma insertText_at (s : QString) :
  noSeparator s = true ->
  insertText ed (cursorAt before a) s
  = (withText ed (before ++ mkBlock (firstn a t ++ s ++ skipn a t) st :: after)
       (adjustCursor (adjustInserted (positionAt before a) (size s))
                     (textCursor ed)),
     cursorAt before (a + length s)).
Proof.
  intros Hs. destruct (selection_cursorAt before a) as [S1 S2].
  rewrite (insertText_here ed before after t st _ a a Hdoc S1 S2
             (conj (Nat.le_refl _) Ha) s Hs).
  now rewrite Nat.sub_diag, adjustRemoved_none.
Qed.

Lemma insertText_newline_at (s : QString) :
  noSeparator s = true ->
  insertText ed (cursorAt before a) (LineFeed :: s)
  = (withText ed
       (before ++ mkBlock (firstn a t) st
               :: mkBlock (s ++ skipn a t) MarkdownStateOther :: after)
       (adjustCursor (adjustInserted (positionAt before a) (size (LineFeed :: s)))
                     (textCursor ed)),
     cursorAt before (a + S (length s))).
Proof.
  intros Hs. destruct (selection_cursorAt before a) as [S1 S2].
  rewrite (insertText_newline_here ed before after t st _ a a Hdoc S1 S2
             (conj (Nat.le_refl _) Ha) LineFeed s eq_refl Hs).
  now rewrite Nat.sub_diag, adjustRemoved_none.
Qed.

(** A text that replaces the whole text of the block. *)
Lemma insertText_block (s : QString) :
  noSeparator s = true ->
  insertText ed (mkCursor (positionAt before 0) (positionAt before (length t))) s
  = (withText ed (before ++ mkBlock s st :: after)
       (adjustCursor (adjustInserted (positionAt before 0) (size s))
          (adjustCursor
             (adjustRemoved (positionAt before 0) (Z.of_nat (length t - 0)))
             (textCursor ed))),
     cursorAt before (length s)).
Proof.
  intros Hs. destruct (selection_block before (length t)) as [S1 S2].
  rewrite (insertText_here ed before after t st _ 0 (length t) Hdoc S1 S2
             (conj (Nat.le_0_l _) (Nat.le_refl _)) s Hs).
  cbn [firstn app Nat.add]. now rewrite skipn_all, List.app_nil_r.
Qed.
End InsertAt.

Lemma adjust_at (before : QTextDocument) (a c n : nat) :
  (a <= c)%nat ->
  adjustCursor (adjustInserted (positionAt before a) (Z.of_nat n))
               (cursorAt before c)
  = cursorAt before (c + n).
Proof.
  intros Hc. rewrite <- (adjust_inserted before a c n Hc).
  now rewrite Nat.sub_diag, adjustRemoved_none.
Qed.

(** With the cursor at the end of its line and [endList] set by the [switch],
    [handleCarriageReturn] leaves the indentation of the line and starts an
    empty line. *)
Lemma handleCarriageReturn_endList (ed : MarkdownEditor)
      (before after : QTextDocument) (t : QString) (st : MarkdownState) :
  document ed = before ++ mkBlock t st :: after ->
  textCursor ed = cursorAt before (length t) ->
  noSeparator t = true ->
  snd (carriageReturnSwitch ed) = true ->
  handleCarriageReturn ed
  = withText ed
      (before ++ mkBlock (takeWhile isSpace t) st
              :: mkBlock [] MarkdownStateOther :: after)
      (cursorAt (before ++ [mkBlock (takeWhile isSpace t) st]) 0).
Proof.
  intros Hdoc Hcur Ht Hend.
  unfold handleCarriageReturn; cbv zeta. rewrite Hdoc, Hcur.
  rewrite positionInBlock_at, cursorBlock_at by lia.
  unfold blockLength; cbn [text].
  replace (Z.of_nat (length t) <? Z.of_nat (S (length t)) - 1) with false
    by zcompare.
  destruct (carriageReturnSwitch ed) as [autoInsertText endList].
  cbn [snd] in Hend. subst endList.
  rewrite movePosition_StartOfBlock_at by lia.
  rewrite (movePosition_EndOfBlock before after t st
             (cursorAt before 0) 0%nat eq_refl (Nat.le_0_l _)).
  cbn [setPosition anchor cursorAt].
  unfold getPriorIndentation, currentBlock. rewrite Hdoc, Hcur.
  rewrite cursorBlock_at by lia. cbn [text].
  rewrite (insertText_block ed before after t st Hdoc)
    by now apply noSeparator_takeWhile.
  rewrite Hcur. unfold size. rewrite adjust_replaced by lia.
  match goal with
  | |- context [insertText ?e _ _] =>
      rewrite (insertText_newline_at e before after (takeWhile isSpace t) st
                 (length (takeWhile isSpace t)) eq_refl (Nat.le_refl _)
                 [] eq_refl)
  end.
  cbn [fst]. rewrite firstn_all, skipn_all. cbn [app].
  unfold withText.
  cbn [document textCursor hemingwayModeEnabled autoMatchEnabled
       bulletPointCyclingEnabled insertSpacesForTabs tabWidth markupPairs
       autoMatchFilter].
  f_equal. unfold size. rewrite adjust_at by lia.
  cbn [length]. apply (cursorAt_next_block before (mkBlock _ st) 0).
Qed.

(** With the cursor at the end of its line and [endList] not set, the text
    of the [switch] starts the new line. *)
Lemma handleCarriageReturn_continue (ed : MarkdownEditor)
      (before after : QTextDocument) (t : QString) (st : MarkdownState) :
  document ed = before ++ mkBlock t st :: after ->
  textCursor ed = cursorAt before (length t) ->
  snd (carriageReturnSwitch ed) = false ->
  noSeparator (fst (carriageReturnSwitch ed)) = true ->
  handleCarriageReturn ed
  = withText ed
      (before ++ mkBlock t st
              :: mkBlock (fst (carriageReturnSwitch ed)) MarkdownStateOther
              :: after)
      (cursorAt (before ++ [mkBlock t st])
                (length (fst (carriageReturnSwitch ed)))).
Proof.
  intros Hdoc Hcur Hend Hsep.
  unfold handleCarriageReturn; cbv zeta. rewrite Hdoc, Hcur.
  rewrite positionInBlock_at, cursorBlock_at by lia.
  unfold blockLength; cbn [text].
  replace (Z.of_nat (length t) <? Z.of_nat (S (length t)) - 1) with false
    by zcompare.
  destruct (carriageReturnSwitch ed) as [autoInsertText endList].
  cbn [fst snd] in *. subst endList.
  rewrite (insertText_newline_at ed before after t st (length t) Hdoc
             (Nat.le_refl _) autoInsertText Hsep).
  cbn [fst]. rewrite firstn_all, skipn_all, List.app_nil_r.
  rewrite Hcur. f_equal. unfold size. rewrite adjust_at by lia.
  apply (cursorAt_next_block before (mkBlock t st)).
Qed.

(** ** The numbered list pattern *)

Lemma numberedListRegex_nonempty (t : QString) (m : QRegExpMatch) :
  numberedListRegex t = Some m -> isEmpty t = false.
Proof. destruct t; [discriminate | reflexivity]. Qed.

Lemma capturedTexts_length (rx : QRegExp) (t : QString) :
  length (capturedTexts rx t) = 2%nat.
Proof. unfold capturedTexts. now destruct (rx t). Qed.

(** The [switch] on a numbered list item that is nothing but its marker. *)
Lemma carriageReturnSwitch_numbered_empty (ed : MarkdownEditor)
      (before after : QTextDocument) (t : QString) (m : QRegExpMatch) (c : nat) :
  document ed = before ++ mkBlock t MarkdownStateNumberedList :: after ->
  textCursor ed = cursorAt before c -> (c <= length t)%nat ->
  numberedListRegex t = Some m -> QString_left t (matchedLength m) = t ->
  carriageReturnSwitch ed = (t, true).
Proof.
  intros Hdoc Hcur Hc Hm Hleft.
  unfold carriageReturnSwitch, getPriorMarkdownBlockItemStart, currentBlock.
  rewrite Hdoc, Hcur, cursorBlock_at by assumption. cbn [userState text].
  rewrite capturedTexts_length, Hm, Hleft.
  rewrite (numberedListRegex_nonempty t m Hm). cbn [negb andb Nat.eqb].
  now rewrite Z.eqb_refl.
Qed.

(** C3. Enter at the end of a numbered list item that is nothing but its
    marker ends the list: for every line in the numbered list state whose text
    equals the prefix the numbered list pattern matches, the Enter key, with
    the cursor at the end of the line and no selection, replaces the text of
    the line by its leading white space and starts a new line that is empty,
    so carries no list marker; the cursor is at its start. *)
Theorem enter_ends_empty_numbered_item
        (ed : MarkdownEditor) (e : QKeyEvent) (before after : QTextDocument)
        (t : QString) (m : QRegExpMatch) :
  key e = Key_Return -> shiftModifier e = false -> controlModifier e = false ->
  document ed = before ++ mkBlock t MarkdownStateNumberedList :: after ->
  textCursor ed = cursorAt before (length t) ->
  noSeparator t = true ->
  numberedListRegex t = Some m ->
  QString_left t (matchedLength m) = t ->
  document (keyPressEvent ed e)
  = before ++ mkBlock (takeWhile isSpace t) MarkdownStateNumberedList
           :: mkBlock [] MarkdownStateOther :: after
  /\ textCursor (keyPressEvent ed e)
     = cursorAt (before ++ [mkBlock (takeWhile isSpace t)
                                    MarkdownStateNumberedList]) 0.
Proof.
  intros Hkey Hshift Hctrl Hdoc Hcur Ht Hm Hleft.
  unfold keyPressEvent. rewrite Hkey, Hshift, Hctrl, Hcur, hasSelection_cursorAt.
  cbn [negb].
  rewrite (handleCarriageReturn_endList ed before after t _ Hdoc Hcur Ht)
    by now rewrite (carriageReturnSwitch_numbered_empty
                      ed before after t m _ Hdoc Hcur (Nat.le_refl _) Hm Hleft).
  now split.
Qed.

Lemma isNumberPunct_cases (p : QChar) :
  isNumberPunct p = true -> p = QLatin1Char "." \/ p = QLatin1Char ")".
Proof.
  unfold isNumberPunct. intros H. apply orb_prop in H.
  destruct H as [H | H]; apply Z.eqb_eq in H; auto.
Qed.

Lemma numberedListRegex_match (ws ds ws2 rest : QString) (p : QChar) :
  forallb isSpace ws = true ->
  ds <> [] -> forallb isAsciiDigit ds = true ->
  isNumberPunct p = true ->
  ws2 <> [] -> forallb isSpace ws2 = true ->
  takeWhile isSpace rest = [] ->
  numberedListRegex (ws ++ ds ++ p :: ws2 ++ rest)
  = Some (mkMatch (size ws + size ds + 1 + size ws2) ds).
Proof.
  intros Hws Hds1 Hds2 Hp Hws21 Hws22 Hrest.
  assert (Pd : isAsciiDigit p = false)
    by (destruct (isNumberPunct_cases p Hp) as [-> | ->]; reflexivity).
  assert (Ps : isSpace p = false)
    by (destruct (isNumberPunct_cases p Hp) as [-> | ->]; reflexivity).
  destruct ds as [| d0 ds']; [congruence |].
  assert (Hd0 : isSpace d0 = false).
  { apply isAsciiDigit_not_isSpace. simpl in Hds2.
    now apply andb_prop in Hds2. }
  unfold numberedListRegex.
  rewrite takeWhile_app, dropWhile_app by assumption.
  change ((d0 :: ds') ++ p :: ws2 ++ rest) with (d0 :: (ds' ++ p :: ws2 ++ rest)).
  cbn [takeWhile dropWhile]. rewrite Hd0. rewrite List.app_nil_r.
  change (d0 :: ds' ++ p :: ws2 ++ rest) with ((d0 :: ds') ++ p :: ws2 ++ rest).
  rewrite takeWhile_app, dropWhile_app by assumption.
  cbn [takeWhile dropWhile]. rewrite Pd, List.app_nil_r.
  cbn [app]. rewrite Hp.
  rewrite takeWhile_app, Hrest, List.app_nil_r by assumption.
  destruct ws2; [congruence | reflexivity].
Qed.

Lemma QString_left_app (s r : QString) : QString_left (s ++ r) (size s) = s.
Proof.
  unfold QString_left, size.
  replace (Z.of_nat (length s) <? 0) with false by zcompare.
  rewrite Nat2Z.id, firstn_app, firstn_all, Nat.sub_diag.
  cbn [firstn]. apply List.app_nil_r.
Qed.

(** The number a string of digits denotes is not negative. *)
Lemma numberOfDigits_nonneg (s : QString) : 0 <= numberOfDigits s.
Proof.
  unfold numberOfDigits, Z.of_uint. apply N2Z.is_nonneg.
Qed.

Lemma uintOfDigits_digitsOfUint (u : Decimal.uint) :
  uintOfDigits (digitsOfUint u) = u.
Proof. induction u; cbn; congruence. Qed.

(** The decimal notation of a number that is not negative denotes it. *)
Lemma numberOfDigits_QString_number (n : Z) :
  0 <= n -> numberOfDigits (QString_number n) = n.
Proof.
  intros Hn. unfold QString_number, numberOfDigits.
  pose proof (DecimalZ.of_to n) as E. unfold Z.of_int in E.
  destruct (Z.to_int n) as [u | u] eqn:En.
  - now rewrite uintOfDigits_digitsOfUint.
  - destruct n; cbn in En; try discriminate. lia.
Qed.

Lemma noSeparator_digitsOfUint (u : Decimal.uint) :
  noSeparator (digitsOfUint u) = true.
Proof. induction u; cbn; auto. Qed.

Lemma noSeparator_QString_number (n : Z) : noSeparator (QString_number n) = true.
Proof.
  unfold QString_number. destruct (Z.to_int n); [apply noSeparator_digitsOfUint |].
  cbn. apply noSeparator_digitsOfUint.
Qed.

(** [replace(QRegExp("\\d+"), after)] on the prefix of a numbered list item:
    the number is replaced and nothing else. *)
Lemma QString_replace_number_prefix (ws ds ws2 after : QString) (p : QChar) :
  forallb isSpace ws = true ->
  ds <> [] -> forallb isAsciiDigit ds = true ->
  isNumberPunct p = true ->
  forallb isSpace ws2 = true ->
  QString_replace_number (ws ++ ds ++ p :: ws2) after = ws ++ after ++ p :: ws2.
Proof.
  intros Hws Hds1 Hds2 Hp Hws2.
  assert (Pd : isDigit p = false)
    by (destruct (isNumberPunct_cases p Hp) as [-> | ->]; reflexivity).
  assert (N : forall s, forallb isSpace s = true ->
                        forallb (fun c => negb (isDigit c)) s = true).
  { intros s. apply forallb_impl. intros c Hc.
    now rewrite (isSpace_not_isDigit c Hc). }
  unfold QString_replace_number.
  rewrite replaceDigitRuns_app_nondigits by now apply N.
  rewrite replaceDigitRuns_run;
    [| now apply (forallb_impl isAsciiDigit), Hds2; apply isAsciiDigit_isDigit
     | assumption].
  rewrite replaceDigitRuns_nondigits by now apply N.
  destruct ds; [congruence | reflexivity].
Qed.

Lemma noSeparator_parts (ws ds ws2 rest : QString) (p : QChar) :
  noSeparator (ws ++ ds ++ p :: ws2 ++ rest) = true ->
  noSeparator ws = true /\ isBlockSeparator p = false /\ noSeparator ws2 = true.
Proof.
  intros H.
  rewrite noSeparator_app in H. apply andb_prop in H. destruct H as [Hws H].
  rewrite noSeparator_app in H. apply andb_prop in H. destruct H as [_ H].
  change (p :: ws2 ++ rest) with ([p] ++ ws2 ++ rest) in H.
  rewrite noSeparator_app in H. apply andb_prop in H. destruct H as [Hp H].
  rewrite noSeparator_app in H. apply andb_prop in H. destruct H as [Hws2 _].
  repeat split; try assumption.
  unfold noSeparator in Hp. cbn [forallb] in Hp.
  rewrite andb_true_r in Hp. now apply negb_true_iff in Hp.
Qed.

(** The [switch] on a numbered list item with text after its marker. *)
Lemma carriageReturnSwitch_numbered_item (ed : MarkdownEditor)
      (before after : QTextDocument) (ws ds ws2 rest : QString) (p : QChar)
      (c : nat) :
  let t := ws ++ ds ++ p :: ws2 ++ rest in
  document ed = before ++ mkBlock t MarkdownStateNumberedList :: after ->
  textCursor ed = cursorAt before c -> (c <= length t)%nat ->
  forallb isSpace ws = true ->
  ds <> [] -> forallb isAsciiDigit ds = true ->
  isNumberPunct p = true ->
  ws2 <> [] -> forallb isSpace ws2 = true ->
  rest <> [] -> takeWhile isSpace rest = [] ->
  numberOfDigits ds < INT_MAX ->
  carriageReturnSwitch ed
  = (ws ++ QString_number (numberOfDigits ds + 1) ++ p :: ws2, false).
Proof.
  intros t Hdoc Hcur Hc Hws Hds1 Hds2 Hp Hws21 Hws22 Hrest1 Hrest2 Hmax.
  assert (Hm := numberedListRegex_match ws ds ws2 rest p
                  Hws Hds1 Hds2 Hp Hws21 Hws22 Hrest2).
  fold t in Hm.
  assert (Hleft : QString_left t (size ws + size ds + 1 + size ws2)
                  = ws ++ ds ++ p :: ws2).
  { replace (size ws + size ds + 1 + size ws2) with (size (ws ++ ds ++ p :: ws2))
      by (unfold size; repeat rewrite length_app; cbn [length]; lia).
    subst t.
    replace (ws ++ ds ++ p :: ws2 ++ rest) with ((ws ++ ds ++ p :: ws2) ++ rest)
      by (rewrite <- !List.app_assoc; reflexivity).
    apply QString_left_app. }
  unfold carriageReturnSwitch, getPriorMarkdownBlockItemStart, currentBlock.
  rewrite Hdoc, Hcur, cursorBlock_at by assumption. cbn [userState text].
  unfold capturedTexts. rewrite Hm. cbn [matchedLength cap1 length nth].
  rewrite Hleft.
  replace (isEmpty (ws ++ ds ++ p :: ws2)) with false
    by (destruct ws; [destruct ds; [congruence |] |]; reflexivity).
  cbn [negb andb Nat.eqb].
  replace (size t =? size (ws ++ ds ++ p :: ws2)) with false.
  2:{ subst t. unfold size. repeat rewrite length_app. cbn [length].
      repeat rewrite length_app. destruct rest; [congruence |]. cbn [length].
      zcompare. }
  pose proof (numberOfDigits_nonneg ds) as Hnn.
  unfold QString_toInt.
  replace (numberOfDigits ds <=? INT_MAX) with true by zcompare.
  replace (match ds with [] => 0 | _ :: _ => numberOfDigits ds end)
    with (numberOfDigits ds) by (destruct ds; [congruence | reflexivity]).
  replace (wrap_int (numberOfDigits ds + 1)) with (numberOfDigits ds + 1).
  2:{ unfold wrap_int, INT_MAX in *. rewrite Z.mod_small; lia. }
  now rewrite QString_replace_number_prefix.
Qed.

(** C4, for a number below the largest [int]. Enter at the end of a numbered
    list item with text after its marker starts the next item: for every line
    in the numbered list state that is white space [ws], the digits [ds] of a
    number below 2147483647, a [.] or [)], white space [ws2] and then text
    that does not start with white space, the Enter key, with the cursor at
    the end of the line and no selection, leaves the line as it is and
    inserts after it a line that is [ws], the decimal notation of the number
    plus one, the same [.] or [)] and [ws2]; the cursor is at its end. The
    notation denotes the number plus one. *)
Theorem enter_continues_numbered_item
        (ed : MarkdownEditor) (e : QKeyEvent) (before after : QTextDocument)
        (ws ds ws2 rest : QString) (p : QChar) :
  let t := ws ++ ds ++ p :: ws2 ++ rest in
  let next := ws ++ QString_number (numberOfDigits ds + 1) ++ p :: ws2 in
  key e = Key_Return -> shiftModifier e = false -> controlModifier e = false ->
  document ed = before ++ mkBlock t MarkdownStateNumberedList :: after ->
  textCursor ed = cursorAt before (length t) ->
  noSeparator t = true ->
  forallb isSpace ws = true ->
  ds <> [] -> forallb isAsciiDigit ds = true ->
  isNumberPunct p = true ->
  ws2 <> [] -> forallb isSpace ws2 = true ->
  rest <> [] -> takeWhile isSpace rest = [] ->
  numberOfDigits ds < INT_MAX ->
  document (keyPressEvent ed e)
  = before ++ mkBlock t MarkdownStateNumberedList
           :: mkBlock next MarkdownStateOther :: after
  /\ textCursor (keyPressEvent ed e)
     = cursorAt (before ++ [mkBlock t MarkdownStateNumberedList]) (length next)
  /\ numberOfDigits (QString_number (numberOfDigits ds + 1))
     = numberOfDigits ds + 1.
Proof.
  intros t next Hkey Hshift Hctrl Hdoc Hcur Ht
         Hws Hds1 Hds2 Hp Hws21 Hws22 Hrest1 Hrest2 Hmax.
  assert (Hsw := carriageReturnSwitch_numbered_item
                   ed before after ws ds ws2 rest p (length t)
                   Hdoc Hcur (Nat.le_refl _)
                   Hws Hds1 Hds2 Hp Hws21 Hws22 Hrest1 Hrest2 Hmax).
  fold next in Hsw.
  assert (Hnext : noSeparator next = true).
  { destruct (noSeparator_parts ws ds ws2 rest p Ht) as [N1 [N2 N3]].
    subst next. rewrite noSeparator_app, N1.
    rewrite noSeparator_app, noSeparator_QString_number.
    change (p :: ws2) with ([p] ++ ws2). rewrite noSeparator_app, N3.
    unfold noSeparator. cbn [forallb]. now rewrite N2. }
  unfold keyPressEvent. rewrite Hkey, Hshift, Hctrl, Hcur, hasSelection_cursorAt.
  cbn [negb].
  rewrite (handleCarriageReturn_continue ed before after t _ Hdoc Hcur)
    by (rewrite Hsw; auto).
  rewrite Hsw. cbn [fst]. repeat split.
  apply numberOfDigits_QString_number.
  pose proof (numberOfDigits_nonneg ds). lia.
Qed.

(** ** Backspace in an empty list item *)

Lemma takeWhile_head (p : QChar -> bool) (s : QString) (c : QChar) (r : QString) :
  takeWhile p s = c :: r -> exists r', s = c :: r' /\ p c = true.
Proof.
  destruct s as [| x s]; cbn; [discriminate |].
  destruct (p x) eqn:E; [| discriminate].
  intros H. inversion H; subst. eauto.
Qed.

(** In a text one of the list patterns matches, the marker is the first
    character after the leading white space. *)
Lemma numberedListRegex_marker (t : QString) (m : QRegExpMatch) :
  numberedListRegex t = Some m ->
  exists d0 r, dropWhile isSpace t = d0 :: r /\ isDigit d0 = true.
Proof.
  unfold numberedListRegex. intros H.
  destruct (takeWhile isAsciiDigit (dropWhile isSpace t)) as [| d0 ds] eqn:E;
    [discriminate |].
  destruct (takeWhile_head _ _ _ _ E) as [r' [E' Hd]].
  exists d0, r'. split; [assumption | now apply isAsciiDigit_isDigit].
Qed.

Lemma bulletListRegex_marker (t : QString) (m : QRegExpMatch) :
  bulletListRegex t = Some m ->
  exists b r, dropWhile isSpace t = b :: r /\ isBulletChar b = true.
Proof.
  unfold bulletListRegex. intros H.
  destruct (dropWhile isSpace t) as [| b r]; [discriminate |].
  destruct (isBulletChar b) eqn:E; [| discriminate]. eauto.
Qed.

Lemma taskListRegex_marker (t : QString) (m : QRegExpMatch) :
  taskListRegex t = Some m ->
  exists b r, dropWhile isSpace t = b :: r /\ isBulletChar b = true.
Proof.
  unfold taskListRegex. intros H.
  destruct (dropWhile isSpace t) as [| b [| sp [| lb [| v [| rb r]]]]];
    try discriminate.
  destruct (b =? QLatin1Char "-") eqn:E; [| discriminate].
  apply Z.eqb_eq in E. subst b. eauto.
Qed.

Lemma indexOfClass_after_space (p : QChar -> bool) (t : QString) (c : QChar)
      (r : QString) :
  (forall x, isSpace x = true -> p x = false) ->
  dropWhile isSpace t = c :: r -> p c = true ->
  indexOfClass p t = size (takeWhile isSpace t)
  /\ (length (takeWhile isSpace t) < length t)%nat.
Proof.
  intros Hp Hdrop Hc. split.
  - rewrite <- (takeWhile_dropWhile isSpace t) at 1. rewrite Hdrop.
    apply indexOfClass_app; [| assumption].
    apply (forallb_impl isSpace); [| apply takeWhile_forallb].
    intros x Hx. now rewrite (Hp x Hx).
  - rewrite <- (takeWhile_dropWhile isSpace t) at 2. rewrite Hdrop.
    rewrite length_app. cbn [length]. lia.
Qed.

Lemma exactMatch_Some (rx : QRegExp) (t : QString) :
  exactMatch rx t = true -> exists m, rx t = Some m.
Proof. unfold exactMatch. destruct (rx t); [eauto | discriminate]. Qed.

(** In an empty list item [backtrackIndex] is the column of the marker, the
    length of the leading white space. *)
Lemma backtrackIndex_emptyListItem (blk : QTextBlock) :
  emptyListItem blk = true ->
  backtrackIndex blk = size (takeWhile isSpace (text blk))
  /\ (length (takeWhile isSpace (text blk)) < length (text blk))%nat.
Proof.
  unfold emptyListItem, backtrackIndex.
  destruct (userState blk); try discriminate; intros H; rewrite H.
  - destruct (exactMatch_Some _ _ H) as [m Hm].
    destruct (numberedListRegex_marker _ _ Hm) as [d0 [r [Hdrop Hd]]].
    exact (indexOfClass_after_space isDigit _ d0 r isSpace_not_isDigit Hdrop Hd).
  - apply orb_prop in H.
    destruct H as [H | H]; destruct (exactMatch_Some _ _ H) as [m Hm];
      [destruct (bulletListRegex_marker _ _ Hm) as [b [r [Hdrop Hb]]]
      | destruct (taskListRegex_marker _ _ Hm) as [b [r [Hdrop Hb]]]];
      exact (indexOfClass_after_space isBulletChar _ b r
               isSpace_not_isBulletChar Hdrop Hb).
Qed.

Lemma movePosition_Right_at (before after : QTextDocument) (t : QString)
      (st : MarkdownState) (n a : nat) :
  (a + n <= length t)%nat ->
  movePosition (before ++ mkBlock t st :: after) (cursorAt before a)
               Right MoveAnchor n
  = cursorAt before (a + n).
Proof.
  revert a. induction n as [| n IH]; intros a Ha.
  - now rewrite Nat.add_0_r.
  - cbn [movePosition moveOnce]. rewrite characterCount_here.
    cbn [cursorAt position].
    replace (positionAt before a
             <? Z.of_nat (characterCount before + S (length t)
                          + characterCount after) - 1)
      with true by (unfold positionAt; zcompare).
    cbn [setPosition].
    replace (mkCursor (positionAt before a + 1) (positionAt before a + 1))
      with (cursorAt before (S a))
      by (unfold cursorAt, positionAt; f_equal; lia).
    rewrite IH by lia. f_equal. lia.
Qed.

Lemma firstn_takeWhile (p : QChar -> bool) (t : QString) :
  firstn (length (takeWhile p t)) t = takeWhile p t.
Proof.
  rewrite <- (takeWhile_dropWhile p t) at 2.
  rewrite firstn_app, firstn_all, Nat.sub_diag. cbn [firstn].
  apply List.app_nil_r.
Qed.

(** Backspace in an empty list item: the text from the marker to the end of
    the line is removed. *)
Lemma handleBackspaceKey_emptyListItem (ed : MarkdownEditor)
      (before after : QTextDocument) (t : QString) (st : MarkdownState) (c : nat) :
  document ed = before ++ mkBlock t st :: after ->
  textCursor ed = cursorAt before c -> (c <= length t)%nat ->
  emptyListItem (mkBlock t st) = true ->
  handleBackspaceKey ed
  = (true,
     withText ed (before ++ mkBlock (takeWhile isSpace t) st :: after)
              (cursorAt before (Nat.min c (length (takeWhile isSpace t))))).
Proof.
  intros Hdoc Hcur Hc Hitem.
  destruct (backtrackIndex_emptyListItem _ Hitem) as [Hidx Hlt].
  cbn [text] in Hidx, Hlt.
  set (i := length (takeWhile isSpace t)) in *.
  assert (G : removeFromBacktrackIndex ed (cursorAt before c)
                (backtrackIndex (mkBlock t st))
              = (true,
                 withText ed (before ++ mkBlock (takeWhile isSpace t) st :: after)
                          (cursorAt before (Nat.min c i)))).
  { unfold removeFromBacktrackIndex. rewrite Hidx, Hdoc.
    replace (0 <=? size (takeWhile isSpace t)) with true
      by (pose proof (size_nonneg (takeWhile isSpace t)); zcompare).
    rewrite movePosition_StartOfBlock_at by assumption.
    unfold size. fold i. rewrite Nat2Z.id.
    rewrite movePosition_Right_at by (cbn [Nat.add]; lia).
    cbn [Nat.add].
    rewrite (movePosition_EndOfBlock before after t st
               (cursorAt before i) i eq_refl) by lia.
    cbn [setPosition cursorAt anchor].
    assert (S1 : selectionStart (mkCursor (positionAt before i)
                                          (positionAt before (length t)))
                 = positionAt before i)
      by (unfold selectionStart, positionAt; cbn [anchor position]; lia).
    assert (S2 : selectionEnd (mkCursor (positionAt before i)
                                        (positionAt before (length t)))
                 = positionAt before (length t))
      by (unfold selectionEnd, positionAt; cbn [anchor position]; lia).
    rewrite (removeSelectedText_here ed before after t st _ i (length t)
               Hdoc S1 S2) by lia.
    cbn [fst]. rewrite skipn_all, List.app_nil_r.
    unfold i at 1. rewrite firstn_takeWhile.
    rewrite Hcur. do 2 f_equal.
    unfold adjustCursor, adjustRemoved, cursorAt, positionAt.
    cbn [anchor position].
    repeat match goal with
           | |- context [?x <? ?y] => destruct (Z.ltb_spec x y); try lia
           end; f_equal; lia. }
  unfold handleBackspaceKey. cbv zeta.
  rewrite Hcur, hasSelection_cursorAt, Hdoc, cursorBlock_at by assumption.
  cbn [userState]. unfold emptyListItem in Hitem. cbn [userState] in Hitem.
  rewrite <- Hdoc. destruct st; try discriminate; exact G.
Qed.

(** C2, for the list items that are empty. One Backspace removes the whole
    marker of an empty list item: for every line in the numbered list or the
    bullet list state whose whole text the numbered list, the bullet list or
    the task list pattern matches, the Backspace key, with no selection and
    the cursor anywhere in the line, is handled by [handleBackspaceKey] and
    removes the text from the marker to the end of the line in one step; what
    is left of the line is its leading white space, and no other line
    changes. *)
Theorem backspace_removes_empty_list_marker
        (ed : MarkdownEditor) (e : QKeyEvent) (before after : QTextDocument)
        (t : QString) (st : MarkdownState) (c : nat) :
  key e = Key_Backspace ->
  hemingwayModeEnabled ed = false ->
  document ed = before ++ mkBlock t st :: after ->
  textCursor ed = cursorAt before c -> (c <= length t)%nat ->
  emptyListItem (mkBlock t st) = true ->
  fst (handleBackspaceKey ed) = true
  /\ document (keyPressEvent ed e)
     = before ++ mkBlock (takeWhile isSpace t) st :: after
  /\ textCursor (keyPressEvent ed e)
     = cursorAt before (Nat.min c (length (takeWhile isSpace t))).
Proof.
  intros Hkey Hhem Hdoc Hcur Hc Hitem.
  unfold keyPressEvent. rewrite Hkey, Hhem. cbn [negb].
  rewrite (handleBackspaceKey_emptyListItem ed before after t st c)
    by assumption.
  now repeat split.
Qed.

(** ** Tab and Shift+Tab in an empty bullet point *)

Lemma forallb_rev (p : QChar -> bool) (s : QString) :
  forallb p s = true -> forallb p (rev s) = true.
Proof.
  rewrite !forallb_forall. intros H x Hx. apply H. now apply in_rev.
Qed.

Section EmptyBullet.
Variables (ws ws2 : QString) (m : QChar).
Hypothesis Hws : forallb isSpace ws = true.
Hypothesis Hws2 : forallb isSpace ws2 = true.
Hypothesis Hne : ws2 <> [].
Hypothesis Hm : isBulletChar m = true.

Lemma bulletListRegex_match :
  bulletListRegex (ws ++ m :: ws2)
  = Some (mkMatch (size ws + 1 + size ws2) []).
Proof.
  unfold bulletListRegex.
  rewrite takeWhile_app, dropWhile_app by assumption.
  cbn [takeWhile dropWhile].
  rewrite (isBulletChar_not_isSpace m Hm), List.app_nil_r, Hm.
  rewrite takeWhile_all by assumption.
  destruct ws2; [congruence | reflexivity].
Qed.

Lemma exactMatch_emptyBullet : exactMatch bulletListRegex (ws ++ m :: ws2) = true.
Proof.
  unfold exactMatch. rewrite bulletListRegex_match. cbn [matchedLength].
  unfold size. rewrite length_app. cbn [length]. zcompare.
Qed.

Lemma QString_trimmed_emptyBullet :
  QString_at (QString_trimmed (ws ++ m :: ws2)) 0 = m.
Proof.
  unfold QString_trimmed. rewrite dropWhile_app by assumption.
  cbn [dropWhile]. rewrite (isBulletChar_not_isSpace m Hm).
  cbn [rev]. rewrite dropWhile_app by now apply forallb_rev.
  cbn [dropWhile]. now rewrite (isBulletChar_not_isSpace m Hm).
Qed.

Lemma QString_replace_emptyBullet (m' : QChar) :
  QString_replace (ws ++ m :: ws2) m m' = ws ++ m' :: ws2.
Proof.
  assert (N : forall s, forallb isSpace s = true ->
                        forallb (fun c => negb (c =? m)) s = true).
  { intros s. apply forallb_impl. intros c Hc.
    destruct (c =? m) eqn:E; [| reflexivity].
    apply Z.eqb_eq in E. subst c.
    now rewrite (isBulletChar_not_isSpace m Hm) in Hc. }
  rewrite QString_replace_app, QString_replace_id by now apply N.
  change (m :: ws2) with ([m] ++ ws2).
  rewrite QString_replace_app, (QString_replace_id ws2) by now apply N.
  unfold QString_replace. cbn [map]. now rewrite Z.eqb_refl.
Qed.
End EmptyBullet.

Lemma isBulletChar_next (m : QChar) : isBulletChar (nextBulletPoint m) = true.
Proof.
  unfold nextBulletPoint.
  now destruct (m =? QLatin1Char "*"), (m =? QLatin1Char "-").
Qed.

Lemma isBulletChar_previous (m : QChar) : isBulletChar (previousBulletPoint m) = true.
Proof.
  unfold previousBulletPoint.
  now destruct (m =? QLatin1Char "*"), (m =? QLatin1Char "-").
Qed.

Lemma noSeparator_blanks (n : Z) : noSeparator (blanks n) = true.
Proof.
  unfold blanks. induction (Z.to_nat n) as [| k IH]; [reflexivity |].
  cbn [repeat]. unfold noSeparator in *. cbn [forallb]. now rewrite IH.
Qed.

Lemma noSeparator_indentationUnit (ed : MarkdownEditor) :
  noSeparator (indentationUnit ed) = true.
Proof.
  unfold indentationUnit. destruct (insertSpacesForTabs ed);
    [apply noSeparator_blanks | reflexivity].
Qed.

Lemma noSeparator_emptyBullet (ws ws2 : QString) (m m' : QChar) :
  noSeparator (ws ++ m :: ws2) = true -> isBulletChar m' = true ->
  noSeparator (ws ++ m' :: ws2) = true.
Proof.
  intros H Hm'. rewrite noSeparator_app in *.
  apply andb_prop in H. destruct H as [H1 H2]. rewrite H1.
  unfold noSeparator in *. cbn [forallb andb] in *.
  apply andb_prop in H2. destruct H2 as [_ H2]. rewrite H2.
  unfold isBulletChar in Hm'.
  repeat (apply orb_prop in Hm'; destruct Hm' as [Hm' | Hm']);
    apply Z.eqb_eq in Hm'; subst m'; reflexivity.
Qed.

(** Tab in an empty bullet point, with cycling enabled: the marker becomes
    the next one and the line is indented; the cursor is at its end. *)
Lemma indentText_emptyBullet (ed : MarkdownEditor) (before after : QTextDocument)
      (ws ws2 : QString) (m : QChar) (c : nat) :
  let t := ws ++ m :: ws2 in
  let t' := indentationUnit ed ++ ws ++ nextBulletPoint m :: ws2 in
  document ed = before ++ mkBlock t MarkdownStateBulletPointList :: after ->
  textCursor ed = cursorAt before c -> (c <= length t)%nat ->
  noSeparator t = true ->
  forallb isSpace ws = true -> ws2 <> [] -> forallb isSpace ws2 = true ->
  isBulletChar m = true ->
  bulletPointCyclingEnabled ed = true ->
  indentText ed
  = withText ed (before ++ mkBlock t' MarkdownStateBulletPointList :: after)
             (cursorAt before (length t')).
Proof.
  intros t t' Hdoc Hcur Hc Ht Hws Hne Hws2 Hm Hcyc.
  unfold indentText, indentSwitch. cbv zeta.
  rewrite Hcur, hasSelection_cursorAt, Hdoc, cursorBlock_at by assumption.
  cbn [userState text]. subst t.
  rewrite exactMatch_emptyBullet, Hcyc by assumption.
  rewrite QString_trimmed_emptyBullet by assumption.
  rewrite selectBlock_at, selectedText_block by assumption.
  rewrite QString_replace_emptyBullet by assumption.
  rewrite (insertText_block ed before after _ _ Hdoc)
    by (apply (noSeparator_emptyBullet ws ws2 m); [assumption | apply isBulletChar_next]).
  cbn [document withText].
  rewrite movePosition_StartOfBlock_at by lia.
  fold (indentationUnit ed).
  match goal with
  | |- context [insertText ?e _ _] =>
      rewrite (insertText_at e before after
                 (ws ++ nextBulletPoint m :: ws2) MarkdownStateBulletPointList
                 0 eq_refl (Nat.le_0_l _) (indentationUnit ed)
                 (noSeparator_indentationUnit ed))
  end.
  cbn [fst firstn skipn app]. unfold withText.
  cbn [document textCursor hemingwayModeEnabled autoMatchEnabled
       bulletPointCyclingEnabled insertSpacesForTabs tabWidth markupPairs
       autoMatchFilter].
  rewrite Hcur. unfold size. rewrite adjust_replaced by assumption.
  rewrite adjust_at by lia.
  subst t'. do 2 f_equal. rewrite (length_app (indentationUnit ed)). lia.
Qed.

Lemma withText_same (ed : MarkdownEditor) :
  withText ed (document ed) (textCursor ed) = ed.
Proof. now destruct ed. Qed.

Lemma deleteChar_at (ed : MarkdownEditor) (before after : QTextDocument)
      (x : QChar) (r : QString) (st : MarkdownState) :
  document ed = before ++ mkBlock (x :: r) st :: after ->
  deleteChar ed (cursorAt before 0)
  = (withText ed (before ++ mkBlock r st :: after)
       (adjustCursor (adjustRemoved (positionAt before 0) 1) (textCursor ed)),
     cursorAt before 0).
Proof.
  intros Hdoc. unfold deleteChar.
  rewrite hasSelection_cursorAt, Hdoc, characterCount_here.
  cbn [cursorAt position length].
  replace (positionAt before 0
           <? Z.of_nat (characterCount before + S (S (length r))
                        + characterCount after) - 1)
    with true by (unfold positionAt; zcompare).
  rewrite to_nat_positionAt.
  now rewrite removeChars_here by (cbn [length]; lia).
Qed.

(** The blanks of one indentation are deleted from the start of the block. *)
Lemma deleteBlanks_at (before after : QTextDocument) (rest : QString)
      (st : MarkdownState) (k : nat) (ed : MarkdownEditor) :
  document ed
  = before ++ mkBlock (repeat (QLatin1Char " ") k ++ rest) st :: after ->
  exists w,
    deleteBlanks k ed (cursorAt before 0)
    = (withText ed (before ++ mkBlock rest st :: after) w, cursorAt before 0).
Proof.
  revert ed. induction k as [| k IH]; intros ed Hdoc.
  - exists (textCursor ed). cbn [deleteBlanks]. cbn [repeat app] in Hdoc.
    now rewrite <- Hdoc, withText_same.
  - cbn [deleteBlanks]. cbn [repeat app] in Hdoc.
    cbn [cursorAt position]. rewrite to_nat_positionAt, Hdoc.
    rewrite characterAt_here by (cbn [length]; lia).
    cbn [nth]. rewrite Z.eqb_refl.
    rewrite (deleteChar_at ed before after _ _ st Hdoc).
    destruct (IH (withText ed
                    (before ++ mkBlock (repeat (QLatin1Char " ") k ++ rest) st
                            :: after)
                    (adjustCursor (adjustRemoved (positionAt before 0) 1)
                                  (textCursor ed)))
                 eq_refl) as [w Hw].
    exists w. now rewrite Hw.
Qed.

(** Shift+Tab in an indented empty bullet point, with cycling enabled: one
    indentation is removed and the marker becomes the previous one. *)
Lemma unindentText_emptyBullet (ed : MarkdownEditor) (before after : QTextDocument)
      (ws ws2 : QString) (m : QChar) (c : nat) :
  let t := indentationUnit ed ++ ws ++ m :: ws2 in
  document ed = before ++ mkBlock t MarkdownStateBulletPointList :: after ->
  textCursor ed = cursorAt before c -> (c <= length t)%nat ->
  noSeparator t = true ->
  forallb isSpace ws = true -> ws2 <> [] -> forallb isSpace ws2 = true ->
  isBulletChar m = true ->
  bulletPointCyclingEnabled ed = true ->
  0 < tabWidth ed ->
  document (unindentText ed)
  = before ++ mkBlock (ws ++ previousBulletPoint m :: ws2)
                      MarkdownStateBulletPointList :: after.
Proof.
  intros t Hdoc Hcur Hc Ht Hws Hne Hws2 Hm Hcyc Htab.
  assert (Hitem : noSeparator (ws ++ m :: ws2) = true).
  { subst t. rewrite noSeparator_app in Ht. now apply andb_prop in Ht. }
  assert (Hloop : exists w,
             unindentBlocks ed (cursorAt before c) (length before) 1
             = (withText ed
                  (before ++ mkBlock (ws ++ m :: ws2) MarkdownStateBulletPointList
                          :: after) w,
                cursorAt before 0)).
  { cbn [unindentBlocks]. rewrite Hdoc, blockPosition_here.
    cbn [setPosition position].
    replace (mkCursor (Z.of_nat (characterCount before))
                      (Z.of_nat (characterCount before)))
      with (cursorAt before 0)
      by (unfold cursorAt, positionAt; now rewrite Nat.add_0_r).
    replace (Z.to_nat (Z.of_nat (characterCount before)))
      with (characterCount before + 0)%nat by lia.
    rewrite <- Hdoc. subst t. unfold indentationUnit in *.
    destruct (insertSpacesForTabs ed).
    - unfold blanks in *.
      destruct (Z.to_nat (tabWidth ed)) as [| k] eqn:Ek; [lia |].
        rewrite Hdoc. rewrite characterAt_here
        by (cbn [repeat app length]; lia).
      cbn [repeat app nth].
      change (QLatin1Char " " =? Tab) with false. cbv iota.
      destruct (deleteBlanks_at before after (ws ++ m :: ws2)
                  MarkdownStateBulletPointList (S k) ed Hdoc) as [w Hw].
      exists w. now rewrite Hw.
    - rewrite Hdoc. rewrite characterAt_here by (cbn [app length]; lia).
      cbn [app nth]. rewrite Z.eqb_refl.
      rewrite (deleteChar_at ed before after _ _ _ Hdoc).
      eexists. reflexivity. }
  destruct Hloop as [w Hloop].
  unfold unindentText. cbv zeta.
  rewrite Hcur, hasSelection_cursorAt, Hdoc, cursorBlockNumber_at by assumption.
  rewrite Nat.sub_diag, Hloop.
  cbn [document withText bulletPointCyclingEnabled].
  rewrite cursorBlock_at by lia. cbn [userState text].
  rewrite exactMatch_emptyBullet, Hcyc by assumption. cbn [andb].
  rewrite QString_trimmed_emptyBullet by assumption.
  rewrite selectBlock_at, selectedText_block by lia.
  rewrite QString_replace_emptyBullet by assumption.
  match goal with
  | |- context [insertText ?e _ _] =>
      rewrite (insertText_block e before after (ws ++ m :: ws2)
                 MarkdownStateBulletPointList eq_refl)
        by (apply (noSeparator_emptyBullet ws ws2 m);
            [assumption | apply isBulletChar_previous])
  end.
  reflexivity.
Qed.

(** C5, for the bullet points that are empty. Cycling goes round: for every
    line in the bullet list state that is nothing but white space, the marker
    [*] and white space, with cycling enabled, no selection and a positive
    tab width, the Tab key turns the marker into [-] and indents the line by
    one indentation, and the Shift+Tab key after it, the block still being in
    the bullet list state, gives the line back as it was, with the marker
    [*]. *)
Theorem bullet_cycling_round_trip
        (ed : MarkdownEditor) (tab backtab : QKeyEvent)
        (before after : QTextDocument) (ws ws2 : QString) (c : nat) :
  let t := ws ++ QLatin1Char "*" :: ws2 in
  key tab = Key_Tab -> key backtab = Key_Backtab ->
  document ed = before ++ mkBlock t MarkdownStateBulletPointList :: after ->
  textCursor ed = cursorAt before c -> (c <= length t)%nat ->
  noSeparator t = true ->
  forallb isSpace ws = true -> ws2 <> [] -> forallb isSpace ws2 = true ->
  bulletPointCyclingEnabled ed = true ->
  0 < tabWidth ed ->
  document (keyPressEvent ed tab)
  = before ++ mkBlock (indentationUnit ed ++ ws ++ QLatin1Char "-" :: ws2)
                      MarkdownStateBulletPointList :: after
  /\ document (keyPressEvent (keyPressEvent ed tab) backtab)
     = before ++ mkBlock t MarkdownStateBulletPointList :: after.
Proof.
  intros t Htab Hbacktab Hdoc Hcur Hc Ht Hws Hne Hws2 Hcyc Hwidth.
  unfold keyPressEvent at 1 3. rewrite Htab.
  rewrite (indentText_emptyBullet ed before after ws ws2 (QLatin1Char "*") c)
    by (assumption || reflexivity).
  change (nextBulletPoint (QLatin1Char "*")) with (QLatin1Char "-").
  split; [reflexivity |].
  unfold keyPressEvent. rewrite Hbacktab.
  match goal with
  | |- document (unindentText ?e) = _ =>
      rewrite (unindentText_emptyBullet e before after ws ws2 (QLatin1Char "-")
                 (length (indentationUnit ed ++ ws ++ QLatin1Char "-" :: ws2)))
  end; try assumption; try reflexivity.
  rewrite noSeparator_app. apply andb_true_intro. split.
  - apply noSeparator_indentationUnit.
  - now apply (noSeparator_emptyBullet ws ws2 (QLatin1Char "*")).
Qed.

(** ** Paired characters *)

(** The two insertions of [insertPairedCharacters] around a selection from
    column [a] to column [b]: how the widget's cursor follows them. *)
Lemma adjust_wrapped (w : QTextCursor) (pa pb : Z) :
  selectionStart w = pa -> selectionEnd w = pb -> pa < pb ->
  let w1 := adjustCursor (adjustInserted pa 1) w in
  let w2 := adjustCursor (adjustInserted (pb + 1) 1) w1 in
  selectionEnd w1 = pb + 1
  /\ selectionStart w2 = pa + 1
  /\ selectionEnd w2 - 1 = pb + 1.
Proof.
  destruct w as [x y].
  unfold selectionStart, selectionEnd, adjustCursor, adjustInserted.
  cbn [anchor position]. intros Hs He Hlt.
  repeat match goal with
         | |- context [?x <? ?y] => destruct (Z.ltb_spec x y); try lia
         end.
Qed.

Lemma wrap_text (a b : nat) (t : QString) (ch cl : QChar) :
  (a <= b <= length t)%nat ->
  firstn (S b) (firstn a t ++ [ch] ++ skipn a t) ++ [cl]
    ++ skipn (S b) (firstn a t ++ [ch] ++ skipn a t)
  = firstn a t ++ ch :: firstn (b - a) (skipn a t) ++ cl :: skipn b t.
Proof.
  intros H.
  assert (L : length (firstn a t) = a) by (apply firstn_length_le; lia).
  rewrite firstn_app, skipn_app, L.
  rewrite (firstn_all2 (firstn a t)) by lia.
  rewrite (skipn_all2 (firstn a t)) by lia.
  replace (S b - a)%nat with (S (b - a)) by lia.
  cbn [app firstn skipn]. rewrite skipn_skipn.
  replace (b - a + a)%nat with b by lia.
  rewrite <- List.app_assoc. reflexivity.
Qed.

(** The selected text of a selection inside the block. *)
Lemma selectedText_here (before after : QTextDocument) (t : QString)
      (st : MarkdownState) (cur : QTextCursor) (a b : nat) :
  selectionStart cur = positionAt before a ->
  selectionEnd cur = positionAt before b ->
  (a <= b <= length t)%nat ->
  selectedText (before ++ mkBlock t st :: after) cur
  = firstn (b - a) (skipn a t).
Proof.
  intros Hs He Hab. unfold selectedText. rewrite Hs, He, to_nat_positionAt.
  replace (Z.to_nat (positionAt before b - positionAt before a))
    with (b - a)%nat by (unfold positionAt; lia).
  apply map_characterAt_here. lia.
Qed.

(** C7. Typing an opening character wraps a selection: for every selection
    inside one line, from column [a] to column [b] in either direction, and
    every character [ch] the table of markup pairs holds, with the closing
    character [cl], typing [ch] puts [ch] before the selected text and [cl]
    after it and leaves selected exactly the text that was selected. Neither
    [autoMatchEnabled] nor the flag of [ch] in [autoMatchFilter] is asked
    for. *)
Theorem typing_opener_wraps_selection
        (ed : MarkdownEditor) (e : QKeyEvent) (before after : QTextDocument)
        (t : QString) (st : MarkdownState) (a b : nat) (ch cl : QChar) :
  key e = Key_Other -> eventText e = [ch] ->
  document ed = before ++ mkBlock t st :: after ->
  selectionStart (textCursor ed) = positionAt before a ->
  selectionEnd (textCursor ed) = positionAt before b ->
  (a < b <= length t)%nat ->
  hash_contains (markupPairs ed) ch = true ->
  hash_value QChar_null (markupPairs ed) ch = cl ->
  isBlockSeparator ch = false -> isBlockSeparator cl = false ->
  document (keyPressEvent ed e)
  = before ++ mkBlock (firstn a t ++ ch :: firstn (b - a) (skipn a t)
                                ++ cl :: skipn b t) st :: after
  /\ textCursor (keyPressEvent ed e)
     = mkCursor (positionAt before (S a)) (positionAt before (S b))
  /\ selectedText (document (keyPressEvent ed e)) (textCursor (keyPressEvent ed e))
     = selectedText (document ed) (textCursor ed).
Proof.
  intros Hkey Htext Hdoc Hs He Hab Hin Hcl Hch Hcl'.
  assert (Hsel : hasSelection (textCursor ed) = true).
  { unfold hasSelection, selectionStart, selectionEnd, positionAt in *.
    apply negb_true_iff. apply Z.eqb_neq. lia. }
  assert (Hskip : handleEndPairCharacterTyped ed ch = (false, ed)).
  { unfold handleEndPairCharacterTyped. cbv zeta. rewrite Hsel.
    cbn [negb]. now rewrite andb_false_r. }
  destruct (adjust_wrapped (textCursor ed) _ _ Hs He) as [W1 [W2 W3]];
    [unfold positionAt; lia |].
  cbv zeta in W1, W2, W3.
  assert (Hpaired :
            insertPairedCharacters ed ch
            = (true,
               withText ed
                 (before ++ mkBlock (firstn a t ++ ch :: firstn (b - a) (skipn a t)
                                            ++ cl :: skipn b t) st :: after)
                 (mkCursor (positionAt before (S a)) (positionAt before (S b))))).
  { unfold insertPairedCharacters. cbv zeta. rewrite Hin, Hsel, Hcl.
    rewrite Hdoc at 1 2. rewrite Hs, He, !to_nat_positionAt.
    rewrite !findBlock_here by lia. rewrite Nat.eqb_refl.
    cbn [setPosition]. fold (cursorAt before a).
    rewrite (insertText_at ed before after t st a Hdoc)
      by (lia || (unfold noSeparator; cbn [forallb]; now rewrite Hch)).
    cbn [withText textCursor]. change (size [ch]) with 1.
    rewrite W1.
    replace (positionAt before b + 1) with (positionAt before (S b))
      by (unfold positionAt; lia).
    fold (cursorAt before (S b)).
    match goal with
    | |- context [insertText ?e _ _] =>
        rewrite (insertText_at e before after
                   (firstn a t ++ [ch] ++ skipn a t) st (S b) eq_refl)
          by ((rewrite !length_app, firstn_length_le, length_skipn by lia;
               cbn [length]; lia)
              || (unfold noSeparator; cbn [forallb]; now rewrite Hcl'))
    end.
    cbn [withText textCursor setTextCursor document
         hemingwayModeEnabled autoMatchEnabled bulletPointCyclingEnabled
         insertSpacesForTabs tabWidth markupPairs autoMatchFilter].
    change (size [cl]) with 1.
    replace (positionAt before (S b)) with (positionAt before b + 1)
      by (unfold positionAt; lia).
    rewrite W2, W3, wrap_text by lia.
    cbn [anchor].
    replace (positionAt before a + 1) with (positionAt before (S a))
      by (unfold positionAt; lia).
    reflexivity. }
  unfold keyPressEvent. rewrite Hkey, Htext, Hskip, Hpaired.
  cbn [document textCursor withText].
  repeat split.
  rewrite Hdoc.
  rewrite (selectedText_here before after t st (textCursor ed) a b Hs He) by lia.
  rewrite (selectedText_here before after _ st _ (S a) (S b))
    by (try (unfold selectionStart, selectionEnd, positionAt;
             cbn [anchor position]; lia);
        rewrite !length_app, firstn_length_le by lia; cbn [length];
        rewrite length_app, firstn_length_le by (rewrite length_skipn; lia);
        cbn [length]; rewrite length_skipn; lia).
  cbn [Nat.sub].
  assert (L : length (firstn a t) = a) by (apply firstn_length_le; lia).
  rewrite skipn_app, L.
  rewrite (skipn_all2 (firstn a t)) by lia.
  replace (S a - a)%nat with 1%nat by lia. cbn [app skipn].
  rewrite firstn_app.
  rewrite (firstn_all2 (firstn (b - a) (skipn a t)))
    by (rewrite firstn_length_le; [lia | rewrite length_skipn; lia]).
  rewrite firstn_length_le by (rewrite length_skipn; lia).
  rewrite Nat.sub_diag. cbn [firstn]. now rewrite List.app_nil_r.
Qed.

Lemma hash_values_contains (h : QHash QChar) (k : QChar) :
  hash_contains h k = true ->
  QList_contains (hash_values h) (hash_value QChar_null h k) = true.
Proof.
  unfold QList_contains, hash_values.
  induction h as [| [k' v] r IH]; cbn [hash_contains hash_value map snd existsb];
    [discriminate |].
  destruct (k' =? k); cbn [orb].
  - intros _. now rewrite Z.eqb_refl.
  - intros H. rewrite (IH H). apply orb_true_r.
Qed.

(** Typing a closing character before the same character: the cursor moves
    over it. *)
Lemma handleEndPairCharacterTyped_skip (ed : MarkdownEditor)
      (before after : QTextDocument) (t : QString) (st : MarkdownState)
      (c : nat) (ch cl : QChar) :
  document ed = before ++ mkBlock t st :: after ->
  textCursor ed = cursorAt before c -> (c < length t)%nat ->
  nth c t QChar_null = cl ->
  autoMatchEnabled ed = true ->
  hash_contains (markupPairs ed) ch = true ->
  hash_value QChar_null (markupPairs ed) ch = cl ->
  hash_key Z.eqb (markupPairs ed) cl = ch ->
  hash_value false (autoMatchFilter ed) ch = true ->
  handleEndPairCharacterTyped ed cl
  = (true, setTextCursor ed (cursorAt before (S c))).
Proof.
  intros Hdoc Hcur Hc Hnth Hauto Hin Hcl Hkey Hfilter.
  unfold handleEndPairCharacterTyped. cbv zeta.
  rewrite Hauto, Hcur, hasSelection_cursorAt. cbn [negb andb].
  rewrite <- Hcl at 1. rewrite hash_values_contains by assumption.
  rewrite Hkey, Hfilter, Hdoc.
  rewrite cursorBlock_at, positionInBlock_at by lia. cbn [text].
  unfold QCharRef_read, QString_at, size. rewrite Nat2Z.id, Hnth.
  replace (Z.of_nat c <? Z.of_nat (length t)) with true by zcompare.
  rewrite Z.eqb_refl. cbn [andb movePosition moveOnce].
  rewrite characterCount_here. cbn [cursorAt position].
  replace (positionAt before c
           <? Z.of_nat (characterCount before + S (length t)
                        + characterCount after) - 1)
    with true by (unfold positionAt; zcompare).
  cbn [setPosition]. do 2 f_equal.
  unfold cursorAt, positionAt. f_equal; lia.
Qed.

(** Typing an opening character without a selection: the pair is inserted
    and the cursor is between the two characters. *)
Lemma insertPairedCharacters_pair (ed : MarkdownEditor)
      (before after : QTextDocument) (t : QString) (st : MarkdownState)
      (c : nat) (ch cl : QChar) :
  document ed = before ++ mkBlock t st :: after ->
  textCursor ed = cursorAt before c -> (c <= length t)%nat ->
  autoMatchEnabled ed = true ->
  hash_contains (markupPairs ed) ch = true ->
  hash_value QChar_null (markupPairs ed) ch = cl ->
  hash_value false (autoMatchFilter ed) ch = true ->
  isBlockSeparator ch = false -> isBlockSeparator cl = false ->
  insertPairedCharacters ed ch
  = (true,
     withText ed
       (before ++ mkBlock (firstn c t ++ ch :: cl :: skipn c t) st :: after)
       (cursorAt before (S c))).
Proof.
  intros Hdoc Hcur Hc Hauto Hin Hcl Hfilter Hch Hcl'.
  unfold insertPairedCharacters. cbv zeta.
  rewrite Hin, Hcur, hasSelection_cursorAt, Hauto, Hfilter, Hcl. cbn [andb].
  rewrite (insertText_at ed before after t st c Hdoc)
    by (lia || (unfold noSeparator; cbn [forallb]; now rewrite Hch)).
  match goal with
  | |- context [insertText ?e _ _] =>
      rewrite (insertText_at e before after
                 (firstn c t ++ [ch] ++ skipn c t) st (c + length [ch]) eq_refl)
        by ((rewrite !length_app, firstn_length_le, length_skipn by lia;
             cbn [length]; lia)
            || (unfold noSeparator; cbn [forallb]; now rewrite Hcl'))
  end.
  cbn [document withText movePosition moveOnce length cursorAt position].
  replace (0 <? positionAt before (c + 1 + 1)) with true
    by (unfold positionAt; zcompare).
  cbn [setPosition]. unfold setTextCursor, withText.
  cbn [document textCursor hemingwayModeEnabled autoMatchEnabled
       bulletPointCyclingEnabled insertSpacesForTabs tabWidth markupPairs
       autoMatchFilter].
  replace (firstn (c + 1) (firstn c t ++ [ch] ++ skipn c t) ++ [cl]
             ++ skipn (c + 1) (firstn c t ++ [ch] ++ skipn c t))
    with (firstn c t ++ ch :: cl :: skipn c t).
  2:{ assert (L : length (firstn c t) = c) by (apply firstn_length_le; lia).
      rewrite firstn_app, skipn_app, L.
      rewrite (firstn_all2 (firstn c t)) by lia.
      rewrite (skipn_all2 (firstn c t)) by lia.
      replace (c + 1 - c)%nat with 1%nat by lia. cbn [app firstn skipn].
      now rewrite <- List.app_assoc. }
  do 2 f_equal. unfold cursorAt, positionAt. f_equal; lia.
Qed.

(** C6. Pairs are inserted and closing characters skipped over: with no
    selection, [autoMatchEnabled] set and the flag of the opening character
    [ch] set in [autoMatchFilter], [insertPairedCharacters] on [ch] inserts
    [ch] and right after it the closing character [cl] the table gives for
    it, and puts the cursor between the two, and so does typing [ch] when
    [ch] is not a closing character as well; and typing [cl] when the
    character after the cursor is [cl] moves the cursor one position to the
    right and leaves the text as it is, in particular right after the pair
    was inserted. *)
Theorem paired_insertion_and_skip_over
        (ed : MarkdownEditor) (before after : QTextDocument)
        (t : QString) (st : MarkdownState) (c : nat) (ch cl : QChar) :
  document ed = before ++ mkBlock t st :: after ->
  textCursor ed = cursorAt before c -> (c <= length t)%nat ->
  autoMatchEnabled ed = true ->
  hash_contains (markupPairs ed) ch = true ->
  hash_value QChar_null (markupPairs ed) ch = cl ->
  hash_key Z.eqb (markupPairs ed) cl = ch ->
  hash_value false (autoMatchFilter ed) ch = true ->
  isBlockSeparator ch = false -> isBlockSeparator cl = false ->
  let paired :=
    withText ed
      (before ++ mkBlock (firstn c t ++ ch :: cl :: skipn c t) st :: after)
      (cursorAt before (S c)) in
  insertPairedCharacters ed ch = (true, paired)
  /\ (QList_contains (hash_values (markupPairs ed)) ch = false ->
      keyPressEvent ed (typed ch) = paired)
  /\ keyPressEvent paired (typed cl)
     = setTextCursor paired (cursorAt before (S (S c)))
  /\ ((c < length t)%nat -> nth c t QChar_null = cl ->
      handleEndPairCharacterTyped ed cl
      = (true, setTextCursor ed (cursorAt before (S c)))
      /\ keyPressEvent ed (typed cl) = setTextCursor ed (cursorAt before (S c))).
Proof.
  intros Hdoc Hcur Hc Hauto Hin Hcl Hkey Hfilter Hch Hcl' paired.
  assert (Hpair : insertPairedCharacters ed ch = (true, paired))
    by now apply insertPairedCharacters_pair.
  split; [assumption |]. split; [| split].
  - intros Hopen. unfold keyPressEvent. cbn [key eventText typed].
    unfold handleEndPairCharacterTyped. cbv zeta.
    rewrite Hauto, Hcur, hasSelection_cursorAt, Hopen. cbn [negb andb].
    now rewrite Hpair.
  - unfold keyPressEvent. cbn [key eventText typed].
    rewrite (handleEndPairCharacterTyped_skip paired before after
               (firstn c t ++ ch :: cl :: skipn c t) st (S c) ch cl);
      try assumption; try reflexivity.
    + rewrite length_app, firstn_length_le by lia. cbn [length]. lia.
    + rewrite app_nth2; rewrite firstn_length_le by lia; [| lia].
      now replace (S c - c)%nat with 1%nat by lia.
  - intros Hlt Hnth.
    assert (Hskip := handleEndPairCharacterTyped_skip ed before after t st c ch cl
                       Hdoc Hcur Hlt Hnth Hauto Hin Hcl Hkey Hfilter).
    split; [assumption |].
    unfold keyPressEvent. cbn [key eventText typed]. now rewrite Hskip.
Qed.

(** ** What the engines do depends on the block of the cursor only *)

Lemma noSeparator_replaceDigitRuns (after s : QString) (b : bool) :
  noSeparator after = true -> noSeparator s = true ->
  noSeparator (replaceDigitRuns after b s) = true.
Proof.
  intros Ha. revert b. induction s as [| c r IH]; intros b Hs; [reflexivity |].
  unfold noSeparator in Hs. cbn [forallb] in Hs. apply andb_prop in Hs.
  destruct Hs as [Hc Hr]. cbn [replaceDigitRuns].
  destruct (isDigit c).
  - rewrite noSeparator_app, (IH true Hr). now destruct b; [| rewrite Ha].
  - unfold noSeparator. cbn [forallb]. rewrite Hc. apply (IH false Hr).
Qed.

Lemma noSeparator_QString_replace (s : QString) (a b : QChar) :
  noSeparator s = true -> isBlockSeparator b = false ->
  noSeparator (QString_replace s a b) = true.
Proof.
  intros Hs Hb. induction s as [| c r IH]; [reflexivity |].
  unfold noSeparator in Hs. cbn [forallb] in Hs. apply andb_prop in Hs.
  destruct Hs as [Hc Hr]. unfold QString_replace. cbn [map].
  unfold noSeparator. cbn [forallb].
  destruct (c =? a); [rewrite Hb | rewrite Hc]; apply (IH Hr).
Qed.

Lemma isBlockSeparator_bullet (m : QChar) :
  isBulletChar m = true -> isBlockSeparator m = false.
Proof.
  unfold isBulletChar. intros H.
  repeat (apply orb_prop in H; destruct H as [H | H]);
    apply Z.eqb_eq in H; subst m; reflexivity.
Qed.

Lemma noSeparator_indentation (sp : bool) (n : Z) :
  noSeparator (if sp then blanks n else [Tab]) = true.
Proof. destruct sp; [apply noSeparator_blanks | reflexivity]. Qed.

(** The line Tab makes of the line of the cursor is the same wherever the
    line is. *)
Lemma indentText_local (cyc sp : bool) (tw : Z) (t : QString)
      (st : MarkdownState) (c : nat) :
  (c <= length t)%nat -> noSeparator t = true ->
  exists t',
    forall (ed : MarkdownEditor) (before after : QTextDocument),
      bulletPointCyclingEnabled ed = cyc -> insertSpacesForTabs ed = sp ->
      tabWidth ed = tw ->
      document ed = before ++ mkBlock t st :: after ->
      textCursor ed = cursorAt before c ->
      document (indentText ed) = before ++ mkBlock t' st :: after.
Proof.
  intros Hc Ht.
  assert (AtCursor : forall n : Z,
             forall (ed : MarkdownEditor) (before after : QTextDocument),
               insertSpacesForTabs ed = sp ->
               document ed = before ++ mkBlock t st :: after ->
               document (fst (insertText ed (cursorAt before c)
                                (if insertSpacesForTabs ed then blanks n
                                 else [Tab])))
               = before ++ mkBlock (firstn c t
                                      ++ (if sp then blanks n else [Tab])
                                      ++ skipn c t) st :: after).
  { intros n ed before after Hsp Hdoc. rewrite Hsp.
    now rewrite (insertText_at ed before after t st c Hdoc Hc)
      by apply noSeparator_indentation. }
  assert (AtStart : forall r : QString, noSeparator r = true ->
             forall (ed : MarkdownEditor) (before after : QTextDocument),
               insertSpacesForTabs ed = sp -> tabWidth ed = tw ->
               document ed = before ++ mkBlock t st :: after ->
               document
                 (fst (let '(ed1, c1, indent) :=
                         let (ed1, c3) :=
                           insertText ed
                             (mkCursor (positionAt before 0)
                                       (positionAt before (length t))) r in
                         (ed1,
                          movePosition (document ed1) c3 StartOfBlock MoveAnchor 1,
                          tabWidth ed) in
                       insertText ed1 c1
                         (if insertSpacesForTabs ed then blanks indent
                          else [Tab])))
               = before ++ mkBlock ((if sp then blanks tw else [Tab]) ++ r) st
                        :: after).
  { intros r Hr ed before after Hsp Htw Hdoc. rewrite Hsp, Htw.
    rewrite (insertText_block ed before after t st Hdoc r Hr).
    cbn [document withText].
    rewrite movePosition_StartOfBlock_at by lia.
    match goal with
    | |- context [insertText ?e _ _] =>
        rewrite (insertText_at e before after r st 0 eq_refl (Nat.le_0_l _))
          by apply noSeparator_indentation
    end.
    reflexivity. }
  destruct st.
  - (* numbered list *)
    destruct (exactMatch numberedListRegex t) eqn:E.
    + eexists. intros ed before after Hcyc Hsp Htw Hdoc Hcur.
      unfold indentText, indentSwitch. cbv zeta.
      rewrite Hcur, hasSelection_cursorAt, Hdoc, cursorBlock_at by assumption.
      cbn [userState text]. rewrite E, capturedTexts_length. cbn [andb Nat.eqb].
      rewrite selectBlock_at, selectedText_block by assumption.
      apply (AtStart (QString_replace_number t (QLatin1String "1"))
                     (noSeparator_replaceDigitRuns (QLatin1String "1") t false
                                                   eq_refl Ht)
                     ed before after Hsp Htw Hdoc).
    + eexists. intros ed before after Hcyc Hsp Htw Hdoc Hcur.
      unfold indentText, indentSwitch. cbv zeta.
      rewrite Hcur, hasSelection_cursorAt, Hdoc, cursorBlock_at by assumption.
      cbn [userState text]. rewrite E. cbn [andb]. rewrite Htw.
      apply (AtCursor tw ed before after Hsp Hdoc).
  - (* bullet point list *)
    destruct (exactMatch bulletListRegex t) eqn:E;
      [destruct cyc | destruct (exactMatch taskListRegex t) eqn:E'].
    + eexists. intros ed before after Hcyc Hsp Htw Hdoc Hcur.
      unfold indentText, indentSwitch. cbv zeta.
      rewrite Hcur, hasSelection_cursorAt, Hdoc, cursorBlock_at by assumption.
      cbn [userState text]. rewrite E, Hcyc.
      rewrite selectBlock_at, selectedText_block by assumption.
      apply (AtStart _ (noSeparator_QString_replace _ _ _ Ht
                          (isBlockSeparator_bullet _ (isBulletChar_next _)))
                     ed before after Hsp Htw Hdoc).
    + exists ((if sp then blanks tw else [Tab]) ++ t).
      intros ed before after Hcyc Hsp Htw Hdoc Hcur.
      unfold indentText, indentSwitch. cbv zeta.
      rewrite Hcur, hasSelection_cursorAt, Hdoc, cursorBlock_at by assumption.
      cbn [userState text]. rewrite E, Hcyc. cbv beta iota.
      rewrite Hdoc, movePosition_StartOfBlock_at by assumption.
      rewrite Hsp, Htw.
      now rewrite (insertText_at ed before after t _ 0 Hdoc (Nat.le_0_l _))
        by apply noSeparator_indentation.
    + exists ((if sp then blanks tw else [Tab]) ++ t).
      intros ed before after Hcyc Hsp Htw Hdoc Hcur.
      unfold indentText, indentSwitch. cbv zeta.
      rewrite Hcur, hasSelection_cursorAt, Hdoc, cursorBlock_at by assumption.
      cbn [userState text]. rewrite E, E'.
      rewrite movePosition_StartOfBlock_at by assumption.
      rewrite Hsp, Htw.
      now rewrite (insertText_at ed before after t _ 0 Hdoc (Nat.le_0_l _))
        by apply noSeparator_indentation.
    + eexists. intros ed before after Hcyc Hsp Htw Hdoc Hcur.
      unfold indentText, indentSwitch. cbv zeta.
      rewrite Hcur, hasSelection_cursorAt, Hdoc, cursorBlock_at by assumption.
      cbn [userState text]. rewrite E, E'. rewrite Htw.
      apply (AtCursor tw ed before after Hsp Hdoc).
  - (* blockquote *)
    eexists. intros ed before after Hcyc Hsp Htw Hdoc Hcur.
    unfold indentText, indentSwitch. cbv zeta.
    rewrite Hcur, hasSelection_cursorAt, Hdoc, cursorBlock_at by assumption.
    cbn [userState]. rewrite positionInBlock_at by assumption.
    rewrite Htw.
    apply (AtCursor (tw - Z.rem (Z.of_nat c) tw) ed before after Hsp Hdoc).
  - (* any other state *)
    eexists. intros ed before after Hcyc Hsp Htw Hdoc Hcur.
    unfold indentText, indentSwitch. cbv zeta.
    rewrite Hcur, hasSelection_cursorAt, Hdoc, cursorBlock_at by assumption.
    cbn [userState]. rewrite positionInBlock_at by assumption.
    rewrite Htw.
    apply (AtCursor (tw - Z.rem (Z.of_nat c) tw) ed before after Hsp Hdoc).
Qed.

Lemma deleteBlanks_local (k : nat) (t : QString) :
  exists t',
    (noSeparator t = true -> noSeparator t' = true)
    /\ forall (ed : MarkdownEditor) (before after : QTextDocument)
              (st : MarkdownState),
        document ed = before ++ mkBlock t st :: after ->
        exists w,
          deleteBlanks k ed (cursorAt before 0)
          = (withText ed (before ++ mkBlock t' st :: after) w, cursorAt before 0).
Proof.
  revert t. induction k as [| k IH]; intros t.
  - exists t. split; [auto |]. intros ed before after st Hdoc.
    exists (textCursor ed). cbn [deleteBlanks].
    now rewrite <- Hdoc, withText_same.
  - destruct t as [| x r].
    + exists []. split; [auto |]. intros ed before after st Hdoc.
      exists (textCursor ed). cbn [deleteBlanks cursorAt position].
      rewrite to_nat_positionAt, Hdoc.
      pose proof (characterAt_end after [] st before) as Hend.
      cbn [length] in Hend. rewrite Hend.
      change (ParagraphSeparator =? QLatin1Char " ") with false. cbv iota.
      now rewrite <- Hdoc, withText_same.
    + destruct (x =? QLatin1Char " ") eqn:E.
      * destruct (IH r) as [t' [Hsep Hloc]]. exists t'. split.
        { intros H. apply Hsep. unfold noSeparator in *. cbn [forallb] in H.
          now apply andb_prop in H. }
        intros ed before after st Hdoc.
        cbn [deleteBlanks cursorAt position].
        rewrite to_nat_positionAt, Hdoc.
        rewrite characterAt_here by (cbn [length]; lia).
        cbn [nth]. rewrite E.
        rewrite (deleteChar_at ed before after x r st Hdoc).
        destruct (Hloc (withText ed (before ++ mkBlock r st :: after)
                          (adjustCursor (adjustRemoved (positionAt before 0) 1)
                                        (textCursor ed)))
                       before after st eq_refl) as [w Hw].
        exists w. now rewrite Hw.
      * exists (x :: r). split; [auto |]. intros ed before after st Hdoc.
        exists (textCursor ed). cbn [deleteBlanks cursorAt position].
        rewrite to_nat_positionAt, Hdoc.
        rewrite characterAt_here by (cbn [length]; lia).
        cbn [nth]. rewrite E.
        now rewrite <- Hdoc, withText_same.
Qed.

(** The loop of [unindentText] on the line of the cursor. *)
Lemma unindentBlocks_local (tw : Z) (t : QString) :
  exists t',
    (noSeparator t = true -> noSeparator t' = true)
    /\ forall (ed : MarkdownEditor) (before after : QTextDocument)
              (st : MarkdownState) (cur : QTextCursor),
        tabWidth ed = tw ->
        document ed = before ++ mkBlock t st :: after ->
        exists w,
          unindentBlocks ed cur (length before) 1
          = (withText ed (before ++ mkBlock t' st :: after) w, cursorAt before 0).
Proof.
  assert (Start : forall (ed : MarkdownEditor) (before after : QTextDocument)
                         (st : MarkdownState) (cur : QTextCursor),
             document ed = before ++ mkBlock t st :: after ->
             setPosition cur (Z.of_nat (blockPosition (document ed) (length before)))
                         MoveAnchor
             = cursorAt before 0).
  { intros ed before after st cur Hdoc. rewrite Hdoc, blockPosition_here.
    unfold cursorAt, positionAt. cbn [setPosition]. now rewrite Nat.add_0_r. }
  destruct (deleteBlanks_local (Z.to_nat tw) t) as [tb [Hsepb Hlocb]].
  destruct t as [| x r].
  - exists tb. split; [assumption |].
    intros ed before after st cur Htw Hdoc. cbn [unindentBlocks].
    rewrite (Start ed before after st cur Hdoc).
    cbn [cursorAt position]. rewrite to_nat_positionAt, Hdoc.
    pose proof (characterAt_end after [] st before) as Hend.
    cbn [length] in Hend. rewrite Hend.
    change (ParagraphSeparator =? Tab) with false. cbv iota.
    rewrite Htw.
    destruct (Hlocb ed before after st Hdoc) as [w Hw].
    exists w. now rewrite Hw.
  - destruct (x =? Tab) eqn:E.
    + exists r. split.
      { intros H. unfold noSeparator in *. cbn [forallb] in H.
        now apply andb_prop in H. }
      intros ed before after st cur Htw Hdoc. cbn [unindentBlocks].
      rewrite (Start ed before after st cur Hdoc).
      cbn [cursorAt position]. rewrite to_nat_positionAt, Hdoc.
      rewrite characterAt_here by (cbn [length]; lia).
      cbn [nth]. rewrite E.
      rewrite (deleteChar_at ed before after x r st Hdoc).
      eexists. reflexivity.
    + exists tb. split; [assumption |].
      intros ed before after st cur Htw Hdoc. cbn [unindentBlocks].
      rewrite (Start ed before after st cur Hdoc).
      cbn [cursorAt position]. rewrite to_nat_positionAt, Hdoc.
      rewrite characterAt_here by (cbn [length]; lia).
      cbn [nth]. rewrite E.
      rewrite Htw.
      destruct (Hlocb ed before after st Hdoc) as [w Hw].
      exists w. now rewrite Hw.
Qed.

(** The line Shift+Tab makes of the line of the cursor is the same wherever
    the line is. *)
Lemma unindentText_local (cyc : bool) (tw : Z) (t : QString)
      (st : MarkdownState) (c : nat) :
  (c <= length t)%nat -> noSeparator t = true ->
  exists t',
    forall (ed : MarkdownEditor) (before after : QTextDocument),
      bulletPointCyclingEnabled ed = cyc -> tabWidth ed = tw ->
      document ed = before ++ mkBlock t st :: after ->
      textCursor ed = cursorAt before c ->
      document (unindentText ed) = before ++ mkBlock t' st :: after.
Proof.
  intros Hc Ht.
  destruct (unindentBlocks_local tw t) as [t1 [Hsep Hloc]].
  specialize (Hsep Ht).
  assert (Loop : forall (ed : MarkdownEditor) (before after : QTextDocument),
             tabWidth ed = tw ->
             document ed = before ++ mkBlock t st :: after ->
             textCursor ed = cursorAt before c ->
             exists w,
               unindentText ed
               = let ed1 := withText ed (before ++ mkBlock t1 st :: after) w in
                 match st with
                 | MarkdownStateBulletPointList =>
                     if exactMatch bulletListRegex t1
                        && bulletPointCyclingEnabled ed
                     then
                       fst (insertText ed1
                              (mkCursor (positionAt before 0)
                                        (positionAt before (length t1)))
                              (QString_replace t1
                                 (QString_at (QString_trimmed t1) 0)
                                 (previousBulletPoint
                                    (QString_at (QString_trimmed t1) 0))))
                     else ed1
                 | _ => ed1
                 end).
  { intros ed before after Htw Hdoc Hcur.
    destruct (Hloc ed before after st (cursorAt before c) Htw Hdoc) as [w Hw].
    exists w. unfold unindentText. cbv zeta.
    rewrite Hcur, hasSelection_cursorAt, Hdoc, cursorBlockNumber_at by assumption.
    rewrite Nat.sub_diag, Hw.
    cbn [document withText bulletPointCyclingEnabled].
    rewrite cursorBlock_at by lia. cbn [userState text].
    rewrite selectBlock_at, selectedText_block by lia.
    reflexivity. }
  destruct st;
    try (exists t1; intros ed before after Hcyc Htw Hdoc Hcur;
         destruct (Loop ed before after Htw Hdoc Hcur) as [w ->];
         reflexivity).
  destruct (exactMatch bulletListRegex t1 && cyc) eqn:E.
  - eexists. intros ed before after Hcyc Htw Hdoc Hcur.
    destruct (Loop ed before after Htw Hdoc Hcur) as [w ->].
    cbv zeta. rewrite Hcyc, E.
    match goal with
    | |- context [insertText ?e _ _] =>
        rewrite (insertText_block e before after t1
                   MarkdownStateBulletPointList eq_refl)
          by (apply noSeparator_QString_replace;
              [assumption
              | apply isBlockSeparator_bullet, isBulletChar_previous])
    end.
    reflexivity.
  - exists t1. intros ed before after Hcyc Htw Hdoc Hcur.
    destruct (Loop ed before after Htw Hdoc Hcur) as [w ->].
    cbv zeta. now rewrite Hcyc, E.
Qed.

(** C1, with the state of the block. What the engines decide depends on the
    block of the cursor, its text together with the state the highlighter
    stored in it, and not on the other lines: for any two editors whose
    cursor, without selection, is at the same column of a block with the same
    text and the same [userState], whatever the blocks before and after it,
    the [switch] of [handleCarriageReturn] gives the same text to insert and
    the same [endList], [handleBackspaceKey] computes the same
    [backtrackIndex], and, with the same settings for cycling and tabs, Tab
    and Shift+Tab make the same line of it and leave the other lines as they
    are. *)
Theorem engines_decide_by_block
        (ed1 ed2 : MarkdownEditor) (before1 after1 before2 after2 : QTextDocument)
        (t : QString) (st : MarkdownState) (c : nat) :
  document ed1 = before1 ++ mkBlock t st :: after1 ->
  document ed2 = before2 ++ mkBlock t st :: after2 ->
  textCursor ed1 = cursorAt before1 c ->
  textCursor ed2 = cursorAt before2 c ->
  (c <= length t)%nat ->
  noSeparator t = true ->
  bulletPointCyclingEnabled ed1 = bulletPointCyclingEnabled ed2 ->
  insertSpacesForTabs ed1 = insertSpacesForTabs ed2 ->
  tabWidth ed1 = tabWidth ed2 ->
  carriageReturnSwitch ed1 = carriageReturnSwitch ed2
  /\ backtrackIndex (currentBlock ed1) = backtrackIndex (currentBlock ed2)
  /\ (exists t',
         document (indentText ed1) = before1 ++ mkBlock t' st :: after1
         /\ document (indentText ed2) = before2 ++ mkBlock t' st :: after2)
  /\ (exists t',
         document (unindentText ed1) = before1 ++ mkBlock t' st :: after1
         /\ document (unindentText ed2) = before2 ++ mkBlock t' st :: after2).
Proof.
  intros Hdoc1 Hdoc2 Hcur1 Hcur2 Hc Ht Hcyc Hsp Htw.
  assert (B1 : currentBlock ed1 = mkBlock t st)
    by (unfold currentBlock; rewrite Hdoc1, Hcur1; now apply cursorBlock_at).
  assert (B2 : currentBlock ed2 = mkBlock t st)
    by (unfold currentBlock; rewrite Hdoc2, Hcur2; now apply cursorBlock_at).
  repeat split.
  - unfold carriageReturnSwitch, getPriorMarkdownBlockItemStart,
      getPriorIndentation.
    now rewrite B1, B2.
  - now rewrite B1, B2.
  - destruct (indentText_local (bulletPointCyclingEnabled ed1)
                (insertSpacesForTabs ed1) (tabWidth ed1) t st c Hc Ht)
      as [t' H].
    exists t'. split; [now apply H | apply H; auto].
  - destruct (unindentText_local (bulletPointCyclingEnabled ed1)
                (tabWidth ed1) t st c Hc Ht) as [t' H].
    exists t'. split; [now apply H | apply H; auto].
Qed.

(** ** Hemingway mode *)

(** C10. In Hemingway mode Backspace and Delete change nothing: whatever the
    cursor and the selection, the editor after the key is the editor before
    it, its document with it. *)
Theorem hemingway_mode_ignores_deleting_keys (ed : MarkdownEditor) (e : QKeyEvent) :
  hemingwayModeEnabled ed = true ->
  key e = Key_Backspace \/ key e = Key_Delete ->
  keyPressEvent ed e = ed.
Proof.
  intros Hmode [Hkey | Hkey]; unfold keyPressEvent; now rewrite Hkey, Hmode.
Qed.

(** ** Enter inside a line, and with modifiers *)

Lemma noSeparator_firstn (n : nat) (s : QString) :
  noSeparator s = true -> noSeparator (firstn n s) = true.
Proof.
  intros H. rewrite <- (firstn_skipn n s) in H.
  rewrite noSeparator_app in H. now apply andb_prop in H.
Qed.

Lemma noSeparator_skipn (n : nat) (s : QString) :
  noSeparator s = true -> noSeparator (skipn n s) = true.
Proof.
  intros H. rewrite <- (firstn_skipn n s) in H.
  rewrite noSeparator_app in H. now apply andb_prop in H.
Qed.

(** The indentation [handleCarriageReturn] takes over when the cursor is
    inside the line: the leading white space, cut at the column of the
    cursor. *)
Lemma truncated_indentation (ws : QString) (c : nat) :
  (if Z.of_nat c <? size ws then QString_truncate ws (Z.of_nat c) else ws)
  = firstn c ws.
Proof.
  unfold QString_truncate, size. rewrite Nat2Z.id.
  destruct (Z.ltb_spec (Z.of_nat c) (Z.of_nat (length ws))); [reflexivity |].
  symmetry. apply firstn_all2. lia.
Qed.

(** X1. Enter with the cursor before the end of a line, without selection,
    breaks the line at the cursor whatever the state of its block: the new
    line starts with the white space the line starts with, cut at the column
    of the cursor, and the cursor stands after it. *)
Theorem enter_inside_line_keeps_indentation
        (ed : MarkdownEditor) (e : QKeyEvent) (before after : QTextDocument)
        (t : QString) (st : MarkdownState) (c : nat) :
  key e = Key_Return -> shiftModifier e = false -> controlModifier e = false ->
  document ed = before ++ mkBlock t st :: after ->
  textCursor ed = cursorAt before c -> (c < length t)%nat ->
  noSeparator t = true ->
  let indent := firstn c (takeWhile isSpace t) in
  document (keyPressEvent ed e)
  = before ++ mkBlock (firstn c t) st
           :: mkBlock (indent ++ skipn c t) MarkdownStateOther :: after
  /\ textCursor (keyPressEvent ed e)
     = cursorAt (before ++ [mkBlock (firstn c t) st]) (length indent).
Proof.
  intros Hkey Hshift Hctrl Hdoc Hcur Hc Ht indent.
  unfold keyPressEvent. rewrite Hkey, Hshift, Hctrl, Hcur, hasSelection_cursorAt.
  cbn [negb]. unfold handleCarriageReturn; cbv zeta. rewrite Hdoc, Hcur.
  rewrite positionInBlock_at, cursorBlock_at by lia.
  unfold blockLength; cbn [text].
  replace (Z.of_nat c <? Z.of_nat (S (length t)) - 1) with true by zcompare.
  unfold getPriorIndentation, currentBlock. rewrite Hdoc, Hcur.
  rewrite cursorBlock_at by lia. cbn [text].
  rewrite truncated_indentation. fold indent.
  assert (Hi : noSeparator indent = true)
    by (apply noSeparator_firstn; now apply noSeparator_takeWhile).
  rewrite (insertText_newline_at ed before after t st c Hdoc) by (lia || assumption).
  cbn [fst document textCursor withText]. split; [reflexivity |].
  rewrite Hcur. unfold size. rewrite adjust_at by lia.
  cbn [length].
  replace (c + S (length indent))%nat
    with (length (text (mkBlock (firstn c t) st)) + S (length indent))%nat
    by (cbn [text]; rewrite firstn_length_le by lia; reflexivity).
  apply cursorAt_next_block.
Qed.

Lemma firstn_inserted (c : nat) (t s : QString) :
  (c <= length t)%nat ->
  firstn (c + length s) (firstn c t ++ s ++ skipn c t) = firstn c t ++ s.
Proof.
  intros Hc.
  assert (L : length (firstn c t ++ s) = (c + length s)%nat)
    by (rewrite length_app, firstn_length_le by lia; reflexivity).
  rewrite List.app_assoc, <- L, firstn_app, firstn_all, Nat.sub_diag.
  cbn [firstn]. apply List.app_nil_r.
Qed.

Lemma skipn_inserted (c : nat) (t s : QString) :
  (c <= length t)%nat ->
  skipn (c + length s) (firstn c t ++ s ++ skipn c t) = skipn c t.
Proof.
  intros Hc.
  assert (L : length (firstn c t ++ s) = (c + length s)%nat)
    by (rewrite length_app, firstn_length_le by lia; reflexivity).
  rewrite List.app_assoc, <- L, skipn_app, skipn_all, Nat.sub_diag.
  reflexivity.
Qed.

Lemma length_inserted (c : nat) (t s : QString) :
  (c <= length t)%nat ->
  length (firstn c t ++ s ++ skipn c t) = (length t + length s)%nat.
Proof.
  intros Hc. rewrite !length_app, firstn_length_le, length_skipn by lia. lia.
Qed.

Lemma cursorAt_new_block (before : QTextDocument) (b : QTextBlock) (n k : nat) :
  n = (length (text b) + S k)%nat ->
  cursorAt before n = cursorAt (before ++ [b]) k.
Proof. intros ->. apply cursorAt_next_block. Qed.

(** X2. Control+Enter breaks the line at the cursor and inserts nothing else,
    no indentation and no list marker; with Shift held too, two blanks are
    put at the end of the first part. The cursor is at the start of the new
    line. *)
Theorem control_enter_starts_bare_line
        (ed : MarkdownEditor) (e : QKeyEvent) (before after : QTextDocument)
        (t : QString) (st : MarkdownState) (c : nat) :
  key e = Key_Return -> controlModifier e = true ->
  document ed = before ++ mkBlock t st :: after ->
  textCursor ed = cursorAt before c -> (c <= length t)%nat ->
  let break := if shiftModifier e then QLatin1String "  " else [] in
  document (keyPressEvent ed e)
  = before ++ mkBlock (firstn c t ++ break) st
           :: mkBlock (skipn c t) MarkdownStateOther :: after
  /\ textCursor (keyPressEvent ed e)
     = cursorAt (before ++ [mkBlock (firstn c t ++ break) st]) 0.
Proof.
  intros Hkey Hctrl Hdoc Hcur Hc break.
  unfold keyPressEvent. rewrite Hkey, Hctrl, Hcur, hasSelection_cursorAt.
  cbn [negb]. subst break. destruct (shiftModifier e).
  - rewrite (insertText_at ed before after t st c Hdoc Hc) by reflexivity.
    cbn [fst snd].
    match goal with
    | |- context [insertText ?e _ _] =>
        rewrite (insertText_newline_at e before after
                   (firstn c t ++ QLatin1String "  " ++ skipn c t) st
                   (c + length (QLatin1String "  ")) eq_refl)
          by (try reflexivity; rewrite length_inserted by assumption; lia)
    end.
    cbn [fst document textCursor withText].
    rewrite firstn_inserted, skipn_inserted by assumption.
    split; [reflexivity |].
    rewrite Hcur. unfold size. rewrite adjust_at by lia.
    rewrite adjust_at by lia.
    apply cursorAt_new_block. cbn [text].
    rewrite length_app, firstn_length_le by lia. cbn [length]. lia.
  - rewrite (insertText_newline_at ed before after t st c Hdoc Hc) by reflexivity.
    cbn [fst document textCursor withText app].
    rewrite List.app_nil_r. split; [reflexivity |].
    rewrite Hcur. unfold size. rewrite adjust_at by lia.
    apply cursorAt_new_block. cbn [text].
    rewrite firstn_length_le by lia. cbn [length]. lia.
Qed.

(** ** Enter at the end of a bullet point or a task *)

Lemma bulletListRegex_item (ws ws2 rest : QString) (m : QChar) :
  forallb isSpace ws = true -> isBulletChar m = true ->
  ws2 <> [] -> forallb isSpace ws2 = true ->
  takeWhile isSpace rest = [] ->
  bulletListRegex (ws ++ m :: ws2 ++ rest)
  = Some (mkMatch (size ws + 1 + size ws2) []).
Proof.
  intros Hws Hm Hne Hws2 Hrest. unfold bulletListRegex.
  rewrite takeWhile_app, dropWhile_app by assumption.
  cbn [takeWhile dropWhile].
  rewrite (isBulletChar_not_isSpace m Hm), List.app_nil_r, Hm.
  rewrite takeWhile_app, Hrest, List.app_nil_r by assumption.
  destruct ws2; [congruence | reflexivity].
Qed.

Lemma taskListRegex_item (ws ws2 rest : QString) (v : QChar) :
  forallb isSpace ws = true ->
  v = QLatin1Char "x" \/ v = QLatin1Char " " ->
  ws2 <> [] -> forallb isSpace ws2 = true ->
  takeWhile isSpace rest = [] ->
  taskListRegex (ws ++ QLatin1String "- [" ++ v :: QLatin1Char "]" :: ws2 ++ rest)
  = Some (mkMatch (size ws + 5 + size ws2) [v]).
Proof.
  intros Hws Hv Hne Hws2 Hrest. unfold taskListRegex.
  rewrite takeWhile_app, dropWhile_app by assumption.
  cbn [QLatin1String list_ascii_of_string map app takeWhile dropWhile].
  change (isSpace (QLatin1Char "-")) with false. cbv iota.
  rewrite List.app_nil_r.
  rewrite !Z.eqb_refl. cbn [andb].
  replace ((v =? QLatin1Char "x") || (v =? QLatin1Char " ")) with true
    by (destruct Hv as [-> | ->]; reflexivity).
  rewrite takeWhile_app, Hrest, List.app_nil_r by assumption.
  destruct ws2; [congruence | reflexivity].
Qed.

Lemma QString_left_all (t : QString) : QString_left t (size t) = t.
Proof.
  rewrite <- (List.app_nil_r t) at 1. apply QString_left_app.
Qed.

Lemma size_app (s r : QString) : size (s ++ r) = size s + size r.
Proof. unfold size. rewrite length_app. lia. Qed.

Lemma size_cons (c : QChar) (r : QString) : size (c :: r) = 1 + size r.
Proof. unfold size. cbn [length]. lia. Qed.

(** The white space of a line is no [x]. *)
Lemma QString_replace_space (ws : QString) (c c' : QChar) :
  forallb isSpace ws = true -> isSpace c = false ->
  QString_replace ws c c' = ws.
Proof.
  intros Hws Hc. apply QString_replace_id.
  apply (forallb_impl isSpace); [| assumption].
  intros x Hx. destruct (x =? c) eqn:E; [| reflexivity].
  apply Z.eqb_eq in E. subst x. congruence.
Qed.

Lemma isEmpty_app_cons (s r : QString) (c : QChar) : isEmpty (s ++ c :: r) = false.
Proof. now destruct s. Qed.

(** The [switch] on a bullet point with text after its marker. *)
Lemma carriageReturnSwitch_bullet_item (ed : MarkdownEditor)
      (before after : QTextDocument) (ws ws2 rest : QString) (m : QChar) (c : nat) :
  let t := ws ++ m :: ws2 ++ rest in
  document ed = before ++ mkBlock t MarkdownStateBulletPointList :: after ->
  textCursor ed = cursorAt before c -> (c <= length t)%nat ->
  forallb isSpace ws = true -> isBulletChar m = true ->
  ws2 <> [] -> forallb isSpace ws2 = true ->
  rest <> [] -> takeWhile isSpace rest = [] ->
  taskListRegex t = None ->
  carriageReturnSwitch ed = (ws ++ m :: ws2, false).
Proof.
  intros t Hdoc Hcur Hc Hws Hm Hne Hws2 Hrest1 Hrest2 Htask.
  assert (Hb := bulletListRegex_item ws ws2 rest m Hws Hm Hne Hws2 Hrest2).
  fold t in Hb.
  unfold carriageReturnSwitch, getPriorMarkdownBlockItemStart, currentBlock.
  rewrite Hdoc, Hcur, cursorBlock_at by assumption. cbn [userState text].
  rewrite Htask, Hb. cbn [isEmpty matchedLength].
  replace (size ws + 1 + size ws2) with (size (ws ++ m :: ws2))
    by (rewrite size_app, size_cons; lia).
  subst t.
  replace (ws ++ m :: ws2 ++ rest) with ((ws ++ m :: ws2) ++ rest)
    by (rewrite <- List.app_assoc; reflexivity).
  rewrite QString_left_app, isEmpty_app_cons.
  replace (size ((ws ++ m :: ws2) ++ rest) =? size (ws ++ m :: ws2)) with false;
    [reflexivity |].
  rewrite (size_app _ rest). destruct rest; [congruence |].
  rewrite size_cons. pose proof (size_nonneg rest). zcompare.
Qed.

(** X3. Enter at the end of a bullet point with text, which is no task: the
    new line starts with the indentation, the marker and the white space
    after the marker of the line above. *)
Theorem enter_continues_bullet_point
        (ed : MarkdownEditor) (e : QKeyEvent) (before after : QTextDocument)
        (ws ws2 rest : QString) (m : QChar) :
  let t := ws ++ m :: ws2 ++ rest in
  let next := ws ++ m :: ws2 in
  key e = Key_Return -> shiftModifier e = false -> controlModifier e = false ->
  document ed = before ++ mkBlock t MarkdownStateBulletPointList :: after ->
  textCursor ed = cursorAt before (length t) ->
  noSeparator t = true ->
  forallb isSpace ws = true -> isBulletChar m = true ->
  ws2 <> [] -> forallb isSpace ws2 = true ->
  rest <> [] -> takeWhile isSpace rest = [] ->
  taskListRegex t = None ->
  document (keyPressEvent ed e)
  = before ++ mkBlock t MarkdownStateBulletPointList
           :: mkBlock next MarkdownStateOther :: after
  /\ textCursor (keyPressEvent ed e)
     = cursorAt (before ++ [mkBlock t MarkdownStateBulletPointList]) (length next).
Proof.
  intros t next Hkey Hshift Hctrl Hdoc Hcur Ht Hws Hm Hne Hws2 Hrest1 Hrest2 Htask.
  assert (Hsw := carriageReturnSwitch_bullet_item
                   ed before after ws ws2 rest m (length t)
                   Hdoc Hcur (Nat.le_refl _) Hws Hm Hne Hws2 Hrest1 Hrest2 Htask).
  fold next in Hsw.
  assert (Hnext : noSeparator next = true).
  { subst t next.
    replace (ws ++ m :: ws2 ++ rest) with ((ws ++ m :: ws2) ++ rest) in Ht
      by (rewrite <- List.app_assoc; reflexivity).
    rewrite noSeparator_app in Ht. now apply andb_prop in Ht. }
  unfold keyPressEvent. rewrite Hkey, Hshift, Hctrl, Hcur, hasSelection_cursorAt.
  cbn [negb].
  rewrite (handleCarriageReturn_continue ed before after t _ Hdoc Hcur)
    by (rewrite Hsw; auto).
  rewrite Hsw. cbn [fst]. now split.
Qed.

(** The [switch] on a task with text after its marker. *)
Lemma carriageReturnSwitch_task_item (ed : MarkdownEditor)
      (before after : QTextDocument) (ws ws2 rest : QString) (v : QChar) (c : nat) :
  let t := ws ++ QLatin1String "- [" ++ v :: QLatin1Char "]" :: ws2 ++ rest in
  document ed = before ++ mkBlock t MarkdownStateBulletPointList :: after ->
  textCursor ed = cursorAt before c -> (c <= length t)%nat ->
  forallb isSpace ws = true ->
  v = QLatin1Char "x" \/ v = QLatin1Char " " ->
  ws2 <> [] -> forallb isSpace ws2 = true ->
  rest <> [] -> takeWhile isSpace rest = [] ->
  carriageReturnSwitch ed = (ws ++ QLatin1String "- [ ]" ++ ws2, false).
Proof.
  intros t Hdoc Hcur Hc Hws Hv Hne Hws2 Hrest1 Hrest2.
  assert (Hm := taskListRegex_item ws ws2 rest v Hws Hv Hne Hws2 Hrest2).
  fold t in Hm.
  set (prefix := ws ++ QLatin1String "- [" ++ v :: QLatin1Char "]" :: ws2).
  assert (Ht : t = prefix ++ rest).
  { subst t prefix. rewrite <- !List.app_assoc. reflexivity. }
  assert (Hsize : size ws + 5 + size ws2 = size prefix).
  { subst prefix. unfold size.
    cbn [QLatin1String list_ascii_of_string map app].
    rewrite length_app. cbn [length]. lia. }
  unfold carriageReturnSwitch, getPriorMarkdownBlockItemStart, currentBlock.
  rewrite Hdoc, Hcur, cursorBlock_at by assumption. cbn [userState text].
  rewrite Hm. cbn [matchedLength]. rewrite Hsize, Ht, QString_left_app.
  replace (isEmpty prefix) with false
    by (subst prefix; now destruct ws).
  replace (size (prefix ++ rest) =? size prefix) with false.
  2:{ rewrite size_app. destruct rest; [congruence |].
      rewrite size_cons. pose proof (size_nonneg rest). zcompare. }
  f_equal. subst prefix.
  rewrite QString_replace_app, QString_replace_space by (assumption || reflexivity).
  f_equal. cbn [QLatin1String list_ascii_of_string map app].
  unfold QString_replace at 1. cbn [map].
  change (QLatin1Char "-" =? QLatin1Char "x") with false.
  change (QLatin1Char " " =? QLatin1Char "x") with false.
  change (QLatin1Char "[" =? QLatin1Char "x") with false.
  change (QLatin1Char "]" =? QLatin1Char "x") with false.
  cbv iota.
  replace (if v =? QLatin1Char "x" then QLatin1Char " " else v)
    with (QLatin1Char " ") by (destruct Hv as [-> | ->]; reflexivity).
  do 5 f_equal.
  apply (QString_replace_space ws2 (QLatin1Char "x") (QLatin1Char " "));
    [assumption | reflexivity].
Qed.

(** X4. Enter at the end of a task with text, checked or not: the new line
    starts with the indentation of the line above, an unchecked task box and
    the white space after the box of the line above. *)
Theorem enter_continues_task_unchecked
        (ed : MarkdownEditor) (e : QKeyEvent) (before after : QTextDocument)
        (ws ws2 rest : QString) (v : QChar) :
  let t := ws ++ QLatin1String "- [" ++ v :: QLatin1Char "]" :: ws2 ++ rest in
  let next := ws ++ QLatin1String "- [ ]" ++ ws2 in
  key e = Key_Return -> shiftModifier e = false -> controlModifier e = false ->
  document ed = before ++ mkBlock t MarkdownStateBulletPointList :: after ->
  textCursor ed = cursorAt before (length t) ->
  noSeparator t = true ->
  forallb isSpace ws = true ->
  v = QLatin1Char "x" \/ v = QLatin1Char " " ->
  ws2 <> [] -> forallb isSpace ws2 = true ->
  rest <> [] -> takeWhile isSpace rest = [] ->
  document (keyPressEvent ed e)
  = before ++ mkBlock t MarkdownStateBulletPointList
           :: mkBlock next MarkdownStateOther :: after
  /\ textCursor (keyPressEvent ed e)
     = cursorAt (before ++ [mkBlock t MarkdownStateBulletPointList]) (length next).
Proof.
  intros t next Hkey Hshift Hctrl Hdoc Hcur Ht Hws Hv Hne Hws2 Hrest1 Hrest2.
  assert (Hsw := carriageReturnSwitch_task_item
                   ed before after ws ws2 rest v (length t)
                   Hdoc Hcur (Nat.le_refl _) Hws Hv Hne Hws2 Hrest1 Hrest2).
  fold next in Hsw.
  assert (Hnext : noSeparator next = true).
  { subst t next. rewrite noSeparator_app in *.
    apply andb_prop in Ht. destruct Ht as [H1 H2]. rewrite H1.
    cbn [QLatin1String list_ascii_of_string map app] in *.
    unfold noSeparator in *. cbn [forallb andb] in *.
    change (isBlockSeparator (QLatin1Char "-")) with false in *.
    change (isBlockSeparator (QLatin1Char " ")) with false in *.
    change (isBlockSeparator (QLatin1Char "[")) with false in *.
    change (isBlockSeparator (QLatin1Char "]")) with false in *.
    cbn [negb andb] in *. apply andb_prop in H2. destruct H2 as [_ H2].
    rewrite forallb_app in H2. now apply andb_prop in H2. }
  unfold keyPressEvent. rewrite Hkey, Hshift, Hctrl, Hcur, hasSelection_cursorAt.
  cbn [negb].
  rewrite (handleCarriageReturn_continue ed before after t _ Hdoc Hcur)
    by (rewrite Hsw; auto).
  rewrite Hsw. cbn [fst]. now split.
Qed.

Lemma size_takeWhile_dropWhile (p : QChar -> bool) (t : QString) :
  size t = size (takeWhile p t) + size (dropWhile p t).
Proof. rewrite <- size_app. now rewrite takeWhile_dropWhile. Qed.

(** A line the task pattern matches is not, as a whole, a bullet point
    without text: the bullet list pattern ends before the [[]. *)
Lemma taskListRegex_not_empty_bullet (t : QString) (m : QRegExpMatch) :
  taskListRegex t = Some m -> exactMatch bulletListRegex t = false.
Proof.
  unfold taskListRegex, exactMatch, bulletListRegex. intros H.
  pose proof (size_takeWhile_dropWhile isSpace t) as Hsize.
  destruct (dropWhile isSpace t) as [| b [| sp [| lb [| v [| rb r]]]]];
    try discriminate.
  destruct (b =? QLatin1Char "-") eqn:Eb; [| discriminate].
  destruct (sp =? QLatin1Char " ") eqn:Esp; [| discriminate].
  destruct (lb =? QLatin1Char "[") eqn:Elb; [| discriminate].
  apply Z.eqb_eq in Eb, Esp, Elb. subst b sp lb.
  change (isBulletChar (QLatin1Char "-")) with true. cbv iota.
  cbn [takeWhile]. change (isSpace (QLatin1Char " ")) with true.
  change (isSpace (QLatin1Char "[")) with false. cbv iota.
  cbn [matchedLength]. rewrite Hsize, !size_cons.
  pose proof (size_nonneg r). change (size []) with 0. zcompare.
Qed.

(** The [switch] on a bullet point or a task that is nothing but its
    marker. *)
Lemma carriageReturnSwitch_bullet_empty (ed : MarkdownEditor)
      (before after : QTextDocument) (t : QString) (c : nat) :
  document ed = before ++ mkBlock t MarkdownStateBulletPointList :: after ->
  textCursor ed = cursorAt before c -> (c <= length t)%nat ->
  emptyListItem (mkBlock t MarkdownStateBulletPointList) = true ->
  carriageReturnSwitch ed = (t, true).
Proof.
  intros Hdoc Hcur Hc Hitem.
  unfold emptyListItem in Hitem. cbn [userState text] in Hitem.
  unfold carriageReturnSwitch, getPriorMarkdownBlockItemStart, currentBlock.
  rewrite Hdoc, Hcur, cursorBlock_at by assumption. cbn [userState text].
  destruct (taskListRegex t) as [m |] eqn:Etask.
  - rewrite (taskListRegex_not_empty_bullet t m Etask) in Hitem.
    cbn [orb] in Hitem. unfold exactMatch in Hitem. rewrite Etask in Hitem.
    apply Z.eqb_eq in Hitem. rewrite Hitem, QString_left_all.
    replace (isEmpty t) with false
      by (destruct t; [discriminate Etask | reflexivity]).
    now rewrite Z.eqb_refl.
  - cbn [isEmpty].
    replace (exactMatch taskListRegex t) with false in Hitem
      by (unfold exactMatch; now rewrite Etask).
    rewrite orb_false_r in Hitem. unfold exactMatch in Hitem.
    destruct (bulletListRegex t) as [m |] eqn:Ebullet; [| discriminate].
    apply Z.eqb_eq in Hitem. rewrite Hitem, QString_left_all.
    replace (isEmpty t) with false
      by (destruct t; [discriminate Ebullet | reflexivity]).
    now rewrite Z.eqb_refl.
Qed.

(** X5. Enter at the end of an empty item of a bullet list, a bullet point
    or a task without text: the marker is removed, the line keeps its
    leading white space, and an empty line follows with the cursor on it. *)
Theorem enter_ends_empty_bullet_point
        (ed : MarkdownEditor) (e : QKeyEvent) (before after : QTextDocument)
        (t : QString) :
  key e = Key_Return -> shiftModifier e = false -> controlModifier e = false ->
  document ed = before ++ mkBlock t MarkdownStateBulletPointList :: after ->
  textCursor ed = cursorAt before (length t) ->
  noSeparator t = true ->
  emptyListItem (mkBlock t MarkdownStateBulletPointList) = true ->
  document (keyPressEvent ed e)
  = before ++ mkBlock (takeWhile isSpace t) MarkdownStateBulletPointList
           :: mkBlock [] MarkdownStateOther :: after
  /\ textCursor (keyPressEvent ed e)
     = cursorAt (before ++ [mkBlock (takeWhile isSpace t)
                                    MarkdownStateBulletPointList]) 0.
Proof.
  intros Hkey Hshift Hctrl Hdoc Hcur Ht Hitem.
  unfold keyPressEvent. rewrite Hkey, Hshift, Hctrl, Hcur, hasSelection_cursorAt.
  cbn [negb].
  rewrite (handleCarriageReturn_endList ed before after t _ Hdoc Hcur Ht)
    by now rewrite (carriageReturnSwitch_bullet_empty
                      ed before after t _ Hdoc Hcur (Nat.le_refl _) Hitem).
  now split.
Qed.

(** ** Enter at the end of a line of a blockquote *)

(** The groups of the blockquote pattern at the start of a text, each a [>]
    and the white space after it, are what [quoteGroups] counts. *)
Lemma quoteGroups_markers (groups : list QString) (rest : QString) (fuel : nat) :
  Forall (fun ws => forallb isSpace ws = true) groups ->
  takeWhile isSpace rest = [] ->
  (hd QChar_null rest =? QLatin1Char ">") = false ->
  (length groups <= fuel)%nat ->
  quoteGroups fuel (concat (map (cons (QLatin1Char ">")) groups) ++ rest)
  = size (concat (map (cons (QLatin1Char ">")) groups)).
Proof.
  intros Hgroups Hrest Hquote. revert fuel.
  induction Hgroups as [| ws groups Hws Hgroups IH]; intros fuel Hfuel.
  - cbn [map concat app]. change (size []) with 0.
    destruct fuel; [reflexivity |]. cbn [quoteGroups].
    destruct rest as [| c r]; [reflexivity |]. cbn [hd] in Hquote.
    now rewrite Hquote.
  - destruct fuel as [| fuel]; [cbn [length] in Hfuel; lia |].
    cbn [map concat].
    set (more := concat (map (cons (QLatin1Char ">")) groups)) in *.
    cbn [app quoteGroups]. rewrite Z.eqb_refl.
    rewrite <- List.app_assoc.
    assert (Hnext : takeWhile isSpace (more ++ rest) = []).
    { subst more. destruct groups as [| ws' groups']; [exact Hrest | reflexivity]. }
    rewrite takeWhile_app, dropWhile_app, Hnext, List.app_nil_r by assumption.
    replace (dropWhile isSpace (more ++ rest)) with (more ++ rest).
    2:{ pose proof (takeWhile_dropWhile isSpace (more ++ rest)) as E.
        rewrite Hnext in E. now rewrite <- E at 1. }
    rewrite IH by (cbn [length] in Hfuel; lia).
    rewrite size_cons, size_app. lia.
Qed.

Lemma length_quote_markers (groups : list QString) :
  (length groups <= length (concat (map (cons (QLatin1Char ">")) groups)))%nat.
Proof.
  induction groups as [| ws groups IH]; [reflexivity |].
  cbn [map concat length app]. rewrite length_app. lia.
Qed.

Lemma takeBlanks_blanks (k n : nat) (r : QString) :
  (k <= n)%nat -> (hd QChar_null r =? QLatin1Char " ") = false ->
  takeBlanks n (repeat (QLatin1Char " ") k ++ r) = repeat (QLatin1Char " ") k.
Proof.
  revert n. induction k as [| k IH]; intros n Hk Hr.
  - cbn [repeat app]. destruct n; [reflexivity |].
    destruct r as [| c r]; [reflexivity |]. cbn [takeBlanks hd] in *.
    now rewrite Hr.
  - destruct n as [| n]; [lia |]. cbn [repeat app takeBlanks].
    rewrite Z.eqb_refl. now rewrite IH by (lia || assumption).
Qed.

(** The blockquote pattern on a line that starts with at most three blanks
    and one or more groups of a [>] and white space: it matches them. *)
Lemma blockquoteRegex_match (k : nat) (groups : list QString) (rest : QString) :
  (k <= 3)%nat -> groups <> [] ->
  Forall (fun ws => forallb isSpace ws = true) groups ->
  takeWhile isSpace rest = [] ->
  (hd QChar_null rest =? QLatin1Char ">") = false ->
  let prefix :=
    repeat (QLatin1Char " ") k ++ concat (map (cons (QLatin1Char ">")) groups) in
  blockquoteRegex (prefix ++ rest) = Some (mkMatch (size prefix) []).
Proof.
  intros Hk Hne Hgroups Hrest Hquote prefix. subst prefix.
  set (more := concat (map (cons (QLatin1Char ">")) groups)).
  unfold blockquoteRegex. cbv zeta.
  rewrite <- List.app_assoc.
  rewrite takeBlanks_blanks;
    [| assumption
     | subst more; destruct groups as [| ws groups']; [congruence | reflexivity]].
  rewrite skipn_app, skipn_all, repeat_length, Nat.sub_diag. cbn [skipn app].
  subst more. rewrite quoteGroups_markers; try assumption.
  2:{ rewrite length_app. pose proof (length_quote_markers groups). lia. }
  set (more := concat (map (cons (QLatin1Char ">")) groups)).
  replace (0 <? size more) with true.
  - now rewrite size_app.
  - subst more. destruct groups as [| ws groups']; [congruence |].
    cbn [map concat app]. rewrite size_cons.
    pose proof (size_nonneg (ws ++ concat (map (cons (QLatin1Char ">")) groups'))).
    zcompare.
Qed.

(** X6. Enter at the end of a line of a blockquote: the new line starts with
    what the blockquote pattern matched in the line above, its blanks (three
    at most), its [>] markers and the white space after them; also when the
    line above holds nothing else, so that Enter does not end a blockquote. *)
Theorem enter_continues_blockquote
        (ed : MarkdownEditor) (e : QKeyEvent) (before after : QTextDocument)
        (k : nat) (groups : list QString) (rest : QString) :
  let prefix :=
    repeat (QLatin1Char " ") k ++ concat (map (cons (QLatin1Char ">")) groups) in
  let t := prefix ++ rest in
  key e = Key_Return -> shiftModifier e = false -> controlModifier e = false ->
  document ed = before ++ mkBlock t MarkdownStateBlockquote :: after ->
  textCursor ed = cursorAt before (length t) ->
  noSeparator t = true ->
  (k <= 3)%nat -> groups <> [] ->
  Forall (fun ws => forallb isSpace ws = true) groups ->
  takeWhile isSpace rest = [] ->
  (hd QChar_null rest =? QLatin1Char ">") = false ->
  document (keyPressEvent ed e)
  = before ++ mkBlock t MarkdownStateBlockquote
           :: mkBlock prefix MarkdownStateOther :: after
  /\ textCursor (keyPressEvent ed e)
     = cursorAt (before ++ [mkBlock t MarkdownStateBlockquote]) (length prefix).
Proof.
  intros prefix t Hkey Hshift Hctrl Hdoc Hcur Ht Hk Hne Hgroups Hrest Hquote.
  assert (Hm := blockquoteRegex_match k groups rest Hk Hne Hgroups Hrest Hquote).
  cbv zeta in Hm. fold prefix in Hm. fold t in Hm.
  assert (Hsw : carriageReturnSwitch ed = (prefix, false)).
  { unfold carriageReturnSwitch, getPriorMarkdownBlockItemStart, currentBlock.
    rewrite Hdoc, Hcur, cursorBlock_at by lia. cbn [userState text].
    rewrite Hm. cbn [matchedLength]. subst t. now rewrite QString_left_app. }
  assert (Hprefix : noSeparator prefix = true).
  { subst t. rewrite noSeparator_app in Ht. now apply andb_prop in Ht. }
  unfold keyPressEvent. rewrite Hkey, Hshift, Hctrl, Hcur, hasSelection_cursorAt.
  cbn [negb].
  rewrite (handleCarriageReturn_continue ed before after t _ Hdoc Hcur)
    by (rewrite Hsw; auto).
  rewrite Hsw. cbn [fst]. now split.
Qed.

(** ** Backspace between the two characters of a pair, and in a blockquote *)

Lemma withMarkupPairs_same (ed : MarkdownEditor) :
  withMarkupPairs ed (markupPairs ed) = ed.
Proof. now destruct ed. Qed.

Lemma movePosition_Right_keep (before after : QTextDocument) (t : QString)
      (st : MarkdownState) (x : Z) (n a : nat) :
  (a + n <= length t)%nat ->
  movePosition (before ++ mkBlock t st :: after) (mkCursor x (positionAt before a))
               Right KeepAnchor n
  = mkCursor x (positionAt before (a + n)).
Proof.
  revert a. induction n as [| n IH]; intros a Ha.
  - now rewrite Nat.add_0_r.
  - cbn [movePosition moveOnce]. rewrite characterCount_here.
    cbn [position].
    replace (positionAt before a
             <? Z.of_nat (characterCount before + S (length t)
                          + characterCount after) - 1)
      with true by (unfold positionAt; zcompare).
    cbn [setPosition anchor].
    replace (positionAt before a + 1) with (positionAt before (S a))
      by (unfold positionAt; lia).
    rewrite IH by lia. f_equal. f_equal. lia.
Qed.

Lemma movePosition_Left_at (d before : QTextDocument) (a : nat) :
  movePosition d (cursorAt before (S a)) Left MoveAnchor 1 = cursorAt before a.
Proof.
  cbn [movePosition moveOnce cursorAt position].
  replace (0 <? positionAt before (S a)) with true
    by (unfold positionAt; zcompare).
  cbn [setPosition]. unfold cursorAt, positionAt. f_equal; lia.
Qed.

Lemma nth_middle_cons (l r : QString) (c c' : QChar) :
  nth (length l) (l ++ c :: r) QChar_null = c
  /\ nth (S (length l)) (l ++ c :: c' :: r) QChar_null = c'.
Proof.
  split; [apply nth_middle |].
  replace (l ++ c :: c' :: r) with ((l ++ [c]) ++ c' :: r)
    by (rewrite <- List.app_assoc; reflexivity).
  replace (S (length l)) with (length (l ++ [c]))
    by (rewrite length_app; cbn [length]; lia).
  apply nth_middle.
Qed.

(** X7. Backspace with the cursor between an opening character of the table
    of markup pairs and its closing character, in a block whose state is no
    list state and not the blockquote state, with matching enabled: both
    characters are removed and the cursor is where the opening one was. *)
Theorem backspace_between_pair_removes_both
        (ed : MarkdownEditor) (e : QKeyEvent) (before after : QTextDocument)
        (l r : QString) (ch cl : QChar) :
  key e = Key_Backspace ->
  hemingwayModeEnabled ed = false ->
  document ed
  = before ++ mkBlock (l ++ ch :: cl :: r) MarkdownStateOther :: after ->
  textCursor ed = cursorAt before (S (length l)) ->
  autoMatchEnabled ed = true ->
  hash_contains (markupPairs ed) ch = true ->
  hash_value QChar_null (markupPairs ed) ch = cl ->
  fst (handleBackspaceKey ed) = true
  /\ keyPressEvent ed e
     = withText ed (before ++ mkBlock (l ++ r) MarkdownStateOther :: after)
                (cursorAt before (length l)).
Proof.
  intros Hkey Hhem Hdoc Hcur Hauto Hin Hcl.
  set (t := l ++ ch :: cl :: r) in *.
  assert (Hlen : length t = (length l + S (S (length r)))%nat)
    by (subst t; rewrite length_app; reflexivity).
  assert (G : handleBackspaceKey ed
              = (true,
                 withText ed (before ++ mkBlock (l ++ r) MarkdownStateOther :: after)
                          (cursorAt before (length l)))).
  { unfold handleBackspaceKey. cbv zeta.
    rewrite Hcur, hasSelection_cursorAt, Hdoc.
    rewrite cursorBlock_at, positionInBlock_at by lia.
    cbn [userState text]. rewrite Hauto.
    replace (0 <? Z.of_nat (S (length l))) with true by zcompare.
    cbn [andb]. unfold QCharRef_read, QString_at, size.
    replace (Z.of_nat (S (length l)) <? Z.of_nat (length t)) with true by zcompare.
    replace (Z.of_nat (S (length l)) - 1 <? Z.of_nat (length t)) with true
      by zcompare.
    replace (Z.to_nat (Z.of_nat (S (length l)) - 1)) with (length l) by lia.
    rewrite Nat2Z.id. subst t.
    destruct (nth_middle_cons l r ch cl) as [_ N2]. rewrite N2.
    rewrite (nth_middle l (cl :: r) ch QChar_null).
    unfold hash_index. rewrite Hin, Hcl, withMarkupPairs_same, Z.eqb_refl.
    rewrite movePosition_Left_at. unfold cursorAt at 1.
    rewrite (movePosition_Right_keep before after _ _ _ 2 (length l)) by lia.
    rewrite (removeSelectedText_here ed before after _ MarkdownStateOther _
               (length l) (length l + 2) Hdoc);
      try (unfold selectionStart, selectionEnd, positionAt; cbn [anchor position]; lia).
    cbn [fst]. rewrite Hcur. do 2 f_equal.
    - f_equal. rewrite firstn_app, firstn_all, Nat.sub_diag. cbn [firstn].
      rewrite List.app_nil_r. f_equal.
      rewrite skipn_app, skipn_all2 by lia.
      replace (length l + 2 - length l)%nat with 2%nat by lia. reflexivity.
    - unfold adjustCursor, adjustRemoved, cursorAt, positionAt.
      cbn [anchor position].
      repeat match goal with
             | |- context [?x <? ?y] => destruct (Z.ltb_spec x y); try lia
             end; f_equal; lia. }
  split; [now rewrite G |].
  unfold keyPressEvent. rewrite Hkey, Hhem. cbn [negb]. now rewrite G.
Qed.

Lemma QString_lastIndexOf_none (s : QString) (ch : QChar) :
  forallb (fun x => negb (x =? ch)) s = true -> QString_lastIndexOf s ch = -1.
Proof.
  induction s as [| c s IH]; [reflexivity |]. cbn [forallb QString_lastIndexOf].
  intros H. apply andb_prop in H. destruct H as [Hc Hs].
  rewrite (IH Hs). apply negb_true_iff in Hc. now rewrite Hc.
Qed.

(** [lastIndexOf] finds the last occurrence: the one none follows. *)
Lemma QString_lastIndexOf_last (l r : QString) (ch : QChar) :
  forallb (fun x => negb (x =? ch)) r = true ->
  QString_lastIndexOf (l ++ ch :: r) ch = size l.
Proof.
  intros Hr. induction l as [| c l IH].
  - cbn [app QString_lastIndexOf].
    rewrite (QString_lastIndexOf_none r ch Hr), Z.eqb_refl. reflexivity.
  - cbn [app QString_lastIndexOf]. rewrite IH.
    pose proof (size_nonneg l).
    replace (0 <=? size l) with true by zcompare.
    rewrite size_cons. lia.
Qed.

(** The end of [handleBackspaceKey] with a [backtrackIndex] in the line. *)
Lemma removeFromBacktrackIndex_at (ed : MarkdownEditor)
      (before after : QTextDocument) (t : QString) (st : MarkdownState)
      (c i : nat) :
  document ed = before ++ mkBlock t st :: after ->
  textCursor ed = cursorAt before c -> (c <= length t)%nat ->
  (i <= length t)%nat ->
  removeFromBacktrackIndex ed (cursorAt before c) (Z.of_nat i)
  = (true,
     withText ed (before ++ mkBlock (firstn i t) st :: after)
              (cursorAt before (Nat.min c i))).
Proof.
  intros Hdoc Hcur Hc Hi. unfold removeFromBacktrackIndex. rewrite Hdoc.
  replace (0 <=? Z.of_nat i) with true by zcompare.
  rewrite movePosition_StartOfBlock_at by assumption.
  rewrite Nat2Z.id.
  rewrite movePosition_Right_at by (cbn [Nat.add]; lia).
  cbn [Nat.add].
  rewrite (movePosition_EndOfBlock before after t st
             (cursorAt before i) i eq_refl) by lia.
  cbn [setPosition cursorAt anchor].
  rewrite (removeSelectedText_here ed before after t st _ i (length t) Hdoc);
    try (unfold selectionStart, selectionEnd, positionAt; cbn [anchor position]; lia).
  cbn [fst]. rewrite skipn_all, List.app_nil_r.
  rewrite Hcur. do 2 f_equal.
  unfold adjustCursor, adjustRemoved, cursorAt, positionAt.
  cbn [anchor position].
  repeat match goal with
         | |- context [?x <? ?y] => destruct (Z.ltb_spec x y); try lia
         end; f_equal; lia.
Qed.

(** X8. Backspace in a line of a blockquote that holds nothing but what the
    blockquote pattern matches: the last [>] and what follows it are removed,
    wherever the cursor is in the line, and the cursor is not after the end
    of what is left. *)
Theorem backspace_removes_last_quote_marker
        (ed : MarkdownEditor) (e : QKeyEvent) (before after : QTextDocument)
        (l r : QString) (c : nat) :
  let t := l ++ QLatin1Char ">" :: r in
  key e = Key_Backspace ->
  hemingwayModeEnabled ed = false ->
  document ed = before ++ mkBlock t MarkdownStateBlockquote :: after ->
  textCursor ed = cursorAt before c -> (c <= length t)%nat ->
  exactMatch blockquoteRegex t = true ->
  forallb (fun x => negb (x =? QLatin1Char ">")) r = true ->
  fst (handleBackspaceKey ed) = true
  /\ keyPressEvent ed e
     = withText ed (before ++ mkBlock l MarkdownStateBlockquote :: after)
                (cursorAt before (Nat.min c (length l))).
Proof.
  intros t Hkey Hhem Hdoc Hcur Hc Hmatch Hr.
  assert (G : handleBackspaceKey ed
              = (true,
                 withText ed (before ++ mkBlock l MarkdownStateBlockquote :: after)
                          (cursorAt before (Nat.min c (length l))))).
  { unfold handleBackspaceKey. cbv zeta.
    rewrite Hcur, hasSelection_cursorAt, Hdoc, cursorBlock_at by assumption.
    cbn [userState]. unfold backtrackIndex. cbn [userState text].
    rewrite Hmatch. subst t.
    rewrite (QString_lastIndexOf_last l r _ Hr). unfold size.
    rewrite (removeFromBacktrackIndex_at ed before after _ _ c (length l)
               Hdoc Hcur Hc)
      by (rewrite length_app; lia).
    rewrite firstn_app, firstn_all, Nat.sub_diag.
    cbn [firstn]. now rewrite List.app_nil_r. }
  unfold keyPressEvent. rewrite Hkey, Hhem. cbn [negb]. rewrite G.
  now split.
Qed.

(** ** Tab in a paragraph *)

(** X9. Tab without selection in a block whose state is no list state, with
    spaces for tabulations and a positive width: blanks are inserted at the
    cursor, at least one and at most the width, up to the next column that is
    a multiple of the width. *)
Theorem tab_moves_to_next_tab_stop
        (ed : MarkdownEditor) (e : QKeyEvent) (before after : QTextDocument)
        (t : QString) (st : MarkdownState) (c : nat) :
  key e = Key_Tab ->
  document ed = before ++ mkBlock t st :: after ->
  textCursor ed = cursorAt before c -> (c <= length t)%nat ->
  st = MarkdownStateOther \/ st = MarkdownStateBlockquote ->
  insertSpacesForTabs ed = true ->
  0 < tabWidth ed ->
  let n := Z.to_nat (tabWidth ed - Z.of_nat c mod tabWidth ed) in
  document (keyPressEvent ed e)
  = before ++ mkBlock (firstn c t ++ repeat (QLatin1Char " ") n ++ skipn c t) st
           :: after
  /\ textCursor (keyPressEvent ed e) = cursorAt before (c + n)
  /\ (0 < n)%nat /\ Z.of_nat n <= tabWidth ed
  /\ Z.of_nat (c + n) mod tabWidth ed = 0.
Proof.
  intros Hkey Hdoc Hcur Hc Hst Hsp Htw n.
  pose proof (Z.mod_pos_bound (Z.of_nat c) (tabWidth ed) Htw) as Hmod.
  assert (Hn : Z.of_nat n = tabWidth ed - Z.of_nat c mod tabWidth ed)
    by (subst n; lia).
  assert (G : indentText ed
              = withText ed
                  (before ++ mkBlock (firstn c t ++ repeat (QLatin1Char " ") n
                                        ++ skipn c t) st :: after)
                  (cursorAt before (c + n))).
  { unfold indentText, indentSwitch. cbv zeta.
    rewrite Hcur, hasSelection_cursorAt, Hdoc, cursorBlock_at by assumption.
    cbn [userState]. rewrite positionInBlock_at by assumption.
    rewrite Z.rem_mod_nonneg by lia.
    assert (D : (let '(ed1, c1, indent) :=
                   (ed, cursorAt before c,
                    tabWidth ed - Z.of_nat c mod tabWidth ed) in
                 fst (insertText ed1 c1
                        (if insertSpacesForTabs ed then blanks indent else [Tab])))
                = withText ed
                    (before ++ mkBlock (firstn c t ++ repeat (QLatin1Char " ") n
                                          ++ skipn c t) st :: after)
                    (cursorAt before (c + n))).
    { rewrite Hsp. unfold blanks. fold n.
      pose proof (noSeparator_blanks (Z.of_nat n)) as N. unfold blanks in N.
      rewrite Nat2Z.id in N.
      rewrite (insertText_at ed before after t st c Hdoc Hc) by assumption.
      cbn [fst]. rewrite Hcur. unfold size. rewrite repeat_length.
      now rewrite adjust_at by lia. }
    destruct Hst as [-> | ->]; exact D. }
  unfold keyPressEvent. rewrite Hkey, G. cbn [document textCursor withText].
  repeat split; try lia.
  rewrite Nat2Z.inj_add, Hn.
  replace (Z.of_nat c + (tabWidth ed - Z.of_nat c mod tabWidth ed))
    with (Z.of_nat c - Z.of_nat c mod tabWidth ed + 1 * tabWidth ed) by lia.
  rewrite Z.mod_add by lia.
  rewrite Zminus_mod, Z.mod_mod, Z.sub_diag by lia. apply Z.mod_0_l. lia.
Qed.

(** ** The flag of one opening character *)

Lemma hash_value_insert_same {T : Type} (dflt : T) (h : QHash T) (k : QChar) (v : T) :
  hash_value dflt (hash_insert h k v) k = v.
Proof.
  induction h as [| [k' v'] h IH]; cbn [hash_insert hash_value].
  - now rewrite Z.eqb_refl.
  - destruct (k' =? k) eqn:E; cbn [hash_value].
    + now rewrite Z.eqb_refl.
    + now rewrite E.
Qed.

Lemma hash_value_insert_other {T : Type} (dflt : T) (h : QHash T) (k k' : QChar)
      (v : T) :
  k' <> k -> hash_value dflt (hash_insert h k v) k' = hash_value dflt h k'.
Proof.
  intros Hk. induction h as [| [k0 v0] h IH]; cbn [hash_insert hash_value].
  - now replace (k =? k') with false by (symmetry; apply Z.eqb_neq; congruence).
  - destruct (k0 =? k) eqn:E; cbn [hash_value].
    + apply Z.eqb_eq in E. subst k0.
      now replace (k =? k') with false by (symmetry; apply Z.eqb_neq; congruence).
    + now rewrite IH.
Qed.

(** X10. After [setAutoMatchEnabled(ch, false)] the opening character [ch]
    is typed alone: neither [insertPairedCharacters] nor
    [handleEndPairCharacterTyped] handles it, the key inserts the one
    character, the flags of the other characters are as before, and
    [setAutoMatchEnabled(ch, true)] gives [ch] its flag back. The character is
    no closing character of another pair, or it closes itself. *)
Theorem disabled_opener_is_typed_alone
        (ed : MarkdownEditor) (before after : QTextDocument)
        (t : QString) (st : MarkdownState) (c : nat) (ch : QChar) :
  document ed = before ++ mkBlock t st :: after ->
  textCursor ed = cursorAt before c -> (c <= length t)%nat ->
  isBlockSeparator ch = false ->
  QList_contains (hash_values (markupPairs ed)) ch = false
  \/ hash_key Z.eqb (markupPairs ed) ch = ch ->
  let ed' := setAutoMatchEnabledFor ed ch false in
  insertPairedCharacters ed' ch = (false, ed')
  /\ handleEndPairCharacterTyped ed' ch = (false, ed')
  /\ keyPressEvent ed' (typed ch)
     = withText ed' (before ++ mkBlock (firstn c t ++ ch :: skipn c t) st :: after)
                (cursorAt before (S c))
  /\ (forall ch', ch' <> ch ->
        hash_value false (autoMatchFilter ed') ch'
        = hash_value false (autoMatchFilter ed) ch')
  /\ hash_value false (autoMatchFilter (setAutoMatchEnabledFor ed' ch true)) ch
     = true.
Proof.
  intros Hdoc Hcur Hc Hch Hkey ed'.
  assert (Hoff : hash_value false (autoMatchFilter ed') ch = false)
    by (subst ed'; cbn [setAutoMatchEnabledFor autoMatchFilter];
        apply hash_value_insert_same).
  assert (Hpair : insertPairedCharacters ed' ch = (false, ed')).
  { unfold insertPairedCharacters. cbv zeta. rewrite Hoff.
    subst ed'. cbn [setAutoMatchEnabledFor textCursor markupPairs autoMatchEnabled].
    rewrite Hcur, hasSelection_cursorAt, andb_false_r.
    now destruct (hash_contains (markupPairs ed) ch). }
  assert (Hskip : handleEndPairCharacterTyped ed' ch = (false, ed')).
  { unfold handleEndPairCharacterTyped. cbv zeta.
    replace (markupPairs ed') with (markupPairs ed) by reflexivity.
    destruct Hkey as [Hno | Hself].
    - rewrite Hno. now destruct (autoMatchEnabled ed' && _).
    - rewrite Hself, Hoff.
      destruct (autoMatchEnabled ed' && _); [| reflexivity].
      now destruct (QList_contains _ ch). }
  split; [assumption |]. split; [assumption |]. split; [| split].
  - unfold keyPressEvent. cbn [key eventText typed]. rewrite Hskip, Hpair.
    unfold QPlainTextEdit_keyPressEvent. cbn [key eventText typed isEmpty].
    replace (textCursor ed') with (cursorAt before c) by (now rewrite <- Hcur).
    rewrite (insertText_at ed' before after t st c Hdoc Hc)
      by (unfold noSeparator; cbn [forallb]; now rewrite Hch).
    cbn [fst snd]. unfold setTextCursor.
    cbn [document textCursor withText hemingwayModeEnabled autoMatchEnabled
         bulletPointCyclingEnabled insertSpacesForTabs tabWidth markupPairs
         autoMatchFilter length].
    unfold withText. do 2 f_equal. unfold cursorAt, positionAt. f_equal; lia.
  - intros ch' Hne. subst ed'. cbn [setAutoMatchEnabledFor autoMatchFilter].
    now apply hash_value_insert_other.
  - cbn [setAutoMatchEnabledFor autoMatchFilter]. apply hash_value_insert_same.
Qed.

(** ** Formatting markup and comments *)

Lemma movePosition_PreviousCharacter (d before : QTextDocument) (m : MoveMode)
      (cur : QTextCursor) (n a : nat) :
  position cur = positionAt before (a + n) ->
  movePosition d cur PreviousCharacter m n
  = match n with
    | O => cur
    | S _ => setPosition cur (positionAt before a) m
    end.
Proof.
  revert cur. induction n as [| n IH]; intros cur Hpos; [reflexivity |].
  cbn [movePosition moveOnce]. rewrite Hpos.
  replace (0 <? positionAt before (a + S n)) with true
    by (unfold positionAt; zcompare).
  replace (positionAt before (a + S n) - 1) with (positionAt before (a + n))
    by (unfold positionAt; lia).
  rewrite IH by (now destruct m).
  destruct n as [| n].
  - now rewrite Nat.add_0_r.
  - now destruct m.
Qed.

Lemma firstn_app_length (s r : QString) : firstn (length s) (s ++ r) = s.
Proof.
  rewrite firstn_app, firstn_all, Nat.sub_diag. cbn [firstn].
  apply List.app_nil_r.
Qed.

(** X11. [insertFormattingMarkup] without selection inserts the markup twice
    at the cursor and leaves the cursor between the two. *)
Theorem formatting_markup_surrounds_cursor
        (ed : MarkdownEditor) (before after : QTextDocument)
        (t : QString) (st : MarkdownState) (c : nat) (markup : QString) :
  document ed = before ++ mkBlock t st :: after ->
  textCursor ed = cursorAt before c -> (c <= length t)%nat ->
  noSeparator markup = true ->
  insertFormattingMarkup ed markup
  = withText ed
      (before ++ mkBlock (firstn c t ++ markup ++ markup ++ skipn c t) st :: after)
      (cursorAt before (c + length markup)).
Proof.
  intros Hdoc Hcur Hc Hm. unfold insertFormattingMarkup. cbv zeta.
  rewrite Hcur, hasSelection_cursorAt.
  rewrite (insertText_at ed before after t st c Hdoc Hc) by assumption.
  match goal with
  | |- context [insertText ?e _ _] =>
      rewrite (insertText_at e before after
                 (firstn c t ++ markup ++ skipn c t) st (c + length markup) eq_refl)
        by (assumption || (rewrite length_inserted by assumption; lia))
  end.
  rewrite firstn_inserted, skipn_inserted by assumption.
  cbn [document withText].
  rewrite (movePosition_PreviousCharacter _ before MoveAnchor _ (length markup)
             (c + length markup)) by reflexivity.
  unfold setTextCursor, withText.
  cbn [document textCursor hemingwayModeEnabled autoMatchEnabled
       bulletPointCyclingEnabled insertSpacesForTabs tabWidth markupPairs
       autoMatchFilter].
  rewrite <- !List.app_assoc. f_equal.
  destruct (length markup) eqn:E; [| reflexivity].
  now rewrite Nat.add_0_r.
Qed.

(** How the two insertions of [insertFormattingMarkup] move the selection
    from column [x] to column [y]. *)
Lemma adjust_formatted (before : QTextDocument) (x y n : nat) :
  x <> y ->
  let a := Nat.min x y in
  let b := Nat.max x y in
  adjustCursor (adjustInserted (positionAt before (b + n)) (Z.of_nat n))
    (adjustCursor (adjustInserted (positionAt before a) (Z.of_nat n))
       (mkCursor (positionAt before x) (positionAt before y)))
  = if (x <? y)%nat
    then mkCursor (positionAt before (x + n)) (positionAt before (y + n + n))
    else mkCursor (positionAt before (x + n + n)) (positionAt before (y + n)).
Proof.
  intros Hxy a b. subst a b.
  unfold adjustCursor, adjustInserted, positionAt. cbn [anchor position].
  destruct (Nat.ltb_spec x y);
    repeat match goal with
           | |- context [?p <? ?q] => destruct (Z.ltb_spec p q); try lia
           end; f_equal; lia.
Qed.

(** X12. [insertFormattingMarkup] with a selection inside a line puts the
    markup before and after the selected text. After a selection made from
    left to right the same text is selected; after one made from right to
    left the selection holds the two markups as well. *)
Theorem formatting_markup_wraps_selection
        (ed : MarkdownEditor) (before after : QTextDocument)
        (t : QString) (st : MarkdownState) (x y : nat) (markup : QString) :
  let a := Nat.min x y in
  let b := Nat.max x y in
  let n := length markup in
  let selected := firstn (b - a) (skipn a t) in
  document ed = before ++ mkBlock t st :: after ->
  textCursor ed = mkCursor (positionAt before x) (positionAt before y) ->
  x <> y -> (x <= length t)%nat -> (y <= length t)%nat ->
  markup <> [] -> noSeparator markup = true ->
  document (insertFormattingMarkup ed markup)
  = before ++ mkBlock (firstn a t ++ markup ++ selected ++ markup ++ skipn b t) st
           :: after
  /\ textCursor (insertFormattingMarkup ed markup)
     = (if (x <? y)%nat
        then mkCursor (positionAt before (x + n)) (positionAt before (y + n))
        else mkCursor (positionAt before (x + n + n)) (positionAt before y))
  /\ selectedText (document (insertFormattingMarkup ed markup))
                  (textCursor (insertFormattingMarkup ed markup))
     = (if (x <? y)%nat then selected else markup ++ selected ++ markup).
Proof.
  intros a b n selected Hdoc Hcur Hxy Hx Hy Hne Hm.
  assert (Hab : (a <= b <= length t)%nat) by (subst a b; lia).
  assert (Hsel : hasSelection (textCursor ed) = true).
  { rewrite Hcur. unfold hasSelection, positionAt. cbn [anchor position].
    apply negb_true_iff. apply Z.eqb_neq. lia. }
  assert (Hs : selectionStart (textCursor ed) = positionAt before a)
    by (rewrite Hcur; unfold selectionStart, positionAt; cbn [anchor position];
        subst a; lia).
  assert (He : selectionEnd (textCursor ed) = positionAt before b)
    by (rewrite Hcur; unfold selectionEnd, positionAt; cbn [anchor position];
        subst b; lia).
  assert (Hn : (0 < n)%nat) by (subst n; destruct markup; [congruence | cbn; lia]).
  set (t2 := firstn a t ++ markup ++ selected ++ markup ++ skipn b t).
  assert (Ht2 : firstn (b + n) (firstn a t ++ markup ++ skipn a t) ++ markup
                  ++ skipn (b + n) (firstn a t ++ markup ++ skipn a t)
                = t2).
  { assert (L : length (firstn a t ++ markup) = (a + n)%nat)
      by (rewrite length_app, firstn_length_le by lia; reflexivity).
    rewrite (List.app_assoc (firstn a t) markup).
    rewrite firstn_app, skipn_app, L.
    rewrite (firstn_all2 (firstn a t ++ markup)) by lia.
    rewrite (skipn_all2 (firstn a t ++ markup)) by lia.
    replace (b + n - (a + n))%nat with (b - a)%nat by lia.
    rewrite skipn_skipn. replace (b - a + a)%nat with b by lia.
    subst t2 selected. cbn [app]. now rewrite <- !List.app_assoc. }
  assert (G : insertFormattingMarkup ed markup
              = withText ed (before ++ mkBlock t2 st :: after)
                  (if (x <? y)%nat
                   then mkCursor (positionAt before (x + n))
                                 (positionAt before (y + n))
                   else mkCursor (positionAt before (x + n + n))
                                 (positionAt before y))).
  { unfold insertFormattingMarkup. cbv zeta. rewrite Hsel, Hs, He.
    cbn [setPosition]. fold (cursorAt before a).
    rewrite (insertText_at ed before after t st a Hdoc) by (lia || assumption).
    replace (positionAt before b + size markup) with (positionAt before (b + n))
      by (unfold positionAt, size; subst n; lia).
    fold (cursorAt before (b + n)).
    match goal with
    | |- context [insertText ?e _ _] =>
        rewrite (insertText_at e before after
                   (firstn a t ++ markup ++ skipn a t) st (b + n) eq_refl)
          by (assumption || (rewrite length_inserted by lia; subst n; lia))
    end.
    rewrite Ht2.
    cbn [document textCursor withText]. rewrite Hcur. unfold size. fold n.
    pose proof (adjust_formatted before x y n Hxy) as A. cbv zeta in A.
    fold a b in A. rewrite A. clear A.
    unfold setTextCursor, withText.
    cbn [document textCursor hemingwayModeEnabled autoMatchEnabled
         bulletPointCyclingEnabled insertSpacesForTabs tabWidth markupPairs
         autoMatchFilter].
    f_equal.
    destruct (Nat.ltb_spec x y).
    - rewrite (movePosition_PreviousCharacter _ before KeepAnchor _ n (y + n))
        by reflexivity.
      destruct n; [lia | reflexivity].
    - rewrite (movePosition_PreviousCharacter _ before KeepAnchor _ n y)
        by reflexivity.
      destruct n; [lia | reflexivity]. }
  rewrite G. cbn [document textCursor withText].
  split; [reflexivity |]. split; [reflexivity |].
  assert (La : length (firstn a t) = a) by (apply firstn_length_le; lia).
  assert (Ls : length selected = (b - a)%nat)
    by (subst selected; rewrite firstn_length_le;
        [reflexivity | rewrite length_skipn; lia]).
  assert (Lt2 : length t2 = (length t + n + n)%nat).
  { subst t2. rewrite !length_app, La, Ls, length_skipn. fold n. lia. }
  destruct (Nat.ltb_spec x y) as [Hlt | Hge].
  - assert (a = x /\ b = y) as [Ea Eb] by (subst a b; lia).
    rewrite (selectedText_here before after t2 st _ (x + n) (y + n));
      try (unfold selectionStart, selectionEnd, positionAt;
           cbn [anchor position]; lia).
    replace (y + n - (x + n))%nat with (b - a)%nat by lia.
    subst t2. rewrite List.app_assoc.
    replace (x + n)%nat with (length (firstn a t ++ markup))
      by (rewrite length_app, La; subst n; lia).
    rewrite skipn_app, skipn_all, Nat.sub_diag. cbn [skipn app].
    rewrite <- Ls. apply firstn_app_length.
  - assert (a = y /\ b = x) as [Ea Eb] by (subst a b; lia).
    rewrite (selectedText_here before after t2 st _ y (x + n + n));
      try (unfold selectionStart, selectionEnd, positionAt;
           cbn [anchor position]; lia).
    assert (K : skipn y t2 = markup ++ selected ++ markup ++ skipn b t).
    { subst t2. replace y with (length (firstn a t)) by lia.
      rewrite skipn_app, skipn_all, Nat.sub_diag. reflexivity. }
    rewrite K.
    replace (x + n + n - y)%nat with (length (markup ++ selected ++ markup))
      by (rewrite !length_app, Ls; subst n; lia).
    replace (markup ++ selected ++ markup ++ skipn b t)
      with ((markup ++ selected ++ markup) ++ skipn b t)
      by (now rewrite <- !List.app_assoc).
    apply firstn_app_length.
Qed.

(** X13. [insertComment] without selection inserts an empty comment and puts
    the cursor in the middle of it; with a selection inside a line it puts
    the selected text in a comment and leaves the cursor after the comment,
    without selection. *)
Theorem comment_surrounds_cursor_or_selection
        (ed : MarkdownEditor) (before after : QTextDocument)
        (t : QString) (st : MarkdownState) (x y : nat) :
  let a := Nat.min x y in
  let b := Nat.max x y in
  let selected := firstn (b - a) (skipn a t) in
  document ed = before ++ mkBlock t st :: after ->
  textCursor ed = mkCursor (positionAt before x) (positionAt before y) ->
  (x <= length t)%nat -> (y <= length t)%nat ->
  noSeparator t = true ->
  (x = y ->
   insertComment ed
   = withText ed
       (before ++ mkBlock (firstn x t ++ QLatin1String "<!--  -->" ++ skipn x t) st
               :: after)
       (cursorAt before (x + 5)))
  /\ (x <> y ->
      insertComment ed
      = withText ed
          (before ++ mkBlock (firstn a t ++ QLatin1String "<!-- " ++ selected
                                ++ QLatin1String " -->" ++ skipn b t) st
                  :: after)
          (cursorAt before (b + 9))).
Proof.
  intros a b selected Hdoc Hcur Hx Hy Ht. split.
  - intros <-. unfold insertComment. cbv zeta.
    fold (cursorAt before x) in Hcur. rewrite Hcur, hasSelection_cursorAt.
    rewrite (insertText_at ed before after t st x Hdoc Hx) by reflexivity.
    cbn [document withText].
    rewrite (movePosition_PreviousCharacter _ before MoveAnchor _ 4 (x + 5))
      by (cbn [position cursorAt length QLatin1String list_ascii_of_string map];
          f_equal; lia).
    cbn [setPosition]. reflexivity.
  - intros Hxy.
    assert (Hab : (a <= b <= length t)%nat) by (subst a b; lia).
    assert (Hsel : hasSelection (textCursor ed) = true).
    { rewrite Hcur. unfold hasSelection, positionAt. cbn [anchor position].
      apply negb_true_iff. apply Z.eqb_neq. lia. }
    assert (Hs : selectionStart (textCursor ed) = positionAt before a)
      by (rewrite Hcur; unfold selectionStart, positionAt; cbn [anchor position];
          subst a; lia).
    assert (He : selectionEnd (textCursor ed) = positionAt before b)
      by (rewrite Hcur; unfold selectionEnd, positionAt; cbn [anchor position];
          subst b; lia).
    assert (Ls : length selected = (b - a)%nat)
      by (subst selected; rewrite firstn_length_le;
          [reflexivity | rewrite length_skipn; lia]).
    unfold insertComment. cbv zeta. rewrite Hsel.
    rewrite Hdoc at 1.
    rewrite (selectedText_here before after t st _ a b Hs He Hab).
    fold selected.
    rewrite (insertText_here ed before after t st _ a b Hdoc Hs He Hab).
    2:{ rewrite !noSeparator_app. subst selected.
        rewrite noSeparator_firstn by now apply noSeparator_skipn.
        reflexivity. }
    cbn [fst]. rewrite <- !List.app_assoc. f_equal.
    rewrite Hcur. unfold size. rewrite !length_app, Ls.
    unfold adjustCursor, adjustInserted, adjustRemoved, cursorAt, positionAt.
    cbn [anchor position length QLatin1String list_ascii_of_string map].
    repeat match goal with
           | |- context [?p <? ?q] => destruct (Z.ltb_spec p q); try lia
           end; f_equal; lia.
Qed.

(** ** The slots that work on the blocks of the selection *)

Lemma withText_withText (ed : MarkdownEditor) (d d' : QTextDocument)
      (w w' : QTextCursor) :
  withText (withText ed d w) d' w' = withText ed d' w'.
Proof. reflexivity. Qed.

Lemma app_cons_middle {A : Type} (before : list A) (b : A) (rest : list A) :
  before ++ b :: rest = (before ++ [b]) ++ rest.
Proof. now rewrite <- List.app_assoc. Qed.

Lemma length_app_one {A : Type} (before : list A) (b : A) :
  length (before ++ [b]) = S (length before).
Proof. rewrite length_app. cbn [length]. lia. Qed.

(** The cursor a loop over blocks puts at the start of the block after the
    blocks [before]. *)
Lemma setPosition_blockPosition (cur : QTextCursor) (before after : QTextDocument)
      (t : QString) (st : MarkdownState) :
  setPosition cur
    (Z.of_nat (blockPosition (before ++ mkBlock t st :: after) (length before)))
    MoveAnchor
  = cursorAt before 0.
Proof.
  rewrite blockPosition_here. cbn [setPosition].
  unfold cursorAt, positionAt. now rewrite Nat.add_0_r.
Qed.

(** The block of the selection's start and the block of its end, when the
    selection goes from column [a] of the block after [before] to column
    [b] of the block [lastb], with the blocks [mid] between the two. Without
    a selection the two are the block of the cursor. *)
Lemma firstBlock_selected (ed : MarkdownEditor) (before mid after : QTextDocument)
      (lastb : QTextBlock) (a : nat) :
  document ed = before ++ mid ++ lastb :: after ->
  selectionStart (textCursor ed) = positionAt before a ->
  (a <= length (text (hd lastb mid)))%nat ->
  firstBlock ed = length before.
Proof.
  intros Hdoc Hstart Ha.
  assert (F : findBlock (document ed) (Z.to_nat (selectionStart (textCursor ed)))
              = length before).
  { rewrite Hdoc, Hstart, to_nat_positionAt.
    destruct mid as [| [t st] mid']; cbn [hd app] in *.
    - destruct lastb as [t st]. now apply findBlock_here.
    - now apply findBlock_here. }
  unfold firstBlock. cbv zeta.
  destruct (hasSelection (textCursor ed)) eqn:E; [exact F |].
  unfold cursorBlockNumber. rewrite <- F. f_equal. f_equal.
  unfold hasSelection in E. apply negb_false_iff, Z.eqb_eq in E.
  unfold selectionStart. lia.
Qed.

Lemma lastBlock_selected (ed : MarkdownEditor) (before mid after : QTextDocument)
      (lastb : QTextBlock) (b : nat) :
  document ed = before ++ mid ++ lastb :: after ->
  selectionEnd (textCursor ed) = positionAt (before ++ mid) b ->
  (b <= length (text lastb))%nat ->
  lastBlock ed = (length before + length mid)%nat.
Proof.
  intros Hdoc Hend Hb.
  assert (F : findBlock (document ed) (Z.to_nat (selectionEnd (textCursor ed)))
              = (length before + length mid)%nat).
  { rewrite Hdoc, Hend, to_nat_positionAt, List.app_assoc.
    destruct lastb as [t st]. rewrite <- length_app. now apply findBlock_here. }
  unfold lastBlock. cbv zeta.
  destruct (hasSelection (textCursor ed)) eqn:E; [exact F |].
  unfold cursorBlockNumber. rewrite <- F. f_equal. f_equal.
  unfold hasSelection in E. apply negb_false_iff, Z.eqb_eq in E.
  unfold selectionEnd. lia.
Qed.

Lemma selected_count (ed : MarkdownEditor) (before mid after : QTextDocument)
      (lastb : QTextBlock) (a b : nat) :
  document ed = before ++ mid ++ lastb :: after ->
  selectionStart (textCursor ed) = positionAt before a ->
  selectionEnd (textCursor ed) = positionAt (before ++ mid) b ->
  (a <= length (text (hd lastb mid)))%nat -> (b <= length (text lastb))%nat ->
  S (lastBlock ed - firstBlock ed) = length (mid ++ [lastb]).
Proof.
  intros Hdoc Hstart Hend Ha Hb.
  rewrite (firstBlock_selected ed before mid after lastb a) by assumption.
  rewrite (lastBlock_selected ed before mid after lastb b) by assumption.
  rewrite length_app_one. lia.
Qed.

(** The loop of [insertPrefixForBlocks] puts the prefix before the text of
    every block it visits. *)
Lemma prefixBlocks_blocks (prefix : QString) (blocks : QTextDocument) :
  noSeparator prefix = true ->
  forall (ed : MarkdownEditor) (cur : QTextCursor) (before after : QTextDocument),
    document ed = before ++ blocks ++ after ->
    exists w c',
      prefixBlocks ed cur prefix (length before) (length blocks)
      = (withText ed
           (before ++ map (fun blk => mkBlock (prefix ++ text blk) (userState blk))
                          blocks ++ after) w,
         c').
Proof.
  intros Hp. induction blocks as [| [t st] blocks IH];
    intros ed cur before after Hdoc.
  - exists (textCursor ed), cur. cbn [prefixBlocks length map app] in *.
    now rewrite <- Hdoc, withText_same.
  - cbn [app] in Hdoc. cbn [length prefixBlocks].
    rewrite Hdoc, setPosition_blockPosition.
    rewrite (insertText_at ed before (blocks ++ after) t st 0 Hdoc (Nat.le_0_l _))
      by assumption.
    cbn [firstn skipn app].
    match goal with
    | |- context [prefixBlocks ?e ?c _ _ _] =>
        destruct (IH e c (before ++ [mkBlock (prefix ++ t) st]) after)
          as [w [c' Hloop]];
        [cbn [document withText]; apply app_cons_middle |]
    end.
    rewrite length_app_one in Hloop. rewrite Hloop.
    exists w, c'. rewrite withText_withText. cbn [map userState text].
    now rewrite <- !List.app_assoc.
Qed.

(** X14. [insertPrefixForBlocks] puts the prefix at the start of every line
    from the line where the selection starts to the line where it ends, the
    line of the cursor when there is no selection, and changes no other
    line. *)
Theorem prefix_goes_before_every_selected_line
        (ed : MarkdownEditor) (before mid after : QTextDocument)
        (lastb : QTextBlock) (a b : nat) (prefix : QString) :
  document ed = before ++ mid ++ lastb :: after ->
  selectionStart (textCursor ed) = positionAt before a ->
  selectionEnd (textCursor ed) = positionAt (before ++ mid) b ->
  (a <= length (text (hd lastb mid)))%nat -> (b <= length (text lastb))%nat ->
  noSeparator prefix = true ->
  document (insertPrefixForBlocks ed prefix)
  = before
      ++ map (fun blk => mkBlock (prefix ++ text blk) (userState blk))
             (mid ++ [lastb])
      ++ after.
Proof.
  intros Hdoc Hstart Hend Ha Hb Hp. unfold insertPrefixForBlocks. cbv zeta.
  rewrite (selected_count ed before mid after lastb a b) by assumption.
  rewrite (firstBlock_selected ed before mid after lastb a) by assumption.
  destruct (prefixBlocks_blocks prefix (mid ++ [lastb]) Hp ed (textCursor ed)
              before after) as [w [c' Hloop]].
  - now rewrite <- List.app_assoc.
  - now rewrite Hloop.
Qed.

(** ** Numbered lists *)

Lemma noSeparator_cons (c : QChar) (s : QString) :
  noSeparator (c :: s) = negb (isBlockSeparator c) && noSeparator s.
Proof. reflexivity. Qed.

(** The loop of [createNumberedList] numbers the blocks it visits, from
    [k] on. *)
Lemma numberBlocks_blocks (marker : QChar) (blocks : QTextDocument) :
  isBlockSeparator marker = false ->
  forall (k : nat) (number : Z) (ed : MarkdownEditor) (cur : QTextCursor)
         (before after : QTextDocument),
    (blocks <> [] -> number = Z.of_nat k) ->
    Z.of_nat (k + length blocks) <= INT_MAX + 1 ->
    document ed = before ++ blocks ++ after ->
    exists w c',
      numberBlocks ed cur marker number (length before) (length blocks)
      = (withText ed
           (before
              ++ map (fun nb =>
                        mkBlock (QString_number (Z.of_nat (fst nb))
                                   ++ marker :: QLatin1String " " ++ text (snd nb))
                                (userState (snd nb)))
                     (combine (seq k (length blocks)) blocks)
              ++ after) w,
         c').
Proof.
  intros Hm. induction blocks as [| [t st] blocks IH];
    intros k number ed cur before after Hnumber Hk Hdoc.
  - exists (textCursor ed), cur. cbn [numberBlocks length map app seq combine] in *.
    now rewrite <- Hdoc, withText_same.
  - cbn [app] in Hdoc. cbn [length numberBlocks].
    rewrite (Hnumber ltac:(discriminate)).
    rewrite Hdoc, setPosition_blockPosition.
    rewrite (insertText_at ed before (blocks ++ after) t st 0 Hdoc (Nat.le_0_l _)).
    2:{ rewrite noSeparator_app, noSeparator_QString_number.
        rewrite noSeparator_cons, Hm. reflexivity. }
    cbn [firstn skipn app].
    match goal with
    | |- context [numberBlocks ?e ?c _ ?n _ _] =>
        destruct (IH (S k) n e c
                     (before ++ [mkBlock ((QString_number (Z.of_nat k)
                                             ++ marker :: QLatin1String " ") ++ t) st])
                     after)
          as [w [c' Hloop]];
        [| cbn [length] in Hk; lia
         | cbn [document withText]; apply app_cons_middle |]
    end.
    + intros Hne. cbn [length] in Hk.
      assert (0 < length blocks)%nat
        by (destruct blocks; [congruence | cbn [length]; lia]).
      unfold wrap_int, INT_MAX in *. rewrite Z.mod_small; lia.
    + rewrite length_app_one in Hloop. rewrite Hloop.
      exists w, c'. rewrite withText_withText.
      cbn [seq combine map fst snd userState text].
      rewrite <- !List.app_assoc. reflexivity.
Qed.

(** X15. [createNumberedList] puts a number, the marker and a blank at the
    start of every line of the selection, or of the line of the cursor: the
    numbers are 1, 2, 3 and so on in the order of the lines, for fewer
    lines than an [int] can count. *)
Theorem numbered_list_counts_selected_lines
        (ed : MarkdownEditor) (before mid after : QTextDocument)
        (lastb : QTextBlock) (a b : nat) (marker : QChar) :
  document ed = before ++ mid ++ lastb :: after ->
  selectionStart (textCursor ed) = positionAt before a ->
  selectionEnd (textCursor ed) = positionAt (before ++ mid) b ->
  (a <= length (text (hd lastb mid)))%nat -> (b <= length (text lastb))%nat ->
  isBlockSeparator marker = false ->
  Z.of_nat (length mid) < INT_MAX ->
  document (createNumberedList ed marker)
  = before
      ++ map (fun nb =>
                mkBlock (QString_number (Z.of_nat (fst nb))
                           ++ marker :: QLatin1String " " ++ text (snd nb))
                        (userState (snd nb)))
             (combine (seq 1 (S (length mid))) (mid ++ [lastb]))
      ++ after.
Proof.
  intros Hdoc Hstart Hend Ha Hb Hm Hmax. unfold createNumberedList. cbv zeta.
  rewrite (selected_count ed before mid after lastb a b) by assumption.
  rewrite (firstBlock_selected ed before mid after lastb a) by assumption.
  destruct (numberBlocks_blocks marker (mid ++ [lastb]) Hm 1 1 ed (textCursor ed)
              before after) as [w [c' Hloop]].
  - reflexivity.
  - rewrite length_app_one. lia.
  - now rewrite <- List.app_assoc.
  - rewrite Hloop. cbn [fst document withText]. now rewrite length_app_one.
Qed.

(** The decimal notation of a number holds the digits 0 to 9 only. *)
Lemma isAsciiDigit_digitsOfUint (u : Decimal.uint) :
  forallb isAsciiDigit (digitsOfUint u) = true.
Proof. induction u; cbn; auto. Qed.

Lemma isAsciiDigit_QString_number (n : Z) :
  0 <= n -> forallb isAsciiDigit (QString_number n) = true.
Proof.
  intros Hn. unfold QString_number.
  destruct (Z.to_int n) eqn:E; [apply isAsciiDigit_digitsOfUint |].
  destruct n; cbn in E; try discriminate. lia.
Qed.

Lemma QString_number_nonempty (n : Z) : 0 < n -> QString_number n <> [].
Proof.
  intros Hn E. pose proof (numberOfDigits_QString_number n) as N.
  rewrite E in N. cbn in N. lia.
Qed.

Lemma takeWhile_dropWhile_nil (p : QChar -> bool) (s : QString) :
  takeWhile p (dropWhile p s) = [].
Proof.
  induction s as [| c r IH]; [reflexivity |]. cbn [dropWhile].
  destruct (p c) eqn:E; [assumption |]. cbn [takeWhile]. now rewrite E.
Qed.

(** X16. A line that starts with the decimal notation of a positive [int],
    one of the markers [.] and [)] and a blank, as [createNumberedList]
    writes it, is matched by the numbered list pattern; the pattern captures
    the notation, and [toInt] reads the number back from it. *)
Theorem numbered_line_matches_numbered_list_pattern
        (n : Z) (marker : QChar) (t : QString) :
  0 < n <= INT_MAX -> isNumberPunct marker = true ->
  let number := QString_number n in
  numberedListRegex (number ++ marker :: QLatin1String " " ++ t)
  = Some (mkMatch (size number + 2 + size (takeWhile isSpace t)) number)
  /\ QString_toInt number = n.
Proof.
  intros Hn Hm number.
  pose proof (numberedListRegex_match [] (QString_number n)
                (QLatin1String " " ++ takeWhile isSpace t) (dropWhile isSpace t)
                marker eq_refl (QString_number_nonempty n ltac:(lia))
                (isAsciiDigit_QString_number n ltac:(lia)) Hm
                ltac:(discriminate)) as M.
  cbn [app] in M.
  rewrite <- List.app_assoc, takeWhile_dropWhile in M.
  specialize (M ltac:(cbn [QLatin1String list_ascii_of_string map app forallb];
                      apply takeWhile_forallb)
                (takeWhile_dropWhile_nil isSpace t)).
  split.
  - subst number. cbn [QLatin1String list_ascii_of_string map app] in *.
    rewrite M. do 2 f_equal.
    rewrite size_cons. change (size []) with 0. lia.
  - unfold QString_toInt. subst number.
    destruct (QString_number n) eqn:E;
      [now destruct (QString_number_nonempty n ltac:(lia)) |].
    rewrite <- E, numberOfDigits_QString_number by lia.
    now replace (n <=? INT_MAX) with true by zcompare.
Qed.

(** ** Blockquotes *)

(** The inner loop of [removeBlockquote] at the start of a block: it comes
    to its end, with the blanks the text started with deleted. *)
Lemma deleteSpaces_at (fuel : nat) :
  forall (t : QString) (ed : MarkdownEditor) (before after : QTextDocument)
         (st : MarkdownState),
    document ed = before ++ mkBlock t st :: after ->
    (length t <= fuel)%nat ->
    exists w,
      deleteSpaces fuel ed (cursorAt before 0)
      = (withText ed
           (before ++ mkBlock (dropWhile (fun c => c =? QLatin1Char " ") t) st
                   :: after) w,
         cursorAt before 0).
Proof.
  induction fuel as [| fuel IH]; intros t ed before after st Hdoc Hfuel.
  - destruct t; [| cbn [length] in Hfuel; lia].
    exists (textCursor ed). cbn [deleteSpaces dropWhile].
    now rewrite <- Hdoc, withText_same.
  - cbn [deleteSpaces cursorAt position]. rewrite to_nat_positionAt, Hdoc.
    destruct t as [| x r].
    + pose proof (characterAt_end after [] st before) as Hend.
      cbn [length] in Hend. rewrite Hend.
      change (ParagraphSeparator =? QLatin1Char " ") with false. cbv iota.
      exists (textCursor ed). cbn [dropWhile].
      now rewrite <- Hdoc, withText_same.
    + rewrite characterAt_here by (cbn [length]; lia).
      cbn [nth dropWhile]. destruct (x =? QLatin1Char " ") eqn:E.
      * rewrite (deleteChar_at ed before after x r st Hdoc).
        match goal with
        | |- context [deleteSpaces _ ?e _] =>
            destruct (IH r e before after st eq_refl) as [w Hw];
            [cbn [length] in Hfuel; lia |]
        end.
        exists w. now rewrite Hw.
      * exists (textCursor ed). now rewrite <- Hdoc, withText_same.
Qed.

(** The loop of [removeBlockquote]: a block that starts with [>] loses it
    and the blanks after it; any other block stays as it is. *)
Lemma unquoteBlocks_blocks (blocks : QTextDocument) :
  forall (ed : MarkdownEditor) (cur : QTextCursor) (before after : QTextDocument),
    document ed = before ++ blocks ++ after ->
    exists w c',
      unquoteBlocks ed cur (length before) (length blocks)
      = (withText ed
           (before
              ++ map (fun blk =>
                        mkBlock
                          (if hd QChar_null (text blk) =? QLatin1Char ">"
                           then dropWhile (fun c => c =? QLatin1Char " ")
                                          (tl (text blk))
                           else text blk)
                          (userState blk))
                     blocks
              ++ after) w,
         c').
Proof.
  induction blocks as [| [t st] blocks IH]; intros ed cur before after Hdoc.
  - exists (textCursor ed), cur. cbn [unquoteBlocks length map app] in *.
    now rewrite <- Hdoc, withText_same.
  - cbn [app] in Hdoc. cbn [length unquoteBlocks].
    rewrite Hdoc, setPosition_blockPosition.
    cbn [cursorAt position]. rewrite to_nat_positionAt.
    assert (Step :
              exists w c1,
                (if characterAt (before ++ mkBlock t st :: blocks ++ after)
                                (characterCount before + 0) =? QLatin1Char ">"
                 then
                   let (ed', c') := deleteChar ed (cursorAt before 0) in
                   deleteSpaces (characterCount (document ed')) ed' c'
                 else (ed, cursorAt before 0))
                = (withText ed
                     (before
                        ++ mkBlock
                             (if hd QChar_null t =? QLatin1Char ">"
                              then dropWhile (fun c => c =? QLatin1Char " ") (tl t)
                              else t) st
                        :: blocks ++ after) w,
                   c1)).
    { destruct t as [| x r].
      - pose proof (characterAt_end (blocks ++ after) [] st before) as Hend.
        cbn [length] in Hend. rewrite Hend.
        change (ParagraphSeparator =? QLatin1Char ">") with false.
        cbn [hd]. change (QChar_null =? QLatin1Char ">") with false. cbv iota.
        eexists (textCursor ed), _. now rewrite <- Hdoc, withText_same.
      - rewrite characterAt_here by (cbn [length]; lia).
        cbn [nth hd tl]. destruct (x =? QLatin1Char ">") eqn:E.
        + rewrite (deleteChar_at ed before (blocks ++ after) x r st Hdoc).
          match goal with
          | |- context [deleteSpaces ?f ?e _] =>
              destruct (deleteSpaces_at f r e before (blocks ++ after) st eq_refl)
                as [w Hw];
              [cbn [document withText]; rewrite characterCount_here; lia |]
          end.
          rewrite Hw. eexists w, _. now rewrite withText_withText.
        + eexists (textCursor ed), _. now rewrite <- Hdoc, withText_same. }
    destruct Step as [w1 [c1 Step]]. rewrite Step.
    match goal with
    | |- context [unquoteBlocks ?e ?c _ _] =>
        destruct (IH e c
                     (before
                        ++ [mkBlock
                              (if hd QChar_null t =? QLatin1Char ">"
                               then dropWhile (fun c => c =? QLatin1Char " ") (tl t)
                               else t) st])
                     after)
          as [w [c' Hloop]];
        [cbn [document withText]; apply app_cons_middle |]
    end.
    rewrite length_app_one in Hloop. rewrite Hloop.
    exists w, c'. rewrite withText_withText. cbn [map userState text].
    now rewrite <- !List.app_assoc.
Qed.

(** X17. [removeBlockquote] works line by line on the selection, or on the
    line of the cursor: a line whose first character is [>] loses it and the
    blanks that follow it; every other line, also one with blanks before the
    [>], is left as it is. *)
Theorem remove_blockquote_unquotes_selected_lines
        (ed : MarkdownEditor) (before mid after : QTextDocument)
        (lastb : QTextBlock) (a b : nat) :
  document ed = before ++ mid ++ lastb :: after ->
  selectionStart (textCursor ed) = positionAt before a ->
  selectionEnd (textCursor ed) = positionAt (before ++ mid) b ->
  (a <= length (text (hd lastb mid)))%nat -> (b <= length (text lastb))%nat ->
  document (removeBlockquote ed)
  = before
      ++ map (fun blk =>
                mkBlock
                  (if hd QChar_null (text blk) =? QLatin1Char ">"
                   then dropWhile (fun c => c =? QLatin1Char " ") (tl (text blk))
                   else text blk)
                  (userState blk))
             (mid ++ [lastb])
      ++ after.
Proof.
  intros Hdoc Hstart Hend Ha Hb. unfold removeBlockquote. cbv zeta.
  rewrite (selected_count ed before mid after lastb a b) by assumption.
  rewrite (firstBlock_selected ed before mid after lastb a) by assumption.
  destruct (unquoteBlocks_blocks (mid ++ [lastb]) ed (textCursor ed)
              before after) as [w [c' Hloop]].
  - now rewrite <- List.app_assoc.
  - now rewrite Hloop.
Qed.

Lemma selection_in_block (before : QTextDocument) (x y : nat) :
  selectionStart (mkCursor (positionAt before x) (positionAt before y))
  = positionAt before (Nat.min x y)
  /\ selectionEnd (mkCursor (positionAt before x) (positionAt before y))
     = positionAt before (Nat.max x y).
Proof.
  unfold selectionStart, selectionEnd, positionAt. cbn [anchor position].
  split; lia.
Qed.

(** ** Tasks *)

Lemma QString_startsWith_app (needle r : QString) :
  QString_startsWith (needle ++ r) needle = true.
Proof.
  induction needle as [| x needle IH]; [reflexivity |].
  cbn [app QString_startsWith]. now rewrite Z.eqb_refl.
Qed.

Lemma QString_indexOf_startsWith (s needle : QString) :
  QString_startsWith s needle = true -> QString_indexOf s needle = 0.
Proof. intros H. destruct s; cbn [QString_indexOf]; now rewrite H. Qed.

(** The first [- [] of a line is after its leading white space. *)
Lemma QString_indexOf_task (ws r : QString) :
  forallb isSpace ws = true ->
  QString_indexOf (ws ++ QLatin1String "- [" ++ r) (QLatin1String "- [")
  = size ws.
Proof.
  intros Hws. induction ws as [| c ws IH].
  - cbn [app]. apply QString_indexOf_startsWith, QString_startsWith_app.
  - cbn [forallb] in Hws. apply andb_prop in Hws. destruct Hws as [Hc Hws].
    cbn [app QString_indexOf].
    replace (QString_startsWith (c :: ws ++ QLatin1String "- [" ++ r)
                                (QLatin1String "- ["))
      with false.
    + rewrite (IH Hws). pose proof (size_nonneg ws).
      replace (size ws <? 0) with false by zcompare.
      rewrite size_cons. lia.
    + cbn [QLatin1String list_ascii_of_string map QString_startsWith].
      destruct (c =? QLatin1Char "-") eqn:E; [| reflexivity].
      apply Z.eqb_eq in E. subst c. discriminate Hc.
Qed.

Lemma deleteChar_here (ed : MarkdownEditor) (before after : QTextDocument)
      (t : QString) (st : MarkdownState) (p : nat) :
  document ed = before ++ mkBlock t st :: after -> (p < length t)%nat ->
  deleteChar ed (cursorAt before p)
  = (withText ed (before ++ mkBlock (firstn p t ++ skipn (S p) t) st :: after)
       (adjustCursor (adjustRemoved (positionAt before p) 1) (textCursor ed)),
     cursorAt before p).
Proof.
  intros Hdoc Hp. unfold deleteChar.
  rewrite hasSelection_cursorAt, Hdoc, characterCount_here.
  cbn [cursorAt position].
  replace (positionAt before p
           <? Z.of_nat (characterCount before + S (length t)
                        + characterCount after) - 1)
    with true by (unfold positionAt; zcompare).
  rewrite to_nat_positionAt.
  rewrite removeChars_here by lia.
  now replace (p + 1)%nat with (S p) by lia.
Qed.

(** The widget's cursor after the character at column [p] was replaced: a
    cursor right before the character is after it now. *)
Lemma adjust_toggled (before : QTextDocument) (x y p : nat) :
  adjustCursor (adjustInserted (positionAt before p) 1)
    (adjustCursor (adjustRemoved (positionAt before p) 1)
       (mkCursor (positionAt before x) (positionAt before y)))
  = mkCursor (positionAt before (if (x =? p)%nat then S p else x))
             (positionAt before (if (y =? p)%nat then S p else y)).
Proof.
  unfold adjustCursor, adjustInserted, adjustRemoved, positionAt.
  cbn [anchor position].
  destruct (Nat.eqb_spec x p), (Nat.eqb_spec y p);
    repeat match goal with
           | |- context [?a <? ?b] => destruct (Z.ltb_spec a b); try lia
           end; f_equal; lia.
Qed.

Lemma skipn_app_length (s r : QString) : skipn (length s) (s ++ r) = r.
Proof. now rewrite skipn_app, skipn_all, Nat.sub_diag. Qed.

(** The text after its character at column [length l] was deleted and
    another one inserted there. *)
Lemma replaced_middle (l r : QString) (v v' : QChar) :
  firstn (length l)
         (firstn (length l) (l ++ v :: r) ++ skipn (S (length l)) (l ++ v :: r))
    ++ [v']
    ++ skipn (length l)
             (firstn (length l) (l ++ v :: r) ++ skipn (S (length l)) (l ++ v :: r))
  = l ++ v' :: r.
Proof.
  rewrite firstn_app_length.
  replace (skipn (S (length l)) (l ++ v :: r)) with r.
  - now rewrite firstn_app_length, skipn_app_length.
  - rewrite (app_cons_middle l v r).
    replace (S (length l)) with (length (l ++ [v])) by apply length_app_one.
    now rewrite skipn_app_length.
Qed.

(** [toggleTaskComplete] on the line of the cursor, or of a selection inside
    one line, when the line is a task. *)
Lemma toggleTaskComplete_line (ed : MarkdownEditor)
      (before after : QTextDocument) (ws ws2 rest : QString) (v : QChar)
      (x y : nat) :
  let t := ws ++ QLatin1String "- [" ++ v :: QLatin1Char "]" :: ws2 ++ rest in
  let v' := if v =? QLatin1Char "x" then QLatin1Char " " else QLatin1Char "x" in
  let t' := ws ++ QLatin1String "- [" ++ v' :: QLatin1Char "]" :: ws2 ++ rest in
  let p := (length ws + 3)%nat in
  document ed = before ++ mkBlock t MarkdownStateBulletPointList :: after ->
  textCursor ed = mkCursor (positionAt before x) (positionAt before y) ->
  (x <= length t)%nat -> (y <= length t)%nat ->
  forallb isSpace ws = true ->
  v = QLatin1Char "x" \/ v = QLatin1Char " " ->
  ws2 <> [] -> forallb isSpace ws2 = true ->
  takeWhile isSpace rest = [] ->
  toggleTaskComplete ed
  = (true,
     withText ed (before ++ mkBlock t' MarkdownStateBulletPointList :: after)
       (mkCursor (positionAt before (if (x =? p)%nat then S p else x))
                 (positionAt before (if (y =? p)%nat then S p else y)))).
Proof.
  intros t v' t' p Hdoc Hcur Hx Hy Hws Hv Hne Hws2 Hrest.
  assert (Hm := taskListRegex_item ws ws2 rest v Hws Hv Hne Hws2 Hrest).
  fold t in Hm.
  assert (Hlen : length t = (p + S (S (length (ws2 ++ rest))))%nat).
  { subst t p. rewrite length_app.
    cbn [QLatin1String list_ascii_of_string map app length]. lia. }
  assert (Ht : t = (ws ++ QLatin1String "- [") ++ v
                     :: QLatin1Char "]" :: ws2 ++ rest)
    by (subst t; now rewrite <- List.app_assoc).
  assert (Lp : length (ws ++ QLatin1String "- [") = p)
    by (subst p; rewrite length_app; reflexivity).
  destruct (selection_in_block before x y) as [S1 S2].
  unfold toggleTaskComplete. cbv zeta. f_equal.
  rewrite (firstBlock_selected ed before [] after
             (mkBlock t MarkdownStateBulletPointList) (Nat.min x y));
    try (rewrite Hcur, ?List.app_nil_r; assumption);
    try (cbn [hd text]; lia); try assumption.
  rewrite (lastBlock_selected ed before [] after
             (mkBlock t MarkdownStateBulletPointList) (Nat.max x y));
    try (rewrite Hcur, ?List.app_nil_r; assumption);
    try (cbn [hd text]; lia); try assumption.
  cbn [length]. rewrite Nat.add_0_r, Nat.sub_diag. cbn [toggleBlocks].
  rewrite Hdoc, blockAt_here. cbn [userState text].
  rewrite capturedTexts_length. unfold capturedTexts. rewrite Hm.
  cbn [Nat.eqb nth cap1]. unfold QString_at at 1. cbn [Z.to_nat nth].
  fold v'.
  replace (QString_indexOf t (QLatin1String "- [")) with (size ws)
    by (subst t; now rewrite QString_indexOf_task).
  pose proof (size_nonneg ws).
  replace (0 <=? size ws) with true by zcompare.
  replace (Z.to_nat (size ws + 3)) with p by (subst p; unfold size; lia).
  rewrite setPosition_blockPosition.
  rewrite movePosition_StartOfBlock_at by lia.
  rewrite movePosition_Right_at by (cbn [Nat.add]; lia).
  cbn [Nat.add].
  rewrite (deleteChar_here ed before after t _ p Hdoc) by lia.
  match goal with
  | |- context [insertText ?e _ _] =>
      rewrite (insertText_at e before after (firstn p t ++ skipn (S p) t)
                 MarkdownStateBulletPointList p eq_refl)
  end.
  2:{ rewrite length_app, firstn_length_le, length_skipn by lia. lia. }
  2:{ subst v'. now destruct (v =? QLatin1Char "x"). }
  cbn [fst]. rewrite withText_withText. cbn [textCursor withText].
  rewrite Hcur. change (size [v']) with (Z.of_nat 1).
  rewrite adjust_toggled. f_equal. do 3 f_equal.
  rewrite Ht, <- Lp. subst t'.
  rewrite (List.app_assoc ws). apply replaced_middle.
Qed.

(** X18. [toggleTaskComplete] on a task, the cursor or the selection inside
    its line, checks an unchecked box and unchecks a checked one, changes
    nothing else and answers [true]; toggling twice, the state of the block
    being the same, gives the text back. *)
Theorem toggle_task_complete_twice
        (ed : MarkdownEditor) (before after : QTextDocument)
        (ws ws2 rest : QString) (v : QChar) (x y : nat) :
  let t := ws ++ QLatin1String "- [" ++ v :: QLatin1Char "]" :: ws2 ++ rest in
  let v' := if v =? QLatin1Char "x" then QLatin1Char " " else QLatin1Char "x" in
  let t' := ws ++ QLatin1String "- [" ++ v' :: QLatin1Char "]" :: ws2 ++ rest in
  document ed = before ++ mkBlock t MarkdownStateBulletPointList :: after ->
  textCursor ed = mkCursor (positionAt before x) (positionAt before y) ->
  (x <= length t)%nat -> (y <= length t)%nat ->
  forallb isSpace ws = true ->
  v = QLatin1Char "x" \/ v = QLatin1Char " " ->
  ws2 <> [] -> forallb isSpace ws2 = true ->
  takeWhile isSpace rest = [] ->
  fst (toggleTaskComplete ed) = true
  /\ document (snd (toggleTaskComplete ed))
     = before ++ mkBlock t' MarkdownStateBulletPointList :: after
  /\ document (snd (toggleTaskComplete (snd (toggleTaskComplete ed))))
     = document ed.
Proof.
  intros t v' t' Hdoc Hcur Hx Hy Hws Hv Hne Hws2 Hrest.
  assert (H1 := toggleTaskComplete_line ed before after ws ws2 rest v x y
                  Hdoc Hcur Hx Hy Hws Hv Hne Hws2 Hrest).
  cbv zeta in H1. fold v' t' in H1. rewrite H1. cbn [fst snd].
  split; [reflexivity |]. split; [reflexivity |].
  set (p := (length ws + 3)%nat) in *.
  assert (Hlen : length t' = length t)
    by (subst t t'; rewrite !length_app; reflexivity).
  assert (Hp : (S p <= length t)%nat).
  { subst t p. rewrite length_app.
    cbn [QLatin1String list_ascii_of_string map app length]. lia. }
  assert (Hv' : v' = QLatin1Char "x" \/ v' = QLatin1Char " ")
    by (subst v'; destruct Hv as [-> | ->]; cbn; auto).
  match goal with
  | |- context [toggleTaskComplete ?e] =>
      assert (H2 := toggleTaskComplete_line e before after ws ws2 rest v'
                      (if (x =? p)%nat then S p else x)
                      (if (y =? p)%nat then S p else y)
                      eq_refl eq_refl)
  end.
  cbv zeta in H2. fold t' in H2.
  assert (Bx : ((if (x =? p)%nat then S p else x) <= length t')%nat)
    by (rewrite Hlen; destruct (x =? p)%nat; lia).
  assert (By : ((if (y =? p)%nat then S p else y) <= length t')%nat)
    by (rewrite Hlen; destruct (y =? p)%nat; lia).
  rewrite (H2 Bx By Hws Hv' Hne Hws2 Hrest).
  cbn [snd document withText]. rewrite Hdoc. do 3 f_equal. subst t v'.
  destruct Hv as [-> | ->]; reflexivity.
Qed.

(** X19. [toggleTaskComplete] on a line that is no bullet list item, or that
    the task pattern does not match, changes nothing, the cursor included,
    and still answers [true]. *)
Theorem toggle_task_complete_ignores_other_lines
        (ed : MarkdownEditor) (before after : QTextDocument)
        (t : QString) (st : MarkdownState) (x y : nat) :
  document ed = before ++ mkBlock t st :: after ->
  textCursor ed = mkCursor (positionAt before x) (positionAt before y) ->
  (x <= length t)%nat -> (y <= length t)%nat ->
  st <> MarkdownStateBulletPointList \/ taskListRegex t = None ->
  toggleTaskComplete ed = (true, ed).
Proof.
  intros Hdoc Hcur Hx Hy Hother.
  destruct (selection_in_block before x y) as [S1 S2].
  unfold toggleTaskComplete. cbv zeta. f_equal.
  rewrite (firstBlock_selected ed before [] after (mkBlock t st) (Nat.min x y));
    try (rewrite Hcur, ?List.app_nil_r; assumption);
    try (cbn [hd text]; lia); try assumption.
  rewrite (lastBlock_selected ed before [] after (mkBlock t st) (Nat.max x y));
    try (rewrite Hcur, ?List.app_nil_r; assumption);
    try (cbn [hd text]; lia); try assumption.
  cbn [length]. rewrite Nat.add_0_r, Nat.sub_diag. cbn [toggleBlocks].
  rewrite Hdoc, blockAt_here. cbn [userState text].
  destruct Hother as [Hst | Hno].
  - destruct st; try reflexivity. congruence.
  - rewrite Hno. now destruct st.
Qed.

(** ** Tab and Shift+Tab over a selection *)

(** The loop of [indentText] puts one indentation before the text of every
    block it visits. *)
Lemma indentBlocks_blocks (unit : QString) (blocks : QTextDocument) :
  forall (ed : MarkdownEditor) (cur : QTextCursor) (before after : QTextDocument),
    indentationUnit ed = unit ->
    document ed = before ++ blocks ++ after ->
    exists w c',
      indentBlocks ed cur (length before) (length blocks)
      = (withText ed
           (before ++ map (fun blk => mkBlock (unit ++ text blk) (userState blk))
                          blocks ++ after) w,
         c').
Proof.
  induction blocks as [| [t st] blocks IH];
    intros ed cur before after Hunit Hdoc.
  - exists (textCursor ed), cur. cbn [indentBlocks length map app] in *.
    now rewrite <- Hdoc, withText_same.
  - cbn [app] in Hdoc. cbn [length indentBlocks].
    rewrite Hdoc, setPosition_blockPosition.
    fold (indentationUnit ed). rewrite Hunit.
    rewrite (insertText_at ed before (blocks ++ after) t st 0 Hdoc (Nat.le_0_l _))
      by (rewrite <- Hunit; apply noSeparator_indentationUnit).
    cbn [firstn skipn app].
    match goal with
    | |- context [indentBlocks ?e ?c _ _] =>
        destruct (IH e c (before ++ [mkBlock (unit ++ t) st]) after)
          as [w [c' Hloop]];
        [exact Hunit | cbn [document withText]; apply app_cons_middle |]
    end.
    rewrite length_app_one in Hloop. rewrite Hloop.
    exists w, c'. rewrite withText_withText. cbn [map userState text].
    now rewrite <- !List.app_assoc.
Qed.

(** X20. Tab with a selection puts one unit of indentation, a tabulation or
    [tabWidth] blanks, at the start of every line the selection touches,
    whatever the states of the blocks, and replaces no text. *)
Theorem tab_indents_every_selected_line
        (ed : MarkdownEditor) (e : QKeyEvent) (before mid after : QTextDocument)
        (lastb : QTextBlock) (a b : nat) :
  key e = Key_Tab ->
  hasSelection (textCursor ed) = true ->
  document ed = before ++ mid ++ lastb :: after ->
  selectionStart (textCursor ed) = positionAt before a ->
  selectionEnd (textCursor ed) = positionAt (before ++ mid) b ->
  (a <= length (text (hd lastb mid)))%nat -> (b <= length (text lastb))%nat ->
  document (keyPressEvent ed e)
  = before
      ++ map (fun blk => mkBlock (indentationUnit ed ++ text blk) (userState blk))
             (mid ++ [lastb])
      ++ after.
Proof.
  intros Hkey Hsel Hdoc Hstart Hend Ha Hb.
  pose proof (firstBlock_selected ed before mid after lastb a Hdoc Hstart Ha) as F.
  pose proof (lastBlock_selected ed before mid after lastb b Hdoc Hend Hb) as L.
  unfold firstBlock, lastBlock in F, L. cbv zeta in F, L. rewrite Hsel in F, L.
  unfold keyPressEvent. rewrite Hkey. unfold indentText. cbv zeta.
  rewrite Hsel, F, L.
  replace (S (length before + length mid - length before))
    with (length (mid ++ [lastb])) by (rewrite length_app_one; lia).
  destruct (indentBlocks_blocks (indentationUnit ed) (mid ++ [lastb]) ed
              (textCursor ed) before after eq_refl) as [w [c' Hloop]].
  - now rewrite <- List.app_assoc.
  - now rewrite Hloop.
Qed.

(** The inner loop of [unindentText] at the start of a block: it deletes the
    blanks the text starts with, [k] of them at most. *)
Lemma deleteBlanks_count (k : nat) :
  forall (t : QString) (ed : MarkdownEditor) (before after : QTextDocument)
         (st : MarkdownState),
    document ed = before ++ mkBlock t st :: after ->
    exists w,
      deleteBlanks k ed (cursorAt before 0)
      = (withText ed
           (before
              ++ mkBlock
                   (skipn (Nat.min k (length (takeWhile
                                                (fun c => c =? QLatin1Char " ") t)))
                          t) st
              :: after) w,
         cursorAt before 0).
Proof.
  induction k as [| k IH]; intros t ed before after st Hdoc.
  - exists (textCursor ed). cbn [deleteBlanks Nat.min skipn].
    now rewrite <- Hdoc, withText_same.
  - cbn [deleteBlanks cursorAt position]. rewrite to_nat_positionAt, Hdoc.
    destruct t as [| x r].
    + pose proof (characterAt_end after [] st before) as Hend.
      cbn [length] in Hend. rewrite Hend.
      change (ParagraphSeparator =? QLatin1Char " ") with false. cbv iota.
      exists (textCursor ed). cbn [takeWhile length Nat.min skipn].
      now rewrite <- Hdoc, withText_same.
    + rewrite characterAt_here by (cbn [length]; lia).
      cbn [nth takeWhile]. destruct (x =? QLatin1Char " ") eqn:E.
      * rewrite (deleteChar_at ed before after x r st Hdoc).
        match goal with
        | |- context [deleteBlanks _ ?e _] =>
            destruct (IH r e before after st eq_refl) as [w Hw]
        end.
        exists w. rewrite Hw. now cbn [length Nat.min skipn].
      * exists (textCursor ed). cbn [length Nat.min skipn].
        now rewrite <- Hdoc, withText_same.
Qed.

(** One turn of the loop of [unindentText]: the block loses the tabulation
    it starts with, or else the blanks it starts with, [tabWidth] of them at
    most. *)
Lemma unindentBlocks_turn (ed : MarkdownEditor) (cur : QTextCursor)
      (before after : QTextDocument) (t : QString) (st : MarkdownState) :
  document ed = before ++ mkBlock t st :: after ->
  let c1 := setPosition cur
              (Z.of_nat (blockPosition (document ed) (length before)))
              MoveAnchor in
  exists w,
    (if characterAt (document ed) (Z.to_nat (position c1)) =? Tab
     then deleteChar ed c1
     else deleteBlanks (Z.to_nat (tabWidth ed)) ed c1)
    = (withText ed
         (before
            ++ mkBlock
                 (if hd QChar_null t =? Tab then tl t
                  else skipn (Nat.min (Z.to_nat (tabWidth ed))
                                      (length (takeWhile
                                                 (fun c => c =? QLatin1Char " ") t)))
                             t) st
            :: after) w,
       cursorAt before 0).
Proof.
  intros Hdoc c1. subst c1. rewrite Hdoc, setPosition_blockPosition.
  cbn [cursorAt position]. rewrite to_nat_positionAt.
  destruct t as [| x r].
  - pose proof (characterAt_end after [] st before) as Hend.
    cbn [length] in Hend. rewrite Hend.
    change (ParagraphSeparator =? Tab) with false. cbn [hd].
    change (QChar_null =? Tab) with false. cbv iota.
    apply (deleteBlanks_count _ [] ed before after st Hdoc).
  - rewrite characterAt_here by (cbn [length]; lia).
    cbn [nth hd tl]. destruct (x =? Tab) eqn:E.
    + rewrite (deleteChar_at ed before after x r st Hdoc). eexists. reflexivity.
    + apply (deleteBlanks_count _ (x :: r) ed before after st Hdoc).
Qed.

Lemma unindentBlocks_S (ed : MarkdownEditor) (cur : QTextCursor) (i k : nat) :
  unindentBlocks ed cur i (S k)
  = let c1 := setPosition cur (Z.of_nat (blockPosition (document ed) i))
                          MoveAnchor in
    let (ed1, c2) :=
      if characterAt (document ed) (Z.to_nat (position c1)) =? Tab
      then deleteChar ed c1
      else deleteBlanks (Z.to_nat (tabWidth ed)) ed c1 in
    unindentBlocks ed1 c2 (S i) k.
Proof. reflexivity. Qed.

(** The loop of [unindentText] over the blocks [mid] and then [lastb]; the
    cursor ends at the start of the last one. *)
Lemma unindentBlocks_blocks (tw : Z) (lastb : QTextBlock) (mid : QTextDocument) :
  forall (ed : MarkdownEditor) (cur : QTextCursor) (before after : QTextDocument),
    tabWidth ed = tw ->
    document ed = before ++ mid ++ lastb :: after ->
    let unindent := fun blk =>
      mkBlock
        (if hd QChar_null (text blk) =? Tab then tl (text blk)
         else skipn (Nat.min (Z.to_nat tw)
                             (length (takeWhile (fun c => c =? QLatin1Char " ")
                                                (text blk))))
                    (text blk))
        (userState blk) in
    exists w,
      unindentBlocks ed cur (length before) (S (length mid))
      = (withText ed
           (before ++ map unindent mid ++ unindent lastb :: after) w,
         cursorAt (before ++ map unindent mid) 0).
Proof.
  induction mid as [| [t st] mid IH]; intros ed cur before after Htw Hdoc unindent.
  - destruct lastb as [t st]. cbn [app] in Hdoc. cbn [length].
    rewrite unindentBlocks_S. cbv zeta.
    destruct (unindentBlocks_turn ed cur before after t st Hdoc) as [w Hw].
    cbv zeta in Hw. rewrite Hw. exists w. cbn [map app]. rewrite List.app_nil_r.
    subst unindent. cbn [text userState]. now rewrite Htw.
  - cbn [app] in Hdoc. cbn [length].
    rewrite unindentBlocks_S. cbv zeta.
    destruct (unindentBlocks_turn ed cur before (mid ++ lastb :: after) t st Hdoc)
      as [w1 Hw1].
    cbv zeta in Hw1. rewrite Hw1. cbv beta iota.
    match goal with
    | |- context [unindentBlocks ?e ?c _ _] =>
        destruct (IH e c (before ++ [unindent (mkBlock t st)]) after)
          as [w Hloop];
        [exact Htw
        | cbn [document withText]; subst unindent; cbn [text userState];
          rewrite Htw; apply app_cons_middle |]
    end.
    rewrite length_app_one in Hloop. rewrite Hloop.
    exists w. rewrite withText_withText. cbn [map].
    now rewrite <- !List.app_assoc.
Qed.

Lemma noSeparator_tl (s : QString) :
  noSeparator s = true -> noSeparator (tl s) = true.
Proof. apply (noSeparator_skipn 1). Qed.

(** [unindentText] on a selection, or on the line of the cursor. *)
Lemma unindentText_selected
      (ed : MarkdownEditor) (before mid after : QTextDocument)
      (lastb : QTextBlock) (a b : nat) :
  let unindented := fun t =>
    if hd QChar_null t =? Tab then tl t
    else skipn (Nat.min (Z.to_nat (tabWidth ed))
                        (length (takeWhile (fun c => c =? QLatin1Char " ") t)))
               t in
  let cycled := fun t =>
    if exactMatch bulletListRegex t && bulletPointCyclingEnabled ed
    then QString_replace t (QString_at (QString_trimmed t) 0)
           (previousBulletPoint (QString_at (QString_trimmed t) 0))
    else t in
  document ed = before ++ mid ++ lastb :: after ->
  selectionStart (textCursor ed) = positionAt before a ->
  selectionEnd (textCursor ed) = positionAt (before ++ mid) b ->
  (a <= length (text (hd lastb mid)))%nat -> (b <= length (text lastb))%nat ->
  noSeparator (text lastb) = true ->
  document (unindentText ed)
  = before
      ++ map (fun blk => mkBlock (unindented (text blk)) (userState blk)) mid
      ++ mkBlock
           (match userState lastb with
            | MarkdownStateBulletPointList => cycled (unindented (text lastb))
            | _ => unindented (text lastb)
            end)
           (userState lastb)
      :: after.
Proof.
  intros unindented cycled Hdoc Hstart Hend Ha Hb Hlast.
  pose proof (firstBlock_selected ed before mid after lastb a Hdoc Hstart Ha) as F.
  pose proof (lastBlock_selected ed before mid after lastb b Hdoc Hend Hb) as L.
  unfold firstBlock, lastBlock in F, L. cbv zeta in F, L.
  unfold unindentText. cbv zeta.
  rewrite F, L.
  replace (length before + length mid - length before)%nat with (length mid)
    by lia.
  destruct (unindentBlocks_blocks (tabWidth ed) lastb mid ed (textCursor ed)
              before after eq_refl Hdoc) as [w Hloop].
  cbv zeta in Hloop. rewrite (List.app_assoc before) in Hloop.
  rewrite Hloop. clear Hloop.
  assert (Hun : noSeparator (unindented (text lastb)) = true).
  { subst unindented. cbv beta.
    destruct (hd QChar_null (text lastb) =? Tab);
      [now apply noSeparator_tl | now apply noSeparator_skipn]. }
  subst unindented cycled. cbv beta in *.
  rewrite (List.app_assoc before).
  set (before' := before ++ map _ mid).
  set (u := if hd QChar_null (text lastb) =? Tab then _ else _) in *.
  cbn [document withText bulletPointCyclingEnabled].
  rewrite cursorBlock_at by lia. cbn [userState text].
  destruct (userState lastb) eqn:Est; try reflexivity.
  destruct (exactMatch bulletListRegex u && bulletPointCyclingEnabled ed) eqn:E;
    [| reflexivity].
  rewrite selectBlock_at, selectedText_block by lia.
  match goal with
  | |- context [insertText ?e _ _] =>
      rewrite (insertText_block e before' after u
                 MarkdownStateBulletPointList eq_refl)
        by (apply noSeparator_QString_replace;
            [assumption
            | apply isBlockSeparator_bullet, isBulletChar_previous])
  end.
  reflexivity.
Qed.

(** X21. Shift+Tab removes from the start of every line of the selection, or
    of the line of the cursor, one tabulation, or else the blanks it starts
    with, [tabWidth] of them at most. The marker of an empty bullet point is
    cycled backwards in the last of these lines only. *)
Theorem shift_tab_unindents_every_selected_line
        (ed : MarkdownEditor) (e : QKeyEvent) (before mid after : QTextDocument)
        (lastb : QTextBlock) (a b : nat) :
  let unindented := fun t =>
    if hd QChar_null t =? Tab then tl t
    else skipn (Nat.min (Z.to_nat (tabWidth ed))
                        (length (takeWhile (fun c => c =? QLatin1Char " ") t)))
               t in
  let cycled := fun t =>
    if exactMatch bulletListRegex t && bulletPointCyclingEnabled ed
    then QString_replace t (QString_at (QString_trimmed t) 0)
           (previousBulletPoint (QString_at (QString_trimmed t) 0))
    else t in
  key e = Key_Backtab ->
  document ed = before ++ mid ++ lastb :: after ->
  selectionStart (textCursor ed) = positionAt before a ->
  selectionEnd (textCursor ed) = positionAt (before ++ mid) b ->
  (a <= length (text (hd lastb mid)))%nat -> (b <= length (text lastb))%nat ->
  noSeparator (text lastb) = true ->
  document (keyPressEvent ed e)
  = before
      ++ map (fun blk => mkBlock (unindented (text blk)) (userState blk)) mid
      ++ mkBlock
           (match userState lastb with
            | MarkdownStateBulletPointList => cycled (unindented (text lastb))
            | _ => unindented (text lastb)
            end)
           (userState lastb)
      :: after.
Proof.
  intros unindented cycled Hkey Hdoc Hstart Hend Ha Hb Hlast.
  unfold keyPressEvent. rewrite Hkey.
  now apply (unindentText_selected ed before mid after lastb a b).
Qed.

(** ** What a key leaves as it is

    An edit changes the text and the cursor of the editor: the editor after
    it is [withText ed d w] for a document [d] and a cursor [w]. *)

Lemma edits_refl (ed : MarkdownEditor) : exists d w, ed = withText ed d w.
Proof. exists (document ed), (textCursor ed). now rewrite withText_same. Qed.

Lemma edits_trans (ed ed1 ed2 : MarkdownEditor) :
  (exists d w, ed1 = withText ed d w) ->
  (exists d w, ed2 = withText ed1 d w) ->
  exists d w, ed2 = withText ed d w.
Proof. intros [d1 [w1 ->]] [d2 [w2 ->]]. now exists d2, w2. Qed.

Lemma removeSelectedText_edits (ed : MarkdownEditor) (c : QTextCursor) :
  exists d w, fst (removeSelectedText ed c) = withText ed d w.
Proof. unfold removeSelectedText. cbv zeta. cbn [fst]. eauto. Qed.

Lemma insertText_edits (ed : MarkdownEditor) (c : QTextCursor) (s : QString) :
  exists d w, fst (insertText ed c s) = withText ed d w.
Proof.
  unfold insertText, removeSelectedText. cbv zeta. cbn [fst].
  rewrite withText_withText. eauto.
Qed.

Lemma deleteChar_edits (ed : MarkdownEditor) (c : QTextCursor) :
  exists d w, fst (deleteChar ed c) = withText ed d w.
Proof.
  unfold deleteChar. destruct (hasSelection c);
    [apply removeSelectedText_edits |].
  destruct (position c <? _); cbn [fst]; [eauto | apply edits_refl].
Qed.

Lemma deletePreviousChar_edits (ed : MarkdownEditor) (c : QTextCursor) :
  exists d w, fst (deletePreviousChar ed c) = withText ed d w.
Proof.
  unfold deletePreviousChar. destruct (hasSelection c);
    [apply removeSelectedText_edits |].
  destruct (0 <? position c); [apply removeSelectedText_edits |].
  apply edits_refl.
Qed.

Lemma handleCarriageReturn_edits (ed : MarkdownEditor) :
  exists d w, handleCarriageReturn ed = withText ed d w.
Proof.
  unfold handleCarriageReturn. cbv zeta.
  destruct (if positionInBlock _ _ <? _ then _ else _) as [autoInsertText endList].
  destruct endList.
  - destruct (insertText ed _ (getPriorIndentation ed)) as [ed1 c3] eqn:E.
    apply (edits_trans ed ed1).
    + pose proof (insertText_edits ed
                    (movePosition (document ed)
                       (movePosition (document ed) (textCursor ed)
                                     StartOfBlock MoveAnchor 1)
                       EndOfBlock KeepAnchor 1)
                    (getPriorIndentation ed)) as H.
      now rewrite E in H.
    + apply insertText_edits.
  - apply insertText_edits.
Qed.

Lemma indentBlocks_edits (count : nat) :
  forall (ed : MarkdownEditor) (cur : QTextCursor) (i : nat),
    exists d w, fst (indentBlocks ed cur i count) = withText ed d w.
Proof.
  induction count as [| count IH]; intros ed cur i; cbn [indentBlocks].
  - apply edits_refl.
  - match goal with
    | |- context [insertText ?e ?c ?s] =>
        pose proof (insertText_edits e c s) as H;
        destruct (insertText e c s) as [ed1 c2]
    end.
    cbn [fst] in H. apply (edits_trans ed ed1); [exact H | apply IH].
Qed.

Lemma deleteBlanks_edits (fuel : nat) :
  forall (ed : MarkdownEditor) (cur : QTextCursor),
    exists d w, fst (deleteBlanks fuel ed cur) = withText ed d w.
Proof.
  induction fuel as [| fuel IH]; intros ed cur; cbn [deleteBlanks].
  - apply edits_refl.
  - destruct (characterAt _ _ =? _); [| apply edits_refl].
    pose proof (deleteChar_edits ed cur) as H.
    destruct (deleteChar ed cur) as [ed1 c1]. cbn [fst] in H.
    apply (edits_trans ed ed1); [exact H | apply IH].
Qed.

Lemma unindentBlocks_edits (count : nat) :
  forall (ed : MarkdownEditor) (cur : QTextCursor) (i : nat),
    exists d w, fst (unindentBlocks ed cur i count) = withText ed d w.
Proof.
  induction count as [| count IH]; intros ed cur i.
  - apply edits_refl.
  - rewrite unindentBlocks_S. cbv zeta.
    match goal with
    | |- context [let (_, _) := ?turn in _] =>
        assert (H : exists d w, fst turn = withText ed d w)
          by (destruct (characterAt _ _ =? _);
              [apply deleteChar_edits | apply deleteBlanks_edits]);
        destruct turn as [ed1 c2]
    end.
    cbn [fst] in H. apply (edits_trans ed ed1); [exact H | apply IH].
Qed.

Lemma indentText_edits (ed : MarkdownEditor) :
  exists d w, indentText ed = withText ed d w.
Proof.
  unfold indentText. cbv zeta. destruct (hasSelection (textCursor ed));
    [apply indentBlocks_edits |].
  assert (H : exists d w, fst (fst (indentSwitch ed (textCursor ed)))
                          = withText ed d w).
  { unfold indentSwitch. cbv zeta.
    destruct (userState _); try (cbn [fst]; apply edits_refl).
    - destruct (exactMatch _ _ && _); [| cbn [fst]; apply edits_refl].
      match goal with
      | |- context [insertText ?e ?c ?s] =>
          pose proof (insertText_edits e c s) as H;
          destruct (insertText e c s) as [ed1 c3]
      end.
      exact H.
    - destruct (exactMatch bulletListRegex _).
      + destruct (bulletPointCyclingEnabled ed).
        * match goal with
          | |- context [insertText ?e ?c ?s] =>
              pose proof (insertText_edits e c s) as H;
              destruct (insertText e c s) as [ed1 c3]
          end.
          exact H.
        * cbn [fst]. apply edits_refl.
      + destruct (exactMatch taskListRegex _); cbn [fst]; apply edits_refl. }
  destruct (indentSwitch ed (textCursor ed)) as [[ed1 c1] indent].
  cbn [fst] in H. apply (edits_trans ed ed1); [exact H | apply insertText_edits].
Qed.

Lemma unindentText_edits (ed : MarkdownEditor) :
  exists d w, unindentText ed = withText ed d w.
Proof.
  unfold unindentText. cbv zeta.
  match goal with
  | |- context [unindentBlocks ?e ?c ?i ?n] =>
      pose proof (unindentBlocks_edits n e c i) as H;
      destruct (unindentBlocks e c i n) as [ed1 c1]
  end.
  cbn [fst] in H.
  destruct (userState _); try exact H.
  destruct (exactMatch _ _ && _); [| exact H].
  apply (edits_trans ed ed1); [exact H | apply insertText_edits].
Qed.

Lemma setTextCursor_edits (ed ed1 : MarkdownEditor) (c : QTextCursor) :
  (exists d w, ed1 = withText ed d w) ->
  exists d w, setTextCursor ed1 c = withText ed d w.
Proof. intros [d [w ->]]. unfold setTextCursor. rewrite withText_withText. eauto. Qed.

Lemma insertPairedCharacters_edits (ed : MarkdownEditor) (firstChar : QChar) :
  exists d w, snd (insertPairedCharacters ed firstChar) = withText ed d w.
Proof.
  unfold insertPairedCharacters. cbv zeta.
  destruct (hash_contains _ _); [| apply edits_refl].
  destruct (hasSelection _).
  - destruct (_ =? _)%nat; [| apply edits_refl].
    match goal with
    | |- context [insertText ed ?c ?s] =>
        pose proof (insertText_edits ed c s) as H1;
        destruct (insertText ed c s) as [ed1 c2]
    end.
    match goal with
    | |- context [insertText ed1 ?c ?s] =>
        pose proof (insertText_edits ed1 c s) as H2;
        destruct (insertText ed1 c s) as [ed2 c4]
    end.
    cbn [fst snd] in *. apply setTextCursor_edits.
    now apply (edits_trans ed ed1).
  - destruct (autoMatchEnabled ed && _); [| apply edits_refl].
    match goal with
    | |- context [insertText ed ?c ?s] =>
        pose proof (insertText_edits ed c s) as H1;
        destruct (insertText ed c s) as [ed1 c2]
    end.
    match goal with
    | |- context [insertText ed1 ?c ?s] =>
        pose proof (insertText_edits ed1 c s) as H2;
        destruct (insertText ed1 c s) as [ed2 c4]
    end.
    cbn [fst snd] in *. apply setTextCursor_edits.
    now apply (edits_trans ed ed1).
Qed.

Lemma handleEndPairCharacterTyped_edits (ed : MarkdownEditor) (ch : QChar) :
  exists d w, snd (handleEndPairCharacterTyped ed ch) = withText ed d w.
Proof.
  unfold handleEndPairCharacterTyped. cbv zeta.
  destruct (if autoMatchEnabled ed && _ then _ else _); [| apply edits_refl].
  destruct (_ && _); [| apply edits_refl].
  cbn [snd]. apply setTextCursor_edits, edits_refl.
Qed.

Lemma QPlainTextEdit_keyPressEvent_edits (ed : MarkdownEditor) (e : QKeyEvent) :
  exists d w, QPlainTextEdit_keyPressEvent ed e = withText ed d w.
Proof.
  unfold QPlainTextEdit_keyPressEvent. cbv zeta.
  destruct (key e); try apply edits_refl;
    try (apply setTextCursor_edits;
         first [apply insertText_edits | apply deleteChar_edits
               | apply deletePreviousChar_edits]).
  destruct (isEmpty _); [apply edits_refl |].
  apply setTextCursor_edits, insertText_edits.
Qed.

Lemma removeFromBacktrackIndex_edits (ed : MarkdownEditor) (cur : QTextCursor)
      (index : Z) :
  exists d w, snd (removeFromBacktrackIndex ed cur index) = withText ed d w.
Proof.
  unfold removeFromBacktrackIndex. destruct (0 <=? index); [| apply edits_refl].
  cbn [snd]. apply removeSelectedText_edits.
Qed.

Lemma hash_contains_insert_other {T : Type} (h : QHash T) (k k' : QChar) (v : T) :
  hash_contains h k' = true -> hash_contains (hash_insert h k v) k' = true.
Proof.
  induction h as [| [k0 v0] h IH]; cbn [hash_contains hash_insert];
    [discriminate |].
  destruct (k0 =? k) eqn:E; cbn [hash_contains].
  - apply Z.eqb_eq in E. subst k0. auto.
  - intros H. apply orb_prop in H. destruct H as [H | H].
    + now rewrite H.
    + rewrite (IH H). apply orb_true_r.
Qed.

(** Reading the table with [operator[]] keeps the entries it has. *)
Lemma hash_index_keeps (h : QHash QChar) (k k' : QChar) :
  hash_contains h k' = true ->
  hash_contains (snd (hash_index QChar_null h k)) k' = true
  /\ hash_value QChar_null (snd (hash_index QChar_null h k)) k'
     = hash_value QChar_null h k'.
Proof.
  intros Hk'. unfold hash_index. destruct (hash_contains h k) eqn:E; cbn [snd].
  - now split.
  - split; [now apply hash_contains_insert_other |].
    apply hash_value_insert_other. intros ->. congruence.
Qed.

Lemma handleBackspaceKey_edits (ed : MarkdownEditor) :
  exists d w k,
    snd (handleBackspaceKey ed)
    = withText (withMarkupPairs ed (snd (hash_index QChar_null (markupPairs ed) k)))
               d w
    \/ snd (handleBackspaceKey ed) = withText ed d w.
Proof.
  unfold handleBackspaceKey. cbv zeta.
  destruct (hasSelection _).
  { exists (document ed), (textCursor ed), QChar_null. right.
    cbn [snd]. now rewrite withText_same. }
  destruct (userState _);
    try (destruct (removeFromBacktrackIndex_edits ed (textCursor ed)
                     (backtrackIndex (cursorBlock (document ed) (textCursor ed))))
           as [d [w H]];
         exists d, w, QChar_null; now right).
  destruct (autoMatchEnabled ed && _).
  - match goal with
    | |- context [hash_index QChar_null (markupPairs ed) ?k] =>
        set (prev := k);
        destruct (hash_index QChar_null (markupPairs ed) prev)
          as [closing pairs] eqn:E
    end.
    assert (Hp : pairs = snd (hash_index QChar_null (markupPairs ed) prev))
      by now rewrite E.
    destruct (closing =? _).
    + cbn [snd].
      match goal with
      | |- context [removeSelectedText ?e ?c] =>
          destruct (removeSelectedText_edits e c) as [d [w H]]
      end.
      exists d, w, prev. left. now rewrite H, Hp.
    + match goal with
      | |- context [removeFromBacktrackIndex ?e ?c ?i] =>
          destruct (removeFromBacktrackIndex_edits e c i) as [d [w H]]
      end.
      exists d, w, prev. left. now rewrite H, Hp.
  - destruct (removeFromBacktrackIndex_edits ed (textCursor ed) (-1))
      as [d [w H]].
    exists d, w, QChar_null. now right.
Qed.

(** A key changes the text and the cursor, and Backspace may read the table
    of markup pairs with [operator[]]; the entries the table has stay. *)
Lemma keyPressEvent_edits (ed : MarkdownEditor) (e : QKeyEvent) :
  exists d w h,
    keyPressEvent ed e = withText (withMarkupPairs ed h) d w
    /\ forall k,
         hash_contains (markupPairs ed) k = true ->
         hash_contains h k = true
         /\ hash_value QChar_null h k = hash_value QChar_null (markupPairs ed) k.
Proof.
  assert (Same : forall ed',
             (exists d w, ed' = withText ed d w) ->
             exists d w h,
               ed' = withText (withMarkupPairs ed h) d w
               /\ forall k,
                    hash_contains (markupPairs ed) k = true ->
                    hash_contains h k = true
                    /\ hash_value QChar_null h k
                       = hash_value QChar_null (markupPairs ed) k).
  { intros ed' [d [w ->]]. exists d, w, (markupPairs ed).
    rewrite withMarkupPairs_same. now split. }
  unfold keyPressEvent. cbv zeta. destruct (key e).
  - (* Return *)
    apply Same. destruct (negb _); [| apply QPlainTextEdit_keyPressEvent_edits].
    destruct (controlModifier e).
    + destruct (shiftModifier e); [| apply insertText_edits].
      apply (edits_trans ed (fst (insertText ed (textCursor ed)
                                    (QLatin1String "  "))));
        apply insertText_edits.
    + destruct (shiftModifier e); [| apply handleCarriageReturn_edits].
      apply (edits_trans ed (fst (insertText ed (textCursor ed)
                                    (QLatin1String "  "))));
        [apply insertText_edits | apply handleCarriageReturn_edits].
  - (* Delete *)
    apply Same. destruct (negb _);
      [apply QPlainTextEdit_keyPressEvent_edits | apply edits_refl].
  - (* Backspace *)
    destruct (negb (hemingwayModeEnabled ed)); [| apply Same, edits_refl].
    destruct (handleBackspaceKey_edits ed) as [d [w [k H]]].
    destruct (handleBackspaceKey ed) as [handled ed1]. cbn [snd] in H.
    assert (H1 : exists d w h,
               ed1 = withText (withMarkupPairs ed h) d w
               /\ forall k,
                    hash_contains (markupPairs ed) k = true ->
                    hash_contains h k = true
                    /\ hash_value QChar_null h k
                       = hash_value QChar_null (markupPairs ed) k).
    { destruct H as [H | H].
      - exists d, w, (snd (hash_index QChar_null (markupPairs ed) k)).
        split; [exact H |]. intros k'. apply hash_index_keeps.
      - apply Same. eauto. }
    destruct (negb handled); [| exact H1].
    destruct H1 as [d1 [w1 [h [-> Hh]]]].
    destruct (QPlainTextEdit_keyPressEvent_edits
                (withText (withMarkupPairs ed h) d1 w1) e) as [d2 [w2 ->]].
    exists d2, w2, h. now split.
  - apply Same, indentText_edits.
  - apply Same, unindentText_edits.
  - (* any other key *)
    apply Same. destruct (eventText e) as [| ch [| ch' r]];
      try apply QPlainTextEdit_keyPressEvent_edits.
    pose proof (handleEndPairCharacterTyped_edits ed ch) as H1.
    destruct (handleEndPairCharacterTyped ed ch) as [skipped ed1].
    cbn [snd] in H1. destruct skipped; [exact H1 |].
    pose proof (insertPairedCharacters_edits ed1 ch) as H2.
    destruct (insertPairedCharacters ed1 ch) as [paired ed2].
    cbn [snd] in H2. apply (edits_trans ed ed1); [exact H1 |].
    destruct paired; [exact H2 |].
    apply (edits_trans ed1 ed2); [exact H2 |].
    apply QPlainTextEdit_keyPressEvent_edits.
Qed.

(** X22. No key changes a setting of the editor: the Hemingway mode, the
    flags of the matching, of the bullet point cycling and of the spaces for
    tabulations, the width of a tabulation. Every entry of the table of
    markup pairs stays with its value. *)
Theorem key_press_keeps_settings (ed : MarkdownEditor) (e : QKeyEvent) :
  let ed' := keyPressEvent ed e in
  hemingwayModeEnabled ed' = hemingwayModeEnabled ed
  /\ autoMatchEnabled ed' = autoMatchEnabled ed
  /\ bulletPointCyclingEnabled ed' = bulletPointCyclingEnabled ed
  /\ insertSpacesForTabs ed' = insertSpacesForTabs ed
  /\ tabWidth ed' = tabWidth ed
  /\ autoMatchFilter ed' = autoMatchFilter ed
  /\ forall k,
       hash_contains (markupPairs ed) k = true ->
       hash_contains (markupPairs ed') k = true
       /\ hash_value QChar_null (markupPairs ed') k
          = hash_value QChar_null (markupPairs ed) k.
Proof.
  intros ed'. subst ed'.
  destruct (keyPressEvent_edits ed e) as [d [w [h [-> Hh]]]].
  cbn [withText withMarkupPairs hemingwayModeEnabled autoMatchEnabled
       bulletPointCyclingEnabled insertSpacesForTabs tabWidth markupPairs
       autoMatchFilter].
  repeat split; try reflexivity; now apply Hh.
Qed.

(** ** Where the selection is after a slot has worked on its blocks *)

Lemma adjustCursor_adjustCursor (F G : Z -> Z) (c : QTextCursor) :
  adjustCursor F (adjustCursor G c) = adjustCursor (fun q => F (G q)) c.
Proof. reflexivity. Qed.

Lemma adjustCursor_id (c : QTextCursor) : adjustCursor (fun q => q) c = c.
Proof. now destruct c. Qed.

(** Positions that keep their order keep the start and the end of a
    selection. *)
Lemma selection_adjustCursor (F : Z -> Z) (c : QTextCursor) :
  (forall p q, p <= q -> F p <= F q) ->
  selectionStart (adjustCursor F c) = F (selectionStart c)
  /\ selectionEnd (adjustCursor F c) = F (selectionEnd c).
Proof.
  intros Hmono. unfold selectionStart, selectionEnd, adjustCursor.
  cbn [anchor position].
  destruct (Z.le_ge_cases (anchor c) (position c)) as [H | H].
  - pose proof (Hmono _ _ H). rewrite !Z.min_l, !Z.max_r by assumption.
    now split.
  - pose proof (Hmono _ _ H). rewrite !Z.min_r, !Z.max_l by assumption.
    now split.
Qed.

(** The loop of [insertPrefixForBlocks], with the positions of the document
    it moves: a position in one of the blocks it visits moves by the length
    of the prefix inside its block. *)
Lemma prefixBlocks_tracked (prefix : QString) (blocks : QTextDocument) :
  noSeparator prefix = true ->
  forall (ed : MarkdownEditor) (cur : QTextCursor) (before after : QTextDocument),
    document ed = before ++ blocks ++ after ->
    let prefixed := fun blk => mkBlock (prefix ++ text blk) (userState blk) in
    exists F c',
      prefixBlocks ed cur prefix (length before) (length blocks)
      = (withText ed (before ++ map prefixed blocks ++ after)
                  (adjustCursor F (textCursor ed)),
         c')
      /\ (forall p q, p <= q -> F p <= F q)
      /\ (forall q, q < positionAt before 0 -> F q = q)
      /\ (forall j c,
            (j < length blocks)%nat ->
            (c <= length (text (nth j blocks invalidBlock)))%nat ->
            F (positionAt (before ++ firstn j blocks) c)
            = positionAt (before ++ map prefixed (firstn j blocks))
                         (c + length prefix)).
Proof.
  intros Hp. induction blocks as [| [t st] blocks IH];
    intros ed cur before after Hdoc prefixed.
  - exists (fun q => q), cur. cbn [prefixBlocks length map app] in *.
    rewrite adjustCursor_id, <- Hdoc, withText_same.
    repeat split; auto. intros j c Hj. lia.
  - cbn [app] in Hdoc. cbn [length prefixBlocks].
    rewrite Hdoc, setPosition_blockPosition.
    rewrite (insertText_at ed before (blocks ++ after) t st 0 Hdoc (Nat.le_0_l _))
      by assumption.
    cbn [firstn skipn app].
    match goal with
    | |- context [prefixBlocks ?e ?c _ _ _] =>
        destruct (IH e c (before ++ [mkBlock (prefix ++ t) st]) after)
          as [F [c' [Hloop [Hmono [Hbefore Hin]]]]];
        [cbn [document withText]; apply app_cons_middle |]
    end.
    rewrite length_app_one in Hloop. rewrite Hloop.
    exists (fun q => F (adjustInserted (positionAt before 0) (size prefix) q)), c'.
    split; [| split; [| split]].
    + rewrite withText_withText. cbn [textCursor withText map userState text].
      rewrite adjustCursor_adjustCursor. now rewrite <- !List.app_assoc.
    + intros p q Hpq. apply Hmono. unfold adjustInserted.
      pose proof (size_nonneg prefix).
      repeat match goal with
             | |- context [?x <? ?y] => destruct (Z.ltb_spec x y); try lia
             end.
    + intros q Hq. unfold adjustInserted.
      replace (q <? positionAt before 0) with true by zcompare.
      apply Hbefore. unfold positionAt in *. rewrite characterCount_app. lia.
    + intros j c Hj Hc. destruct j as [| j].
      * cbn [firstn map nth text] in *. rewrite !List.app_nil_r.
        unfold adjustInserted.
        replace (positionAt before c <? positionAt before 0) with false
          by (unfold positionAt; zcompare).
        replace (positionAt before c + size prefix)
          with (positionAt before (c + length prefix))
          by (unfold positionAt, size; lia).
        apply Hbefore. unfold positionAt. rewrite characterCount_app.
        cbn [characterCount]. unfold blockLength. cbn [text].
        rewrite length_app. lia.
      * cbn [firstn map nth length] in *.
        unfold adjustInserted.
        replace (positionAt (before ++ mkBlock t st :: firstn j blocks) c
                 <? positionAt before 0)
          with false
          by (unfold positionAt; rewrite characterCount_app; zcompare).
        replace (positionAt (before ++ mkBlock t st :: firstn j blocks) c
                 + size prefix)
          with (positionAt ((before ++ [mkBlock (prefix ++ t) st])
                              ++ firstn j blocks) c).
        2:{ unfold positionAt, size. rewrite !characterCount_app.
            cbn [characterCount]. unfold blockLength. cbn [text].
            rewrite length_app. lia. }
        rewrite (Hin j c) by (assumption || lia).
        subst prefixed. cbn [text userState].
        now rewrite <- !List.app_assoc.
Qed.

Lemma nth_last_block (mid : QTextDocument) (lastb : QTextBlock) :
  nth (length mid) (mid ++ [lastb]) invalidBlock = lastb
  /\ firstn (length mid) (mid ++ [lastb]) = mid
  /\ nth 0 (mid ++ [lastb]) invalidBlock = hd lastb mid.
Proof.
  split; [apply nth_middle |]. split.
  - rewrite firstn_app, firstn_all, Nat.sub_diag. cbn [firstn].
    apply List.app_nil_r.
  - now destruct mid.
Qed.

(** [insertPrefixForBlocks] on a selection: the text, and where the
    selection is afterwards. *)
Lemma insertPrefixForBlocks_selected
      (ed : MarkdownEditor) (before mid after : QTextDocument)
      (lastb : QTextBlock) (a b : nat) (prefix : QString) :
  document ed = before ++ mid ++ lastb :: after ->
  selectionStart (textCursor ed) = positionAt before a ->
  selectionEnd (textCursor ed) = positionAt (before ++ mid) b ->
  (a <= length (text (hd lastb mid)))%nat -> (b <= length (text lastb))%nat ->
  noSeparator prefix = true ->
  let prefixed := fun blk => mkBlock (prefix ++ text blk) (userState blk) in
  let ed' := insertPrefixForBlocks ed prefix in
  document ed' = before ++ map prefixed mid ++ prefixed lastb :: after
  /\ selectionStart (textCursor ed') = positionAt before (a + length prefix)
  /\ selectionEnd (textCursor ed')
     = positionAt (before ++ map prefixed mid) (b + length prefix).
Proof.
  intros Hdoc Hstart Hend Ha Hb Hp prefixed ed'. subst ed'.
  unfold insertPrefixForBlocks. cbv zeta.
  rewrite (selected_count ed before mid after lastb a b) by assumption.
  rewrite (firstBlock_selected ed before mid after lastb a) by assumption.
  destruct (prefixBlocks_tracked prefix (mid ++ [lastb]) Hp ed (textCursor ed)
              before after) as [F [c' [Hloop [Hmono [Hbefore Hin]]]]].
  { now rewrite <- List.app_assoc. }
  fold prefixed in Hloop, Hin. rewrite Hloop. cbn [fst document textCursor withText].
  destruct (nth_last_block mid lastb) as [N1 [N2 N3]].
  destruct (selection_adjustCursor F (textCursor ed) Hmono) as [S1 S2].
  rewrite S1, S2, Hstart, Hend.
  split; [| split].
  - rewrite map_app. cbn [map]. now rewrite <- !List.app_assoc.
  - pose proof (Hin 0%nat a) as H. cbn [firstn map] in H.
    rewrite !List.app_nil_r in H. apply H.
    + rewrite length_app_one. lia.
    + now rewrite N3.
  - pose proof (Hin (length mid) b) as H. rewrite N1, N2 in H. apply H.
    + rewrite length_app_one. lia.
    + assumption.
Qed.

(** ** There and back *)

(** The loop of [indentText] is the loop of [insertPrefixForBlocks] with one
    indentation for prefix. *)
Lemma indentBlocks_prefixBlocks (count : nat) :
  forall (ed : MarkdownEditor) (cur : QTextCursor) (i : nat),
    indentBlocks ed cur i count
    = prefixBlocks ed cur (indentationUnit ed) i count.
Proof.
  induction count as [| count IH]; intros ed cur i; [reflexivity |].
  cbn [indentBlocks prefixBlocks]. fold (indentationUnit ed).
  match goal with
  | |- context [insertText ?e ?c ?s] =>
      destruct (insertText_edits e c s) as [d [w H]];
      destruct (insertText e c s) as [ed1 c2]
  end.
  cbn [fst] in H. rewrite IH. now rewrite H.
Qed.

Lemma hd_map_block (f : QTextBlock -> QTextBlock) (lastb : QTextBlock)
      (mid : QTextDocument) :
  hd (f lastb) (map f mid) = f (hd lastb mid).
Proof. now destruct mid. Qed.

(** One indentation before a text, and [unindentText] on it. *)
Lemma unindented_indented (sp : bool) (tw : Z) (t : QString) :
  0 < tw ->
  let unit := if sp then blanks tw else [Tab] in
  (if hd QChar_null (unit ++ t) =? Tab then tl (unit ++ t)
   else skipn (Nat.min (Z.to_nat tw)
                       (length (takeWhile (fun c => c =? QLatin1Char " ")
                                          (unit ++ t))))
              (unit ++ t))
  = t.
Proof.
  intros Htw unit. subst unit. destruct sp.
  - unfold blanks. destruct (Z.to_nat tw) as [| k] eqn:Ek; [lia |].
    cbn [repeat app hd].
    change (QLatin1Char " " =? Tab) with false. cbv iota.
    assert (L : forall n r,
               (n <= length (takeWhile (fun c => (c =? QLatin1Char " ")%Z)
                                       (repeat (QLatin1Char " ") n ++ r)))%nat).
    { induction n as [| n IHn]; intros r; [lia |].
      cbn [repeat app takeWhile]. rewrite Z.eqb_refl. cbn [length].
      specialize (IHn r). lia. }
    specialize (L (S k) t). cbn [repeat app] in L.
    rewrite Nat.min_l by exact L.
    change (QLatin1Char " " :: repeat (QLatin1Char " ") k ++ t)
      with (repeat (QLatin1Char " ") (S k) ++ t).
    rewrite <- (repeat_length (QLatin1Char " ") (S k)) at 1.
    now rewrite skipn_app, skipn_all, Nat.sub_diag.
  - cbn [app hd tl]. now rewrite Z.eqb_refl.
Qed.

(** X23. Tab and then Shift+Tab over a selection give the text back, when
    the width of a tabulation is positive and the last line of the selection
    is no empty bullet point whose marker would be cycled. The states of the
    blocks are those before the first key. *)
Theorem tab_then_shift_tab_restores_selected_lines
        (ed : MarkdownEditor) (tab backtab : QKeyEvent)
        (before mid after : QTextDocument) (lastb : QTextBlock) (a b : nat) :
  key tab = Key_Tab -> key backtab = Key_Backtab ->
  hasSelection (textCursor ed) = true ->
  document ed = before ++ mid ++ lastb :: after ->
  selectionStart (textCursor ed) = positionAt before a ->
  selectionEnd (textCursor ed) = positionAt (before ++ mid) b ->
  (a <= length (text (hd lastb mid)))%nat -> (b <= length (text lastb))%nat ->
  noSeparator (text lastb) = true ->
  0 < tabWidth ed ->
  userState lastb <> MarkdownStateBulletPointList
  \/ exactMatch bulletListRegex (text lastb) = false
  \/ bulletPointCyclingEnabled ed = false ->
  document (keyPressEvent (keyPressEvent ed tab) backtab) = document ed.
Proof.
  intros Htab Hbacktab Hsel Hdoc Hstart Hend Ha Hb Hlast Htw Hcycle.
  set (unit := indentationUnit ed).
  set (prefixed := fun blk => mkBlock (unit ++ text blk) (userState blk)).
  assert (Hindent : keyPressEvent ed tab = insertPrefixForBlocks ed unit).
  { unfold keyPressEvent. rewrite Htab.
    unfold indentText, insertPrefixForBlocks, firstBlock, lastBlock. cbv zeta.
    rewrite Hsel. now rewrite indentBlocks_prefixBlocks. }
  destruct (insertPrefixForBlocks_selected ed before mid after lastb a b unit
              Hdoc Hstart Hend Ha Hb (noSeparator_indentationUnit ed))
    as [Hdoc1 [Hstart1 Hend1]].
  rewrite <- Hindent in Hdoc1, Hstart1, Hend1. fold prefixed in Hdoc1, Hend1.
  destruct (indentText_edits ed) as [d [w Hed1]].
  assert (Hed1' : keyPressEvent ed tab = withText ed d w)
    by (unfold keyPressEvent; now rewrite Htab).
  unfold keyPressEvent at 1. rewrite Hbacktab.
  rewrite (unindentText_selected (keyPressEvent ed tab) before
             (map prefixed mid) after (prefixed lastb)
             (a + length unit) (b + length unit) Hdoc1 Hstart1 Hend1).
  - rewrite Hed1'. cbn [tabWidth bulletPointCyclingEnabled withText].
    rewrite Hdoc. f_equal. rewrite map_map.
    assert (U : forall t,
               (if hd QChar_null (unit ++ t) =? Tab then tl (unit ++ t)
                else skipn (Nat.min (Z.to_nat (tabWidth ed))
                                    (length (takeWhile
                                               (fun c => c =? QLatin1Char " ")
                                               (unit ++ t))))
                           (unit ++ t))
               = t)
      by (intros t; apply (unindented_indented (insertSpacesForTabs ed)
                             (tabWidth ed) t Htw)).
    f_equal.
    + rewrite <- (map_id mid) at 2. apply map_ext. intros [t st].
      subst prefixed. cbn [text userState]. now rewrite U.
    + subst prefixed. cbn [text userState]. rewrite U.
      destruct lastb as [t st]. cbn [text userState] in *. f_equal.
      destruct st; try reflexivity.
      destruct Hcycle as [H | [H | H]]; [congruence | |]; rewrite H;
        rewrite ?andb_false_r; reflexivity.
  - rewrite hd_map_block. subst prefixed. cbn [text]. rewrite length_app. lia.
  - subst prefixed. cbn [text]. rewrite length_app. lia.
  - subst prefixed. cbn [text]. rewrite noSeparator_app, Hlast.
    subst unit. now rewrite noSeparator_indentationUnit.
Qed.

(** X24. [createBlockquote] puts [> ] before every line of the selection;
    [removeBlockquote] after it removes the [>] and every blank after it, so
    the lines lose the blanks they started with: the text is given back
    when no line of the selection starts with a blank. *)
Theorem blockquote_is_removed_with_leading_blanks
        (ed : MarkdownEditor) (before mid after : QTextDocument)
        (lastb : QTextBlock) (a b : nat) :
  document ed = before ++ mid ++ lastb :: after ->
  selectionStart (textCursor ed) = positionAt before a ->
  selectionEnd (textCursor ed) = positionAt (before ++ mid) b ->
  (a <= length (text (hd lastb mid)))%nat -> (b <= length (text lastb))%nat ->
  document (createBlockquote ed)
  = before
      ++ map (fun blk => mkBlock (QLatin1String "> " ++ text blk) (userState blk))
             (mid ++ [lastb])
      ++ after
  /\ document (removeBlockquote (createBlockquote ed))
     = before
         ++ map (fun blk =>
                   mkBlock (dropWhile (fun c => c =? QLatin1Char " ") (text blk))
                           (userState blk))
                (mid ++ [lastb])
         ++ after
  /\ (Forall (fun blk => (hd QChar_null (text blk) =? QLatin1Char " ") = false)
             (mid ++ [lastb]) ->
      document (removeBlockquote (createBlockquote ed)) = document ed).
Proof.
  intros Hdoc Hstart Hend Ha Hb.
  set (prefixed := fun blk => mkBlock (QLatin1String "> " ++ text blk)
                                      (userState blk)).
  destruct (insertPrefixForBlocks_selected ed before mid after lastb a b
              (QLatin1String "> ") Hdoc Hstart Hend Ha Hb eq_refl)
    as [Hdoc1 [Hstart1 Hend1]].
  fold (createBlockquote ed) in Hdoc1, Hstart1, Hend1.
  fold prefixed in Hdoc1, Hend1.
  assert (Hr : document (removeBlockquote (createBlockquote ed))
               = before
                   ++ map (fun blk =>
                             mkBlock (dropWhile (fun c => c =? QLatin1Char " ")
                                                (text blk))
                                     (userState blk))
                          (mid ++ [lastb])
                   ++ after).
  { assert (Ha1 : (a + length (QLatin1String "> ")
                   <= length (text (hd (prefixed lastb) (map prefixed mid))))%nat)
      by (rewrite hd_map_block; subst prefixed; cbn [text];
          rewrite length_app; lia).
    assert (Hb1 : (b + length (QLatin1String "> ")
                   <= length (text (prefixed lastb)))%nat)
      by (subst prefixed; cbn [text]; rewrite length_app; lia).
    unfold removeBlockquote. cbv zeta.
    rewrite (selected_count _ before (map prefixed mid) after (prefixed lastb)
               _ _ Hdoc1 Hstart1 Hend1 Ha1 Hb1).
    rewrite (firstBlock_selected _ before (map prefixed mid) after
               (prefixed lastb) _ Hdoc1 Hstart1 Ha1).
    destruct (unquoteBlocks_blocks (map prefixed mid ++ [prefixed lastb])
                (createBlockquote ed) (textCursor (createBlockquote ed))
                before after) as [w [c' Hloop]].
    { rewrite Hdoc1. now rewrite <- List.app_assoc. }
    rewrite Hloop. cbn [fst document withText]. f_equal. f_equal.
    replace (map prefixed mid ++ [prefixed lastb])
      with (map prefixed (mid ++ [lastb])) by (now rewrite map_app).
    rewrite map_map. apply map_ext. intros [t st].
    subst prefixed.
    cbn [text userState QLatin1String list_ascii_of_string map app hd tl
         dropWhile].
    now rewrite !Z.eqb_refl. }
  split; [| split; [exact Hr |]].
  - rewrite Hdoc1, map_app. cbn [map]. now rewrite <- !List.app_assoc.
  - intros Hblank. rewrite Hr, Hdoc. f_equal.
    replace (mid ++ lastb :: after) with ((mid ++ [lastb]) ++ after)
      by (now rewrite <- List.app_assoc).
    f_equal. rewrite <- (map_id (mid ++ [lastb])) at 2.
    apply map_ext_Forall. eapply Forall_impl; [| exact Hblank].
    intros [t st] H. cbn [text userState] in *. f_equal.
    destruct t as [| c r]; [reflexivity |]. cbn [hd dropWhile] in *.
    now rewrite H.
Qed.

(** ** Tab in an empty numbered list item *)

(** X25. Tab without selection in an empty item of a numbered list: the
    number of the item becomes 1, its marker and the white space stay, the
    line is indented by one unit, and the cursor is at its end. *)
Theorem tab_restarts_numbering_of_empty_item
        (ed : MarkdownEditor) (e : QKeyEvent) (before after : QTextDocument)
        (ws ds ws2 : QString) (p : QChar) (c : nat) :
  let t := ws ++ ds ++ p :: ws2 in
  let t' := indentationUnit ed ++ ws ++ QLatin1String "1" ++ p :: ws2 in
  key e = Key_Tab ->
  document ed = before ++ mkBlock t MarkdownStateNumberedList :: after ->
  textCursor ed = cursorAt before c -> (c <= length t)%nat ->
  noSeparator t = true ->
  forallb isSpace ws = true ->
  ds <> [] -> forallb isAsciiDigit ds = true ->
  isNumberPunct p = true ->
  ws2 <> [] -> forallb isSpace ws2 = true ->
  document (keyPressEvent ed e)
  = before ++ mkBlock t' MarkdownStateNumberedList :: after
  /\ textCursor (keyPressEvent ed e) = cursorAt before (length t').
Proof.
  intros t t' Hkey Hdoc Hcur Hc Ht Hws Hds1 Hds2 Hp Hne Hws2.
  assert (Hm := numberedListRegex_match ws ds ws2 [] p
                  Hws Hds1 Hds2 Hp Hne Hws2 eq_refl).
  rewrite List.app_nil_r in Hm. fold t in Hm.
  assert (Hexact : exactMatch numberedListRegex t = true).
  { unfold exactMatch. rewrite Hm. cbn [matchedLength]. subst t.
    rewrite !size_app, size_cons. zcompare. }
  assert (Hone : QString_replace_number t (QLatin1String "1")
                 = ws ++ QLatin1String "1" ++ p :: ws2)
    by now apply QString_replace_number_prefix.
  assert (Hsep : noSeparator (ws ++ QLatin1String "1" ++ p :: ws2) = true).
  { rewrite <- Hone. now apply noSeparator_replaceDigitRuns. }
  unfold keyPressEvent. rewrite Hkey.
  unfold indentText, indentSwitch. cbv zeta.
  rewrite Hcur, hasSelection_cursorAt, Hdoc, cursorBlock_at by assumption.
  cbn [userState text]. rewrite Hexact, capturedTexts_length.
  cbn [andb Nat.eqb].
  rewrite selectBlock_at, selectedText_block by assumption.
  rewrite Hone.
  rewrite (insertText_block ed before after _ _ Hdoc) by assumption.
  cbn [document withText].
  rewrite movePosition_StartOfBlock_at by lia.
  fold (indentationUnit ed).
  match goal with
  | |- context [insertText ?e _ _] =>
      rewrite (insertText_at e before after
                 (ws ++ QLatin1String "1" ++ p :: ws2) MarkdownStateNumberedList
                 0 eq_refl (Nat.le_0_l _) (indentationUnit ed)
                 (noSeparator_indentationUnit ed))
  end.
  cbn [fst firstn skipn app document textCursor withText].
  split; [reflexivity |].
  rewrite Hcur. unfold size. rewrite adjust_replaced by assumption.
  rewrite adjust_at by lia.
  subst t'. f_equal. rewrite (length_app (indentationUnit ed)).
  cbn [QLatin1String list_ascii_of_string map app]. lia.
Qed.

(** ** The patterns of a task and of a bullet point *)

(** X26. A line the task pattern matches is matched by the bullet list
    pattern too, up to the blank after the marker only: the match of the task
    pattern is at least four characters longer, and the line is no empty
    bullet point. *)
Theorem task_pattern_implies_bullet_pattern (t : QString) (m : QRegExpMatch) :
  taskListRegex t = Some m ->
  bulletListRegex t = Some (mkMatch (size (takeWhile isSpace t) + 2) [])
  /\ size (takeWhile isSpace t) + 6 <= matchedLength m
  /\ exactMatch bulletListRegex t = false.
Proof.
  intros Htask.
  pose proof (taskListRegex_not_empty_bullet t m Htask) as Hnot.
  unfold taskListRegex in Htask. unfold bulletListRegex.
  destruct (dropWhile isSpace t) as [| b [| sp [| lb [| v [| rb r]]]]];
    try discriminate.
  destruct (b =? QLatin1Char "-") eqn:Eb; [| discriminate].
  destruct (sp =? QLatin1Char " ") eqn:Esp; [| discriminate].
  destruct (lb =? QLatin1Char "[") eqn:Elb; [| discriminate].
  apply Z.eqb_eq in Eb, Esp, Elb. subst b sp lb.
  cbn [andb] in Htask.
  destruct (((v =? QLatin1Char "x") || (v =? QLatin1Char " "))
            && (rb =? QLatin1Char "]")); [| discriminate].
  destruct (takeWhile isSpace r) as [| w ws2] eqn:Ews2; [discriminate |].
  inversion Htask; subst m. clear Htask.
  change (isBulletChar (QLatin1Char "-")) with true. cbv iota.
  cbn [takeWhile]. change (isSpace (QLatin1Char " ")) with true.
  change (isSpace (QLatin1Char "[")) with false. cbv iota.
  cbn [matchedLength].
  change (size [QLatin1Char " "]) with 1.
  pose proof (size_nonneg ws2). rewrite size_cons.
  repeat split; try lia; [| exact Hnot].
  do 2 f_equal. lia.
Qed.

(* ================================================================== *)
(** * The theorems at work, and where the editor goes another way *)

(** Enter after the empty item [  1. ] between two lines: the item is left
    as two blanks, an empty line follows, and the cursor is on it. *)
Lemma enter_ends_empty_numbered_item_example :
  let ed := editing [line "intro" MarkdownStateOther;
                     line "  1. " MarkdownStateNumberedList;
                     line "after" MarkdownStateOther] 11 11 in
  document (keyPressEvent ed (pressed Key_Return))
  = [line "intro" MarkdownStateOther;
     line "  " MarkdownStateNumberedList;
     mkBlock [] MarkdownStateOther;
     line "after" MarkdownStateOther]
  /\ textCursor (keyPressEvent ed (pressed Key_Return)) = mkCursor 9 9.
Proof.
  exact (enter_ends_empty_numbered_item
           (editing [line "intro" MarkdownStateOther;
                     line "  1. " MarkdownStateNumberedList;
                     line "after" MarkdownStateOther] 11 11)
           (pressed Key_Return)
           [line "intro" MarkdownStateOther] [line "after" MarkdownStateOther]
           (QLatin1String "  1. ") (mkMatch 5 (QLatin1String "1"))
           eq_refl eq_refl eq_refl eq_refl eq_refl eq_refl eq_refl eq_refl).
Defined.

(** Enter at the end of [2. foo]: the next line starts with [3. ]. *)
Lemma enter_continues_numbered_item_example :
  let ed := editing [line "1. one" MarkdownStateNumberedList;
                     line "2. foo" MarkdownStateNumberedList] 13 13 in
  document (keyPressEvent ed (pressed Key_Return))
  = [line "1. one" MarkdownStateNumberedList;
     line "2. foo" MarkdownStateNumberedList;
     line "3. " MarkdownStateOther]
  /\ textCursor (keyPressEvent ed (pressed Key_Return)) = mkCursor 17 17
  /\ numberOfDigits (QLatin1String "3") = 3.
Proof.
  exact (enter_continues_numbered_item
           (editing [line "1. one" MarkdownStateNumberedList;
                     line "2. foo" MarkdownStateNumberedList] 13 13)
           (pressed Key_Return)
           [line "1. one" MarkdownStateNumberedList] []
           [] (QLatin1String "2") (QLatin1String " ") (QLatin1String "foo")
           (QLatin1Char ".")
           eq_refl eq_refl eq_refl eq_refl eq_refl eq_refl eq_refl
           ltac:(discriminate) eq_refl eq_refl
           ltac:(discriminate) eq_refl
           ltac:(discriminate) eq_refl eq_refl).
Defined.

(** Enter at the end of [99999999999. foo]: the number does not fit an
    [int], [toInt] answers 0, and the next line starts with [1. ], which is
    not the number plus one. *)
Lemma enter_after_large_number_restarts_at_one :
  let ed := editing [line "99999999999. foo" MarkdownStateNumberedList] 16 16 in
  map text (document (keyPressEvent ed (pressed Key_Return)))
  = [QLatin1String "99999999999. foo"; QLatin1String "1. "]
  /\ numberOfDigits (QLatin1String "99999999999") + 1 = 100000000000
  /\ numberOfDigits (QLatin1String "1") = 1.
Proof. vm_compute. repeat split. Qed.

(** Backspace in the empty task [  - [x] ]: the marker is removed at once. *)
Lemma backspace_removes_empty_list_marker_example :
  let ed := editing [line "intro" MarkdownStateOther;
                     line "  - [x] " MarkdownStateBulletPointList] 10 10 in
  fst (handleBackspaceKey ed) = true
  /\ document (keyPressEvent ed (pressed Key_Backspace))
     = [line "intro" MarkdownStateOther; line "  " MarkdownStateBulletPointList]
  /\ textCursor (keyPressEvent ed (pressed Key_Backspace)) = mkCursor 8 8.
Proof.
  exact (backspace_removes_empty_list_marker
           (editing [line "intro" MarkdownStateOther;
                     line "  - [x] " MarkdownStateBulletPointList] 10 10)
           (pressed Key_Backspace)
           [line "intro" MarkdownStateOther] []
           (QLatin1String "  - [x] ") MarkdownStateBulletPointList 4
           eq_refl eq_refl eq_refl eq_refl ltac:(cbn; lia) eq_refl).
Defined.

(** Backspace at the end of [- [x] done]: the bullet list pattern and the
    task list pattern match a prefix of the line, not the whole of it, so
    [handleBackspaceKey] leaves the key to the base class, which deletes one
    character: the line is [- [x] don], not [done]. *)
Lemma backspace_in_task_with_text_deletes_one_character :
  let ed := editing [line "- [x] done" MarkdownStateBulletPointList] 10 10 in
  hasSelection (textCursor ed) = false
  /\ taskListRegex (text (currentBlock ed))
     = Some (mkMatch 6 (QLatin1String "x"))
  /\ fst (handleBackspaceKey ed) = false
  /\ map text (document (keyPressEvent ed (pressed Key_Backspace)))
     = [QLatin1String "- [x] don"].
Proof. vm_compute. repeat split. Qed.

(** Tab and then Shift+Tab in the empty bullet point [* ]. *)
Lemma bullet_cycling_round_trip_example :
  let ed := editing [line "* " MarkdownStateBulletPointList] 2 2 in
  document (keyPressEvent ed (pressed Key_Tab))
  = [mkBlock (Tab :: QLatin1String "- ") MarkdownStateBulletPointList]
  /\ document (keyPressEvent (keyPressEvent ed (pressed Key_Tab))
                             (pressed Key_Backtab))
     = [line "* " MarkdownStateBulletPointList].
Proof.
  exact (bullet_cycling_round_trip
           (editing [line "* " MarkdownStateBulletPointList] 2 2)
           (pressed Key_Tab) (pressed Key_Backtab) [] []
           [] (QLatin1String " ") 2
           eq_refl eq_refl eq_refl eq_refl ltac:(cbn; lia) eq_refl eq_refl
           ltac:(discriminate) eq_refl eq_refl eq_refl).
Defined.

(** Tab in the bullet point [* foo], with cycling enabled: neither list
    pattern matches the whole line, so the marker stays [*] and a tabulation
    is inserted at the cursor. *)
Lemma tab_in_bullet_with_text_keeps_marker :
  let ed := editing [line "* foo" MarkdownStateBulletPointList] 5 5 in
  bulletPointCyclingEnabled ed = true
  /\ hasSelection (textCursor ed) = false
  /\ map text (document (keyPressEvent ed (pressed Key_Tab)))
     = [QLatin1String "* foo" ++ [Tab]]
  /\ QString_at (QString_trimmed
                   (text (currentBlock (keyPressEvent ed (pressed Key_Tab))))) 0
     = QLatin1Char "*".
Proof. vm_compute. repeat split. Qed.

(** Typing [(] after [f] in [f)], and then [)]. *)
Lemma paired_insertion_and_skip_over_example :
  let ed := editing [line "f)" MarkdownStateOther] 1 1 in
  let paired := withText ed [line "f())" MarkdownStateOther] (mkCursor 2 2) in
  insertPairedCharacters ed (QLatin1Char "(") = (true, paired)
  /\ keyPressEvent ed (typed (QLatin1Char "(")) = paired
  /\ keyPressEvent paired (typed (QLatin1Char ")"))
     = setTextCursor paired (mkCursor 3 3)
  /\ keyPressEvent ed (typed (QLatin1Char ")"))
     = setTextCursor ed (mkCursor 2 2).
Proof.
  destruct (paired_insertion_and_skip_over
              (editing [line "f)" MarkdownStateOther] 1 1) [] []
              (QLatin1String "f)") MarkdownStateOther 1
              (QLatin1Char "(") (QLatin1Char ")")
              eq_refl eq_refl ltac:(cbn; lia) eq_refl eq_refl eq_refl eq_refl
              eq_refl eq_refl eq_refl)
    as [H1 [H2 [H3 H4]]].
  destruct (H4 ltac:(cbn; lia) eq_refl) as [_ H5].
  exact (conj H1 (conj (H2 eq_refl) (conj H3 H5))).
Defined.

(** Typing [[] over the selection [word], made from right to left. *)
Lemma typing_opener_wraps_selection_example :
  let ed := editing [line "a word b" MarkdownStateOther] 6 2 in
  let e := typed (QLatin1Char "[") in
  document (keyPressEvent ed e) = [line "a [word] b" MarkdownStateOther]
  /\ textCursor (keyPressEvent ed e) = mkCursor 3 7
  /\ selectedText (document (keyPressEvent ed e)) (textCursor (keyPressEvent ed e))
     = selectedText (document ed) (textCursor ed).
Proof.
  exact (typing_opener_wraps_selection
           (editing [line "a word b" MarkdownStateOther] 6 2)
           (typed (QLatin1Char "[")) [] []
           (QLatin1String "a word b") MarkdownStateOther 2 6
           (QLatin1Char "[") (QLatin1Char "]")
           eq_refl eq_refl eq_refl eq_refl eq_refl ltac:(cbn; lia)
           eq_refl eq_refl eq_refl eq_refl).
Defined.

(** Backspace and Delete over a selection in Hemingway mode. *)
Lemma hemingway_mode_ignores_deleting_keys_example :
  let ed := setHemingWayModeEnabled
              (editing [line "ab" MarkdownStateOther] 0 2) true in
  keyPressEvent ed (pressed Key_Backspace) = ed
  /\ keyPressEvent ed (pressed Key_Delete) = ed.
Proof.
  exact (conj
           (hemingway_mode_ignores_deleting_keys
              (setHemingWayModeEnabled
                 (editing [line "ab" MarkdownStateOther] 0 2) true)
              (pressed Key_Backspace) eq_refl (or_introl eq_refl))
           (hemingway_mode_ignores_deleting_keys
              (setHemingWayModeEnabled
                 (editing [line "ab" MarkdownStateOther] 0 2) true)
              (pressed Key_Delete) eq_refl (or_intror eq_refl))).
Defined.

(** The empty bullet point [* ] in two documents: the engines decide the
    same and make the same line of it. *)
Lemma engines_decide_by_block_example :
  let ed1 := editing [line "intro" MarkdownStateOther;
                      line "* " MarkdownStateBulletPointList;
                      line "x" MarkdownStateOther] 8 8 in
  let ed2 := editing [line "* " MarkdownStateBulletPointList] 2 2 in
  let st := MarkdownStateBulletPointList in
  carriageReturnSwitch ed1 = carriageReturnSwitch ed2
  /\ backtrackIndex (currentBlock ed1) = backtrackIndex (currentBlock ed2)
  /\ (exists t',
         document (indentText ed1)
         = [line "intro" MarkdownStateOther] ++ mkBlock t' st
             :: [line "x" MarkdownStateOther]
         /\ document (indentText ed2) = [] ++ mkBlock t' st :: [])
  /\ (exists t',
         document (unindentText ed1)
         = [line "intro" MarkdownStateOther] ++ mkBlock t' st
             :: [line "x" MarkdownStateOther]
         /\ document (unindentText ed2) = [] ++ mkBlock t' st :: []).
Proof.
  exact (engines_decide_by_block
           (editing [line "intro" MarkdownStateOther;
                     line "* " MarkdownStateBulletPointList;
                     line "x" MarkdownStateOther] 8 8)
           (editing [line "* " MarkdownStateBulletPointList] 2 2)
           [line "intro" MarkdownStateOther] [line "x" MarkdownStateOther] [] []
           (QLatin1String "* ") MarkdownStateBulletPointList 2
           eq_refl eq_refl eq_refl eq_refl ltac:(cbn; lia) eq_refl
           eq_refl eq_refl eq_refl).
Defined.

(** The same line [1. ] under the cursor of two editors: in one it is a
    numbered list item, in the other the highlighter stored another state in
    the block, as it does for a line between two code fences. The first ends
    the list on Enter, finds a marker to remove on Backspace and restarts the
    numbering on Tab; the second does none of this. *)
Lemma same_text_different_state_different_decision :
  let fence := String "`" (String "`" (String "`" EmptyString)) in
  let ed1 := editing [line "1. " MarkdownStateNumberedList] 3 3 in
  let ed2 := editing [line fence MarkdownStateOther;
                      line "1. " MarkdownStateOther;
                      line fence MarkdownStateOther] 7 7 in
  text (currentBlock ed1) = text (currentBlock ed2)
  /\ positionInBlock (document ed1) (textCursor ed1)
     = positionInBlock (document ed2) (textCursor ed2)
  /\ carriageReturnSwitch ed1 = (QLatin1String "1. ", true)
  /\ carriageReturnSwitch ed2 = ([], false)
  /\ backtrackIndex (currentBlock ed1) = 0
  /\ backtrackIndex (currentBlock ed2) = -1
  /\ map text (document (keyPressEvent ed1 (pressed Key_Return))) = [[]; []]
  /\ map text (document (keyPressEvent ed2 (pressed Key_Return)))
     = [QLatin1String fence; QLatin1String "1. "; []; QLatin1String fence]
  /\ map text (document (keyPressEvent ed1 (pressed Key_Tab)))
     = [Tab :: QLatin1String "1. "]
  /\ map text (document (keyPressEvent ed2 (pressed Key_Tab)))
     = [QLatin1String fence; QLatin1String "1. " ++ [Tab]; QLatin1String fence].
Proof. vm_compute. repeat split. Qed.

(** ** Backspace and the table of markup pairs *)

(** C8 fails on Backspace. After the constructor the table holds the nine
    pairs. Backspace after the [a] of [ab], in a block that is no list item
    and no blockquote, reads [markupPairs[previousChar]] through the
    non-const operator, which inserts the missing key [a] with a null closing
    character: the table has a tenth entry. From then on [a] counts as an
    opening character: typed over the selected [b] it wraps the selection,
    with a null character after it, where it replaced the selection
    before. *)
Lemma backspace_adds_entry_to_markupPairs :
  let ed := editing [line "ab" MarkdownStateOther] 1 1 in
  let ed' := keyPressEvent ed (pressed Key_Backspace) in
  markupPairs ed = constructedMarkupPairs
  /\ length (markupPairs ed) = 9%nat
  /\ hash_contains (markupPairs ed) (QLatin1Char "a") = false
  /\ map text (document ed') = [QLatin1String "b"]
  /\ markupPairs ed' = constructedMarkupPairs ++ [(QLatin1Char "a", QChar_null)]
  /\ hash_contains (markupPairs ed') (QLatin1Char "a") = true
  /\ map text (document (keyPressEvent (setTextCursor ed (mkCursor 1 2))
                                       (typed (QLatin1Char "a"))))
     = [QLatin1String "aa"]
  /\ map text (document (keyPressEvent (setTextCursor ed' (mkCursor 0 1))
                                       (typed (QLatin1Char "a"))))
     = [QLatin1String "ab" ++ [QChar_null]].
Proof. vm_compute. repeat split. Qed.

(** C9 fails at the end of a line. With the cursor at the end of [ab], in a
    block that is no list item and no blockquote, the branch that collapses a
    pair is entered and reads [blockText[positionInBlock]] at the index 2 of a
    text of size 2, which is no valid index. The reference converts to a null
    character, [markupPairs[previousChar]] inserts and answers a null
    character too, the two are equal, and Backspace removes the [b] together
    with the separator after it: the next line is joined to this one. *)
Lemma backspace_reads_past_the_end_of_the_line :
  let ed := editing [line "ab" MarkdownStateOther;
                     line "cd" MarkdownStateOther] 2 2 in
  let blockText := text (currentBlock ed) in
  let column := positionInBlock (document ed) (textCursor ed) in
  hasSelection (textCursor ed) = false
  /\ autoMatchEnabled ed = true
  /\ (0 <? column) = true
  /\ userState (currentBlock ed) = MarkdownStateOther
  /\ column = size blockText
  /\ validIndex blockText column = false
  /\ QCharRef_read blockText column = QChar_null
  /\ fst (handleBackspaceKey ed) = true
  /\ map text (document (keyPressEvent ed (pressed Key_Backspace)))
     = [QLatin1String "acd"].
Proof. vm_compute. repeat split. Qed.

(** ** The actions of the menus and the other keys at work *)

(** Enter between [foo] and [bar] in the indented line [  foo bar]. *)
Lemma enter_inside_line_keeps_indentation_example :
  let ed := editing [line "intro" MarkdownStateOther;
                     line "  foo bar" MarkdownStateOther] 12 12 in
  document (keyPressEvent ed (pressed Key_Return))
  = [line "intro" MarkdownStateOther;
     line "  foo " MarkdownStateOther;
     line "  bar" MarkdownStateOther]
  /\ textCursor (keyPressEvent ed (pressed Key_Return)) = mkCursor 15 15.
Proof.
  exact (enter_inside_line_keeps_indentation
           (editing [line "intro" MarkdownStateOther;
                     line "  foo bar" MarkdownStateOther] 12 12)
           (pressed Key_Return)
           [line "intro" MarkdownStateOther] []
           (QLatin1String "  foo bar") MarkdownStateOther 6
           eq_refl eq_refl eq_refl eq_refl eq_refl ltac:(cbn; lia) eq_refl).
Defined.

(** Control+Shift+Enter at the end of the bullet point [- item]. *)
Lemma control_enter_starts_bare_line_example :
  let ed := editing [line "- item" MarkdownStateBulletPointList] 6 6 in
  let e := mkKeyEvent Key_Return true true [] in
  document (keyPressEvent ed e)
  = [line "- item  " MarkdownStateBulletPointList; mkBlock [] MarkdownStateOther]
  /\ textCursor (keyPressEvent ed e) = mkCursor 9 9.
Proof.
  exact (control_enter_starts_bare_line
           (editing [line "- item" MarkdownStateBulletPointList] 6 6)
           (mkKeyEvent Key_Return true true []) [] []
           (QLatin1String "- item") MarkdownStateBulletPointList 6
           eq_refl eq_refl eq_refl eq_refl ltac:(cbn; lia)).
Defined.

(** Enter at the end of the indented bullet point [  * foo]. *)
Lemma enter_continues_bullet_point_example :
  let ed := editing [line "  * foo" MarkdownStateBulletPointList] 7 7 in
  document (keyPressEvent ed (pressed Key_Return))
  = [line "  * foo" MarkdownStateBulletPointList; line "  * " MarkdownStateOther]
  /\ textCursor (keyPressEvent ed (pressed Key_Return)) = mkCursor 12 12.
Proof.
  exact (enter_continues_bullet_point
           (editing [line "  * foo" MarkdownStateBulletPointList] 7 7)
           (pressed Key_Return) [] []
           (QLatin1String "  ") (QLatin1String " ") (QLatin1String "foo")
           (QLatin1Char "*")
           eq_refl eq_refl eq_refl eq_refl eq_refl eq_refl eq_refl eq_refl
           ltac:(discriminate) eq_refl ltac:(discriminate) eq_refl eq_refl).
Defined.

(** Enter at the end of the checked task [- [x] done]. *)
Lemma enter_continues_task_unchecked_example :
  let ed := editing [line "- [x] done" MarkdownStateBulletPointList] 10 10 in
  document (keyPressEvent ed (pressed Key_Return))
  = [line "- [x] done" MarkdownStateBulletPointList;
     line "- [ ] " MarkdownStateOther]
  /\ textCursor (keyPressEvent ed (pressed Key_Return)) = mkCursor 17 17.
Proof.
  exact (enter_continues_task_unchecked
           (editing [line "- [x] done" MarkdownStateBulletPointList] 10 10)
           (pressed Key_Return) [] []
           [] (QLatin1String " ") (QLatin1String "done") (QLatin1Char "x")
           eq_refl eq_refl eq_refl eq_refl eq_refl eq_refl eq_refl
           (or_introl eq_refl)
           ltac:(discriminate) eq_refl ltac:(discriminate) eq_refl).
Defined.

(** Enter after the empty bullet point [  - ]. *)
Lemma enter_ends_empty_bullet_point_example :
  let ed := editing [line "* one" MarkdownStateBulletPointList;
                     line "  - " MarkdownStateBulletPointList] 10 10 in
  document (keyPressEvent ed (pressed Key_Return))
  = [line "* one" MarkdownStateBulletPointList;
     line "  " MarkdownStateBulletPointList;
     mkBlock [] MarkdownStateOther]
  /\ textCursor (keyPressEvent ed (pressed Key_Return)) = mkCursor 9 9.
Proof.
  exact (enter_ends_empty_bullet_point
           (editing [line "* one" MarkdownStateBulletPointList;
                     line "  - " MarkdownStateBulletPointList] 10 10)
           (pressed Key_Return)
           [line "* one" MarkdownStateBulletPointList] []
           (QLatin1String "  - ")
           eq_refl eq_refl eq_refl eq_refl eq_refl eq_refl eq_refl).
Defined.

(** Enter at the end of the nested quotation [ > > quoted]. *)
Lemma enter_continues_blockquote_example :
  let ed := editing [line " > > quoted" MarkdownStateBlockquote] 11 11 in
  document (keyPressEvent ed (pressed Key_Return))
  = [line " > > quoted" MarkdownStateBlockquote; line " > > " MarkdownStateOther]
  /\ textCursor (keyPressEvent ed (pressed Key_Return)) = mkCursor 17 17.
Proof.
  exact (enter_continues_blockquote
           (editing [line " > > quoted" MarkdownStateBlockquote] 11 11)
           (pressed Key_Return) [] []
           1%nat [QLatin1String " "; QLatin1String " "] (QLatin1String "quoted")
           eq_refl eq_refl eq_refl eq_refl eq_refl eq_refl
           ltac:(lia) ltac:(discriminate)
           ltac:(repeat constructor)
           eq_refl eq_refl).
Defined.

(** Backspace between the parentheses of [f()]. *)
Lemma backspace_between_pair_removes_both_example :
  let ed := editing [line "f()" MarkdownStateOther] 2 2 in
  fst (handleBackspaceKey ed) = true
  /\ keyPressEvent ed (pressed Key_Backspace)
     = withText ed [line "f" MarkdownStateOther] (mkCursor 1 1).
Proof.
  exact (backspace_between_pair_removes_both
           (editing [line "f()" MarkdownStateOther] 2 2)
           (pressed Key_Backspace) [] []
           (QLatin1String "f") [] (QLatin1Char "(") (QLatin1Char ")")
           eq_refl eq_refl eq_refl eq_refl eq_refl eq_refl eq_refl).
Defined.

(** Backspace at the end of the line [> > ] of a nested quotation. *)
Lemma backspace_removes_last_quote_marker_example :
  let ed := editing [line "> > " MarkdownStateBlockquote] 4 4 in
  fst (handleBackspaceKey ed) = true
  /\ keyPressEvent ed (pressed Key_Backspace)
     = withText ed [line "> " MarkdownStateBlockquote] (mkCursor 2 2).
Proof.
  exact (backspace_removes_last_quote_marker
           (editing [line "> > " MarkdownStateBlockquote] 4 4)
           (pressed Key_Backspace) [] []
           (QLatin1String "> ") (QLatin1String " ") 4
           eq_refl eq_refl eq_refl eq_refl ltac:(cbn; lia) eq_refl eq_refl).
Defined.

(** Tab at column 6 with a width of 4: two blanks lead to column 8. *)
Lemma tab_moves_to_next_tab_stop_example :
  let ed := setInsertSpacesForTabs
              (editing [line "abcdefgh" MarkdownStateOther] 6 6) true in
  document (keyPressEvent ed (pressed Key_Tab))
  = [line "abcdef  gh" MarkdownStateOther]
  /\ textCursor (keyPressEvent ed (pressed Key_Tab)) = mkCursor 8 8
  /\ (0 < 2)%nat /\ 2 <= 4 /\ 8 mod 4 = 0.
Proof.
  exact (tab_moves_to_next_tab_stop
           (setInsertSpacesForTabs
              (editing [line "abcdefgh" MarkdownStateOther] 6 6) true)
           (pressed Key_Tab) [] []
           (QLatin1String "abcdefgh") MarkdownStateOther 6
           eq_refl eq_refl eq_refl ltac:(cbn; lia) (or_introl eq_refl)
           eq_refl eq_refl).
Defined.

(** The parenthesis typed after its matching was disabled. *)
Lemma disabled_opener_is_typed_alone_example :
  let ed := editing [line "ab" MarkdownStateOther] 1 1 in
  let ed' := setAutoMatchEnabledFor ed (QLatin1Char "(") false in
  insertPairedCharacters ed' (QLatin1Char "(") = (false, ed')
  /\ keyPressEvent ed' (typed (QLatin1Char "("))
     = withText ed' [line "a(b" MarkdownStateOther] (mkCursor 2 2)
  /\ hash_value false (autoMatchFilter ed') (QLatin1Char "[")
     = hash_value false (autoMatchFilter ed) (QLatin1Char "[")
  /\ keyPressEvent ed (typed (QLatin1Char "("))
     = withText ed [line "a()b" MarkdownStateOther] (mkCursor 2 2).
Proof.
  destruct (disabled_opener_is_typed_alone
              (editing [line "ab" MarkdownStateOther] 1 1) [] []
              (QLatin1String "ab") MarkdownStateOther 1 (QLatin1Char "(")
              eq_refl eq_refl ltac:(cbn; lia) eq_refl (or_introl eq_refl))
    as [H1 [_ [H3 [H4 _]]]].
  exact (conj H1 (conj H3 (conj (H4 (QLatin1Char "[") ltac:(discriminate))
                                eq_refl))).
Defined.

(** [bold] with the cursor between [a] and [b]. *)
Lemma formatting_markup_surrounds_cursor_example :
  let ed := editing [line "ab" MarkdownStateOther] 1 1 in
  bold ed = withText ed [line "a****b" MarkdownStateOther] (mkCursor 3 3).
Proof.
  exact (formatting_markup_surrounds_cursor
           (editing [line "ab" MarkdownStateOther] 1 1) [] []
           (QLatin1String "ab") MarkdownStateOther 1 (QLatin1String "**")
           eq_refl eq_refl ltac:(cbn; lia) eq_refl).
Defined.

(** [strikethrough] over [word] selected from left to right, and [italic]
    over [word] selected from right to left. *)
Lemma formatting_markup_wraps_selection_example :
  let forward := editing [line "a word b" MarkdownStateOther] 2 6 in
  let backward := editing [line "a word b" MarkdownStateOther] 6 2 in
  (document (strikethrough forward) = [line "a ~~word~~ b" MarkdownStateOther]
   /\ textCursor (strikethrough forward) = mkCursor 4 8
   /\ selectedText (document (strikethrough forward))
                   (textCursor (strikethrough forward))
      = QLatin1String "word")
  /\ (document (italic backward) = [line "a *word* b" MarkdownStateOther]
      /\ textCursor (italic backward) = mkCursor 8 2
      /\ selectedText (document (italic backward)) (textCursor (italic backward))
         = QLatin1String "*word*").
Proof.
  exact (conj
           (formatting_markup_wraps_selection
              (editing [line "a word b" MarkdownStateOther] 2 6) [] []
              (QLatin1String "a word b") MarkdownStateOther 2 6
              (QLatin1String "~~")
              eq_refl eq_refl ltac:(discriminate) ltac:(cbn; lia)
              ltac:(cbn; lia) ltac:(discriminate) eq_refl)
           (formatting_markup_wraps_selection
              (editing [line "a word b" MarkdownStateOther] 6 2) [] []
              (QLatin1String "a word b") MarkdownStateOther 6 2
              (QLatin1String "*")
              eq_refl eq_refl ltac:(discriminate) ltac:(cbn; lia)
              ltac:(cbn; lia) ltac:(discriminate) eq_refl)).
Defined.

(** [insertComment] at a cursor, and over the selection [word]. *)
Lemma comment_surrounds_cursor_or_selection_example :
  let ed := editing [line "ab" MarkdownStateOther] 1 1 in
  let selecting := editing [line "a word b" MarkdownStateOther] 2 6 in
  insertComment ed
  = withText ed [line "a<!--  -->b" MarkdownStateOther] (mkCursor 6 6)
  /\ insertComment selecting
     = withText selecting [line "a <!-- word --> b" MarkdownStateOther]
                (mkCursor 15 15).
Proof.
  exact (conj
           (proj1 (comment_surrounds_cursor_or_selection
                     (editing [line "ab" MarkdownStateOther] 1 1) [] []
                     (QLatin1String "ab") MarkdownStateOther 1 1
                     eq_refl eq_refl ltac:(cbn; lia) ltac:(cbn; lia) eq_refl)
                  eq_refl)
           (proj2 (comment_surrounds_cursor_or_selection
                     (editing [line "a word b" MarkdownStateOther] 2 6) [] []
                     (QLatin1String "a word b") MarkdownStateOther 2 6
                     eq_refl eq_refl ltac:(cbn; lia) ltac:(cbn; lia) eq_refl)
                  ltac:(discriminate))).
Defined.

(** [createTaskList] with a selection from the line [one] to the line
    [two]. *)
Lemma prefix_goes_before_every_selected_line_example :
  let ed := editing [line "intro" MarkdownStateOther;
                     line "one" MarkdownStateOther;
                     line "two" MarkdownStateOther;
                     line "end" MarkdownStateOther] 7 12 in
  document (createTaskList ed)
  = [line "intro" MarkdownStateOther;
     line "- [ ] one" MarkdownStateOther;
     line "- [ ] two" MarkdownStateOther;
     line "end" MarkdownStateOther].
Proof.
  exact (prefix_goes_before_every_selected_line
           (editing [line "intro" MarkdownStateOther;
                     line "one" MarkdownStateOther;
                     line "two" MarkdownStateOther;
                     line "end" MarkdownStateOther] 7 12)
           [line "intro" MarkdownStateOther] [line "one" MarkdownStateOther]
           [line "end" MarkdownStateOther] (line "two" MarkdownStateOther)
           1 2 (QLatin1String "- [ ] ")
           eq_refl eq_refl eq_refl ltac:(cbn; lia) ltac:(cbn; lia) eq_refl).
Defined.

(** [createNumberedListWithPeriodMarker] with the same selection. *)
Lemma numbered_list_counts_selected_lines_example :
  let ed := editing [line "intro" MarkdownStateOther;
                     line "one" MarkdownStateOther;
                     line "two" MarkdownStateOther;
                     line "end" MarkdownStateOther] 7 12 in
  document (createNumberedListWithPeriodMarker ed)
  = [line "intro" MarkdownStateOther;
     line "1. one" MarkdownStateOther;
     line "2. two" MarkdownStateOther;
     line "end" MarkdownStateOther].
Proof.
  exact (numbered_list_counts_selected_lines
           (editing [line "intro" MarkdownStateOther;
                     line "one" MarkdownStateOther;
                     line "two" MarkdownStateOther;
                     line "end" MarkdownStateOther] 7 12)
           [line "intro" MarkdownStateOther] [line "one" MarkdownStateOther]
           [line "end" MarkdownStateOther] (line "two" MarkdownStateOther)
           1 2 (QLatin1Char ".")
           eq_refl eq_refl eq_refl ltac:(cbn; lia) ltac:(cbn; lia) eq_refl
           eq_refl).
Defined.

(** The line [12. text]. *)
Lemma numbered_line_matches_numbered_list_pattern_example :
  numberedListRegex (QLatin1String "12. text")
  = Some (mkMatch 4 (QLatin1String "12"))
  /\ QString_toInt (QLatin1String "12") = 12.
Proof.
  exact (numbered_line_matches_numbered_list_pattern
           12 (QLatin1Char ".") (QLatin1String "text")
           ltac:(unfold INT_MAX; lia) eq_refl).
Defined.

(** [removeBlockquote] over three lines: the third one starts with a
    blank. *)
Lemma remove_blockquote_unquotes_selected_lines_example :
  let ed := editing [line "> one" MarkdownStateBlockquote;
                     line ">   two" MarkdownStateBlockquote;
                     line " > three" MarkdownStateBlockquote;
                     line "four" MarkdownStateOther] 2 16 in
  document (removeBlockquote ed)
  = [line "one" MarkdownStateBlockquote;
     line "two" MarkdownStateBlockquote;
     line " > three" MarkdownStateBlockquote;
     line "four" MarkdownStateOther].
Proof.
  exact (remove_blockquote_unquotes_selected_lines
           (editing [line "> one" MarkdownStateBlockquote;
                     line ">   two" MarkdownStateBlockquote;
                     line " > three" MarkdownStateBlockquote;
                     line "four" MarkdownStateOther] 2 16)
           []
           [line "> one" MarkdownStateBlockquote;
            line ">   two" MarkdownStateBlockquote]
           [line "four" MarkdownStateOther]
           (line " > three" MarkdownStateBlockquote) 2 2
           eq_refl eq_refl eq_refl ltac:(cbn; lia) ltac:(cbn; lia)).
Defined.

(** [toggleTaskComplete] on the task [- [ ] task], once and twice. *)
Lemma toggle_task_complete_twice_example :
  let ed := editing [line "- [ ] task" MarkdownStateBulletPointList] 3 3 in
  fst (toggleTaskComplete ed) = true
  /\ document (snd (toggleTaskComplete ed))
     = [line "- [x] task" MarkdownStateBulletPointList]
  /\ document (snd (toggleTaskComplete (snd (toggleTaskComplete ed))))
     = [line "- [ ] task" MarkdownStateBulletPointList].
Proof.
  exact (toggle_task_complete_twice
           (editing [line "- [ ] task" MarkdownStateBulletPointList] 3 3) [] []
           [] (QLatin1String " ") (QLatin1String "task") (QLatin1Char " ") 3 3
           eq_refl eq_refl ltac:(cbn; lia) ltac:(cbn; lia) eq_refl
           (or_intror eq_refl) ltac:(discriminate) eq_refl eq_refl).
Defined.

(** [toggleTaskComplete] on [* [ ] task]: the task pattern wants the marker
    [-]. *)
Lemma toggle_task_complete_ignores_other_lines_example :
  let ed := editing [line "* [ ] task" MarkdownStateBulletPointList] 0 0 in
  toggleTaskComplete ed = (true, ed).
Proof.
  exact (toggle_task_complete_ignores_other_lines
           (editing [line "* [ ] task" MarkdownStateBulletPointList] 0 0) [] []
           (QLatin1String "* [ ] task") MarkdownStateBulletPointList 0 0
           eq_refl eq_refl ltac:(cbn; lia) ltac:(cbn; lia) (or_intror eq_refl)).
Defined.

(** Tab with a selection from the line [one] to the line [two]. *)
Lemma tab_indents_every_selected_line_example :
  let ed := editing [line "intro" MarkdownStateOther;
                     line "one" MarkdownStateOther;
                     line "two" MarkdownStateOther;
                     line "end" MarkdownStateOther] 7 12 in
  document (keyPressEvent ed (pressed Key_Tab))
  = [line "intro" MarkdownStateOther;
     mkBlock (Tab :: QLatin1String "one") MarkdownStateOther;
     mkBlock (Tab :: QLatin1String "two") MarkdownStateOther;
     line "end" MarkdownStateOther].
Proof.
  exact (tab_indents_every_selected_line
           (editing [line "intro" MarkdownStateOther;
                     line "one" MarkdownStateOther;
                     line "two" MarkdownStateOther;
                     line "end" MarkdownStateOther] 7 12)
           (pressed Key_Tab)
           [line "intro" MarkdownStateOther] [line "one" MarkdownStateOther]
           [line "end" MarkdownStateOther] (line "two" MarkdownStateOther)
           1 2
           eq_refl eq_refl eq_refl eq_refl eq_refl ltac:(cbn; lia)
           ltac:(cbn; lia)).
Defined.

(** Shift+Tab over three lines: six blanks, a tabulation, and the empty
    bullet point [  - ]. *)
Lemma shift_tab_unindents_every_selected_line_example :
  let ed := editing [line "      one" MarkdownStateOther;
                     mkBlock (Tab :: QLatin1String "two") MarkdownStateOther;
                     line "  - " MarkdownStateBulletPointList] 0 19 in
  document (keyPressEvent ed (pressed Key_Backtab))
  = [line "  one" MarkdownStateOther;
     line "two" MarkdownStateOther;
     line "* " MarkdownStateBulletPointList].
Proof.
  exact (shift_tab_unindents_every_selected_line
           (editing [line "      one" MarkdownStateOther;
                     mkBlock (Tab :: QLatin1String "two") MarkdownStateOther;
                     line "  - " MarkdownStateBulletPointList] 0 19)
           (pressed Key_Backtab)
           []
           [line "      one" MarkdownStateOther;
            mkBlock (Tab :: QLatin1String "two") MarkdownStateOther]
           [] (line "  - " MarkdownStateBulletPointList) 0 4
           eq_refl eq_refl eq_refl eq_refl ltac:(cbn; lia) ltac:(cbn; lia)
           eq_refl).
Defined.

(** Tab and then Shift+Tab with a selection from the line [one] to the line
    [two]. *)
Lemma tab_then_shift_tab_restores_selected_lines_example :
  let ed := editing [line "intro" MarkdownStateOther;
                     line "one" MarkdownStateOther;
                     line "two" MarkdownStateOther;
                     line "end" MarkdownStateOther] 7 12 in
  document (keyPressEvent (keyPressEvent ed (pressed Key_Tab))
                          (pressed Key_Backtab))
  = [line "intro" MarkdownStateOther;
     line "one" MarkdownStateOther;
     line "two" MarkdownStateOther;
     line "end" MarkdownStateOther].
Proof.
  exact (tab_then_shift_tab_restores_selected_lines
           (editing [line "intro" MarkdownStateOther;
                     line "one" MarkdownStateOther;
                     line "two" MarkdownStateOther;
                     line "end" MarkdownStateOther] 7 12)
           (pressed Key_Tab) (pressed Key_Backtab)
           [line "intro" MarkdownStateOther] [line "one" MarkdownStateOther]
           [line "end" MarkdownStateOther] (line "two" MarkdownStateOther)
           1 2
           eq_refl eq_refl eq_refl eq_refl eq_refl eq_refl ltac:(cbn; lia)
           ltac:(cbn; lia) eq_refl eq_refl ltac:(left; discriminate)).
Defined.

(** [createBlockquote] and then [removeBlockquote] over two lines: the
    second one loses the two blanks it started with. Over lines that start
    with no blank the text is given back. *)
Lemma blockquote_is_removed_with_leading_blanks_example :
  let ed := editing [line "one" MarkdownStateOther;
                     line "  two" MarkdownStateOther] 0 6 in
  let plain := editing [line "one" MarkdownStateOther;
                        line "two" MarkdownStateOther] 0 6 in
  document (createBlockquote ed)
  = [line "> one" MarkdownStateOther; line ">   two" MarkdownStateOther]
  /\ document (removeBlockquote (createBlockquote ed))
     = [line "one" MarkdownStateOther; line "two" MarkdownStateOther]
  /\ document (removeBlockquote (createBlockquote plain)) = document plain.
Proof.
  destruct (blockquote_is_removed_with_leading_blanks
              (editing [line "one" MarkdownStateOther;
                        line "  two" MarkdownStateOther] 0 6)
              [] [line "one" MarkdownStateOther] []
              (line "  two" MarkdownStateOther) 0 2
              eq_refl eq_refl eq_refl ltac:(cbn; lia) ltac:(cbn; lia))
    as [H1 [H2 _]].
  destruct (blockquote_is_removed_with_leading_blanks
              (editing [line "one" MarkdownStateOther;
                        line "two" MarkdownStateOther] 0 6)
              [] [line "one" MarkdownStateOther] []
              (line "two" MarkdownStateOther) 0 2
              eq_refl eq_refl eq_refl ltac:(cbn; lia) ltac:(cbn; lia))
    as [_ [_ H3]].
  exact (conj H1 (conj H2
           (H3 ltac:(repeat constructor)))).
Defined.

(** Tab in the empty item [  7. ] of a numbered list. *)
Lemma tab_restarts_numbering_of_empty_item_example :
  let ed := editing [line "  7. " MarkdownStateNumberedList] 5 5 in
  document (keyPressEvent ed (pressed Key_Tab))
  = [mkBlock (Tab :: QLatin1String "  1. ") MarkdownStateNumberedList]
  /\ textCursor (keyPressEvent ed (pressed Key_Tab)) = mkCursor 6 6.
Proof.
  exact (tab_restarts_numbering_of_empty_item
           (editing [line "  7. " MarkdownStateNumberedList] 5 5)
           (pressed Key_Tab) [] []
           (QLatin1String "  ") (QLatin1String "7") (QLatin1String " ")
           (QLatin1Char ".") 5
           eq_refl eq_refl eq_refl ltac:(cbn; lia) eq_refl eq_refl
           ltac:(discriminate) eq_refl eq_refl ltac:(discriminate) eq_refl).
Defined.

(** The task [- [x] done]. *)
Lemma task_pattern_implies_bullet_pattern_example :
  taskListRegex (QLatin1String "- [x] done")
  = Some (mkMatch 6 (QLatin1String "x"))
  /\ bulletListRegex (QLatin1String "- [x] done") = Some (mkMatch 2 [])
  /\ 6 <= 6
  /\ exactMatch bulletListRegex (QLatin1String "- [x] done") = false.
Proof.
  exact (conj eq_refl
           (task_pattern_implies_bullet_pattern
              (QLatin1String "- [x] done") (mkMatch 6 (QLatin1String "x"))
              eq_refl)).
Defined.
